(** * Culebra: a shallow embedding of the tree-walking evaluator

    This development embeds the evaluator of [language/culebra.h] (the
    value representation, the environment chain, the built-in functions
    and [Eval]) and proves properties of it.

    Conventions of the embedding:
    - [std::shared_ptr] handles (environments, property maps, element
      vectors) are indices into stores kept in an explicit [State];
    - C++ exceptions are the [Throw] outcome and carry the state at the
      point of the throw; a failed [assert], an out-of-bounds [operator[]]
      on a vector and a division by zero are the [Abort] outcome;
    - recursion and loops of the evaluator are bounded by a fuel counter;
      running out of it is the [OutOfFuel] outcome;
    - [std::map<std::string, T>] is an association list kept in strictly
      ascending key order, which is the iteration order of the C++ map. *)

From Stdlib Require Import ZArith List String Ascii Bool Lia.
From Stdlib Require Import DecimalString OrderedTypeEx Sorting.Sorted.
From Stdlib Require DecimalPos.
Import ListNotations.

Local Open Scope string_scope.
Local Open Scope list_scope.
Local Open Scope Z_scope.

(** ** The syntax tree handed over by the parser *)

(** Rule names of [grammar_]; [peglib::Ast::tag] is the hash of one of them. *)
Inductive Tag :=
| PROGRAM | STATEMENTS | EXPRESSION | ASSIGNMENT | WHILE | IF
| LOGICAL_OR | LOGICAL_AND | CONDITION | ADDITIVE
| UNARY_PLUS | UNARY_MINUS | UNARY_NOT | MULTIPLICATIVE
| CALL | ARGUMENTS | INDEX | DOT | PRIMARY
| FUNCTION | PARAMETERS | PARAMETER | BLOCK
| CONDITION_OPERATOR | ADDITIVE_OPERATOR | UNARY_PLUS_OPERATOR
| UNARY_MINUS_OPERATOR | UNARY_NOT_OPERATOR | MULTIPLICATIVE_OPERATOR
| IDENTIFIER | OBJECT | OBJECT_PROPERTY | ARRAY
| UNDEFINED | BOOLEAN | NUMBER | STRING
| INTERPOLATED_STRING | INTERPOLATED_CONTENT | MUTABLE.

Definition Tag_eq_dec (a b : Tag) : {a = b} + {a <> b}.
Proof. decide equality. Defined.

Definition tag_eqb (a b : Tag) : bool :=
  if Tag_eq_dec a b then true else false.

(** Modelled from the spec: [peglib::Ast], declared in [peglib.h], of which
    the evaluator reads the fields below.  A rule that matched a single
    child is hoisted: its node is the child's, with the child's [tag],
    token and nodes, and the outer rule recorded in [original_tag];
    [PARAMETERS], [ARGUMENTS] and [OBJECT] are never hoisted. *)
#[warnings="-register-all"]
Inductive Ast := mkAst {
  line : N;
  column : N;
  tag : Tag;
  original_tag : Tag;
  is_token : bool;
  token : string;
  nodes : list Ast
}.

(** ** [long] *)

Definition LONG_MIN : Z := - 2 ^ 63.
Definition LONG_MAX : Z := 2 ^ 63 - 1.

(** Reduction into the range of a 64-bit two's complement [long]. *)
Definition wrap (z : Z) : Z := (z + 2 ^ 63) mod 2 ^ 64 - 2 ^ 63.

(** [std::to_string(long)] *)
Definition to_string_long (l : Z) : string :=
  NilZero.string_of_int (Z.to_int l).

(** ** [std::map<std::string, T>] *)

Definition smap (T : Type) := list (string * T).

Section Smap.
Context {T : Type}.

(** [m.find(k)], giving the mapped value when the key is present. *)
Fixpoint map_find (k : string) (m : smap T) : option T :=
  match m with
  | [] => None
  | (k', v) :: m' => if String.eqb k k' then Some v else map_find k m'
  end.

(** [m[k] = v] *)
Fixpoint map_set (k : string) (v : T) (m : smap T) : smap T :=
  match m with
  | [] => [(k, v)]
  | (k', v') :: m' =>
      match String.compare k k' with
      | Lt => (k, v) :: m
      | Eq => (k, v) :: m'
      | Gt => (k', v') :: map_set k v m'
      end
  end.

(** [m.emplace(k, v)]: nothing is inserted when the key is present. *)
Fixpoint map_emplace (k : string) (v : T) (m : smap T) : smap T :=
  match m with
  | [] => [(k, v)]
  | (k', v') :: m' =>
      match String.compare k k' with
      | Lt => (k, v) :: m
      | Eq => m
      | Gt => (k', v') :: map_emplace k v m'
      end
  end.

Definition keys (m : smap T) : list string := map fst m.
End Smap.

(** The order of [std::less<std::string>]. *)
Definition str_lt (a b : string) : Prop := String.ltb a b = true.

(** ** Values *)

(** [FunctionValue::Parameter] *)
Record Param := mkParam { name : string; mut : bool }.

Definition loc := nat.

(** [Value], with [type] and the payload [v] merged into constructors.
    The [std::function] of a [FunctionValue] is one of the lambdas of the
    source: the one of [eval_function], the one of the [DOT] branch of
    [eval_call], and the five built-ins. *)
Inductive Value :=
| VUndefined
| VBool (b : bool)
| VLong (l : Z)
| VString (s : string)
| VObject (o : ObjectValue)
| VArray (a : ArrayValue)
| VFunction (f : FunctionValue)
with ObjectValue := mkObject (properties : loc)
with ArrayValue := mkArray (aproperties : loc) (values : loc)
with FunctionValue := mkFunction (params : list Param) (eval_ : Closure)
with Closure :=
| UserFn (env : loc) (body : Ast)
| BoundFn (this : Value) (pf : FunctionValue)
| ObjectSize
| ArraySize
| ArrayPush
| Puts
| Assert.

Definition properties (o : ObjectValue) : loc :=
  match o with mkObject p => p end.
Definition values (a : ArrayValue) : loc :=
  match a with mkArray _ v => v end.
Definition as_object (a : ArrayValue) : ObjectValue :=
  match a with mkArray p _ => mkObject p end.
Definition params (f : FunctionValue) : list Param :=
  match f with mkFunction p _ => p end.
Definition fn_eval (f : FunctionValue) : Closure :=
  match f with mkFunction _ c => c end.

(** ** Environments and the state *)

Record Symbol := mkSymbol { val : Value; smut : bool }.

Record Environment := mkEnvironment {
  outer : option loc;
  dic_ : smap Symbol
}.

Record State := mkState {
  envs : list Environment;
  maps : list (smap Value);
  vecs : list (list Value);
  cout : list string
}.

Definition empty_state : State := mkState [] [] [] [].

Inductive Exception :=
| runtime_error (what : string)
| logic_error (what : string)
| out_of_range (what : string)
| invalid_argument (what : string).

Inductive Result (A : Type) :=
| Ok (a : A) (st : State)
| Throw (e : Exception) (st : State)
| Abort
| OutOfFuel.

Arguments Ok {A} a st.
Arguments Throw {A} e st.
Arguments Abort {A}.
Arguments OutOfFuel {A}.

Definition M (A : Type) := State -> Result A.

Definition ret {A} (a : A) : M A := fun st => Ok a st.

Definition bind {A B} (m : M A) (f : A -> M B) : M B :=
  fun st =>
    match m st with
    | Ok a st' => f a st'
    | Throw e st' => Throw e st'
    | Abort => Abort
    | OutOfFuel => OutOfFuel
    end.

Definition throw {A} (e : Exception) : M A := fun st => Throw e st.
Definition abort {A} : M A := fun _ => Abort.
Definition out_of_fuel {A} : M A := fun _ => OutOfFuel.
Definition get_state : M State := fun st => Ok st st.
Definition put_state (st : State) : M unit := fun _ => Ok tt st.

Notation "x <- m ;; k" := (bind m (fun x => k))
  (at level 61, m at next level, right associativity).
Notation "m ;; k" := (bind m (fun _ => k))
  (at level 61, right associativity).

(** A handle that is not in its store cannot occur with [shared_ptr]. *)
Definition deref {A B} (sel : State -> list A) (l : loc) (k : A -> M B) : M B :=
  fun st =>
    match nth_error (sel st) l with
    | Some a => k a st
    | None => Abort
    end.

Fixpoint list_set {A} (l : list A) (i : nat) (a : A) : list A :=
  match l, i with
  | [], _ => []
  | _ :: l', O => a :: l'
  | x :: l', S i' => x :: list_set l' i' a
  end.

(** [v[i]] on a [std::vector]: out of bounds is undefined behaviour. *)
Definition node_at (l : list Ast) (i : nat) : M Ast :=
  match nth_error l i with
  | Some n => ret n
  | None => abort
  end.

(** ** Coercions of [Value] *)

Definition type_error {A} : M A := throw (runtime_error "type error.").

Definition to_bool (v : Value) : M bool :=
  match v with
  | VBool b => ret b
  | VLong l => ret (negb (l =? 0))
  | _ => type_error
  end.

Definition to_long (v : Value) : M Z :=
  match v with
  | VBool b => ret (Z.b2z b)
  | VLong l => ret l
  | _ => type_error
  end.

Definition to_string (v : Value) : M string :=
  match v with
  | VString s => ret s
  | _ => type_error
  end.

Definition to_function (v : Value) : M FunctionValue :=
  match v with
  | VFunction f => ret f
  | _ => type_error
  end.

Definition to_object (v : Value) : M ObjectValue :=
  match v with
  | VObject o => ret o
  | _ => type_error
  end.

Definition to_array (v : Value) : M ArrayValue :=
  match v with
  | VArray a => ret a
  | _ => type_error
  end.

(** ** Textual rendering *)

Definition dquote : string := String (ascii_of_nat 34) EmptyString.

Section Str.
(** [Value::str] on the values held by an object or an array. *)
Variable str_rec : Value -> M string.

Fixpoint str_object_loop (first : bool) (props : smap Value) (s : string)
  : M string :=
  match props with
  | [] => ret s
  | (k, v) :: rest =>
      let s := if first then s else (s ++ ", ")%string in
      let s := (s ++ (dquote ++ k ++ dquote))%string in
      let s := (s ++ ": ")%string in
      r <- str_rec v ;;
      str_object_loop false rest (s ++ r)%string
  end.

Definition str_object (v : Value) : M string :=
  o <- to_object v ;;
  deref maps (properties o) (fun props =>
    s <- str_object_loop true props "{" ;;
    ret (s ++ "}")%string).

Fixpoint str_array_loop (first : bool) (vs : list Value) (s : string)
  : M string :=
  match vs with
  | [] => ret s
  | v :: rest =>
      let s := if first then s else (s ++ ", ")%string in
      r <- str_rec v ;;
      str_array_loop false rest (s ++ r)%string
  end.

Definition str_array (v : Value) : M string :=
  a <- to_array v ;;
  deref vecs (values a) (fun vs =>
    s <- str_array_loop true vs "[" ;;
    ret (s ++ "]")%string).

Definition str_body (v : Value) : M string :=
  match v with
  | VUndefined => ret "undefined"
  | VBool _ => b <- to_bool v ;; ret (if b then "true" else "false")
  | VLong _ => l <- to_long v ;; ret (to_string_long l)
  | VString _ => to_string v
  | VObject _ => str_object v
  | VArray _ => str_array v
  | VFunction _ => ret "[function]"
  end.
End Str.

Fixpoint str (fuel : nat) (v : Value) : M string :=
  match fuel with
  | O => out_of_fuel
  | S k => str_body (str k) v
  end.

(** ** Comparison operators of [Value] *)

Definition internal_error {A} : M A :=
  throw (logic_error "invalid internal condition.").

Definition value_eq (lhs rhs : Value) : M bool :=
  match lhs with
  | VUndefined => ret (match rhs with VUndefined => true | _ => false end)
  | VBool _ => a <- to_bool lhs ;; b <- to_bool rhs ;; ret (Bool.eqb a b)
  | VLong _ => a <- to_long lhs ;; b <- to_long rhs ;; ret (a =? b)
  | VString _ => a <- to_string lhs ;; b <- to_string rhs ;; ret (String.eqb a b)
  | _ => internal_error
  end.

Definition value_ne (lhs rhs : Value) : M bool :=
  b <- value_eq lhs rhs ;; ret (negb b).

Definition value_le (lhs rhs : Value) : M bool :=
  match lhs with
  | VUndefined => ret false
  | VBool _ => a <- to_bool lhs ;; b <- to_bool rhs ;; ret (Z.b2z a <=? Z.b2z b)
  | VLong _ => a <- to_long lhs ;; b <- to_long rhs ;; ret (a <=? b)
  | VString _ => a <- to_string lhs ;; b <- to_string rhs ;; ret (String.leb a b)
  | _ => internal_error
  end.

Definition value_lt (lhs rhs : Value) : M bool :=
  match lhs with
  | VUndefined => ret false
  | VBool _ => a <- to_bool lhs ;; b <- to_bool rhs ;; ret (Z.b2z a <? Z.b2z b)
  | VLong _ => a <- to_long lhs ;; b <- to_long rhs ;; ret (a <? b)
  | VString _ => a <- to_string lhs ;; b <- to_string rhs ;; ret (String.ltb a b)
  | _ => internal_error
  end.

Definition value_ge (lhs rhs : Value) : M bool :=
  match lhs with
  | VUndefined => ret false
  | VBool _ => a <- to_bool lhs ;; b <- to_bool rhs ;; ret (Z.b2z a >=? Z.b2z b)
  | VLong _ => a <- to_long lhs ;; b <- to_long rhs ;; ret (a >=? b)
  | VString _ => a <- to_string lhs ;; b <- to_string rhs ;; ret (String.leb b a)
  | _ => internal_error
  end.

Definition value_gt (lhs rhs : Value) : M bool :=
  match lhs with
  | VUndefined => ret false
  | VBool _ => a <- to_bool lhs ;; b <- to_bool rhs ;; ret (Z.b2z a >? Z.b2z b)
  | VLong _ => a <- to_long lhs ;; b <- to_long rhs ;; ret (a >? b)
  | VString _ => a <- to_string lhs ;; b <- to_string rhs ;; ret (String.ltb b a)
  | _ => internal_error
  end.

(** The [if]/[else if] chain on [ope] at the end of [eval_condition]. *)
Definition compare_values (ope : string) (lhs rhs : Value) : M Value :=
  if String.eqb ope "==" then b <- value_eq lhs rhs ;; ret (VBool b)
  else if String.eqb ope "!=" then b <- value_ne lhs rhs ;; ret (VBool b)
  else if String.eqb ope "<=" then b <- value_le lhs rhs ;; ret (VBool b)
  else if String.eqb ope "<" then b <- value_lt lhs rhs ;; ret (VBool b)
  else if String.eqb ope ">=" then b <- value_ge lhs rhs ;; ret (VBool b)
  else if String.eqb ope ">" then b <- value_gt lhs rhs ;; ret (VBool b)
  else internal_error.

(** ** [Environment] *)

Definition set_frame (e : loc) (fr : Environment) : M unit :=
  fun st => Ok tt (mkState (list_set (envs st) e fr) (maps st) (vecs st) (cout st)).

(** [std::make_shared<Environment>()] *)
Definition new_environment : M loc :=
  fun st =>
    Ok (List.length (envs st))
       (mkState (envs st ++ [mkEnvironment None []]) (maps st) (vecs st) (cout st)).

Fixpoint append_outer (fuel : nat) (e : loc) (o : loc) : M unit :=
  match fuel with
  | O => out_of_fuel
  | S k =>
      deref envs e (fun fr =>
        match outer fr with
        | Some o' => append_outer k o' o
        | None => set_frame e (mkEnvironment (Some o) (dic_ fr))
        end)
  end.

Fixpoint has (fuel : nat) (e : loc) (s : string) : M bool :=
  match fuel with
  | O => out_of_fuel
  | S k =>
      deref envs e (fun fr =>
        match map_find s (dic_ fr) with
        | Some _ => ret true
        | None =>
            match outer fr with
            | Some o => has k o s
            | None => ret false
            end
        end)
  end.

Fixpoint get (fuel : nat) (e : loc) (s : string) : M Value :=
  match fuel with
  | O => out_of_fuel
  | S k =>
      deref envs e (fun fr =>
        match map_find s (dic_ fr) with
        | Some sym => ret (val sym)
        | None =>
            match outer fr with
            | Some o => get k o s
            | None =>
                throw (runtime_error ("undefined variable '" ++ s ++ "'...")%string)
            end
        end)
  end.

Fixpoint assign (fuel : nat) (e : loc) (s : string) (v : Value) : M unit :=
  match fuel with
  | O => out_of_fuel
  | S k =>
      deref envs e (fun fr =>
        match map_find s (dic_ fr) with
        | Some sym =>
            if negb (smut sym) then
              throw (runtime_error ("immutable variable '" ++ s ++ "'...")%string)
            else
              set_frame e
                (mkEnvironment (outer fr)
                   (map_set s (mkSymbol v (smut sym)) (dic_ fr)))
        | None =>
            match outer fr with
            | Some o =>
                b <- has k o s ;;
                if b then assign k o s v else internal_error
            | None => internal_error
            end
        end)
  end.

Definition initialize (e : loc) (s : string) (v : Value) (m : bool) : M unit :=
  deref envs e (fun fr =>
    set_frame e (mkEnvironment (outer fr) (map_set s (mkSymbol v m) (dic_ fr)))).

(** ** Properties of objects and arrays *)

(** [ObjectValue::builtins] *)
Definition object_builtins : smap Value :=
  [("size", VFunction (mkFunction [] ObjectSize))].

(** [ArrayValue::builtins] *)
Definition array_builtins : smap Value :=
  [("push", VFunction (mkFunction [mkParam "arg" false] ArrayPush));
   ("size", VFunction (mkFunction [] ArraySize))].

(** [ObjectValue::has_property]; [builtins] is the virtual call. *)
Definition has_property (builtins : smap Value) (o : ObjectValue) (nm : string)
  : M bool :=
  deref maps (properties o) (fun props =>
    match map_find nm props with
    | None =>
        ret (match map_find nm builtins with Some _ => true | None => false end)
    | Some _ => ret true
    end).

(** [ObjectValue::get_property]; [builtins] is the virtual call. *)
Definition object_get_property (builtins : smap Value) (o : ObjectValue)
  (nm : string) : M Value :=
  deref maps (properties o) (fun props =>
    match map_find nm props with
    | None =>
        match map_find nm builtins with
        | Some v => ret v
        | None => throw (out_of_range "map::at")
        end
    | Some v => ret v
    end).

(** [Value::get_property] *)
Definition get_property (v : Value) (nm : string) : M Value :=
  match v with
  | VObject _ => o <- to_object v ;; object_get_property object_builtins o nm
  | VArray _ =>
      a <- to_array v ;; object_get_property array_builtins (as_object a) nm
  | _ => type_error
  end.

Definition new_map (m : smap Value) : M loc :=
  fun st =>
    Ok (List.length (maps st))
       (mkState (envs st) (maps st ++ [m]) (vecs st) (cout st)).

Definition new_vec (vs : list Value) : M loc :=
  fun st =>
    Ok (List.length (vecs st))
       (mkState (envs st) (maps st) (vecs st ++ [vs]) (cout st)).

Definition push_back (l : loc) (v : Value) : M unit :=
  deref vecs l (fun vs st =>
    Ok tt (mkState (envs st) (maps st) (list_set (vecs st) l (vs ++ [v])) (cout st))).

(** [std::cout << s << std::endl] *)
Definition print_line (s : string) : M unit :=
  fun st => Ok tt (mkState (envs st) (maps st) (vecs st) (cout st ++ [s])).

(** [setup_built_in_functions] *)
Definition setup_built_in_functions (env : loc) : M unit :=
  initialize env "puts"
    (VFunction (mkFunction [mkParam "arg" true] Puts)) false ;;
  initialize env "assert"
    (VFunction (mkFunction [mkParam "arg" true] Assert)) false.

(** ** Literals *)

Definition isspace (c : ascii) : bool :=
  let n := nat_of_ascii c in
  (Nat.eqb n 32 || (Nat.leb 9 n && Nat.leb n 13))%bool.

Fixpoint skip_spaces (s : string) : string :=
  match s with
  | String c s' => if isspace c then skip_spaces s' else s
  | EmptyString => s
  end.

Definition digit_of (c : ascii) : option Z :=
  let n := Z.of_nat (nat_of_ascii c) in
  if ((48 <=? n) && (n <=? 57))%bool then Some (n - 48) else None.

Fixpoint digits (s : string) (acc : option Z) : option Z :=
  match s with
  | String c s' =>
      match digit_of c with
      | Some d => digits s' (Some (10 * match acc with Some a => a | None => 0 end + d))
      | None => acc
      end
  | EmptyString => acc
  end.

(** [std::stol]: optional white space and sign, then the longest run of
    decimal digits. *)
Definition stol (s : string) : M Z :=
  let s := skip_spaces s in
  let '(neg, s) :=
    match s with
    | String "-"%char s' => (true, s')
    | String "+"%char s' => (false, s')
    | _ => (false, s)
    end in
  match digits s None with
  | None => throw (invalid_argument "stol")
  | Some n =>
      let z := if neg then - n else n in
      if ((LONG_MIN <=? z) && (z <=? LONG_MAX))%bool then ret z
      else throw (out_of_range "stol")
  end.

(** [(long)ast.line] for a [size_t] *)
Definition long_of_size_t (n : N) : Z := wrap (Z.of_N n).

(** One step of the [switch (ope)] of [eval_bin_expression].  Signed
    overflow wraps; division by zero and [LONG_MIN / -1] abort. *)
Definition bin_op (ope : ascii) (r v : Z) : M Z :=
  if Ascii.eqb ope "+" then ret (wrap (r + v))
  else if Ascii.eqb ope "-" then ret (wrap (r - v))
  else if Ascii.eqb ope "*" then ret (wrap (r * v))
  else if Ascii.eqb ope "/" then
    if ((v =? 0) || ((r =? LONG_MIN) && (v =? -1)))%bool then abort
    else ret (Z.quot r v)
  else if Ascii.eqb ope "%" then
    if ((v =? 0) || ((r =? LONG_MIN) && (v =? -1)))%bool then abort
    else ret (Z.rem r v)
  else ret r.

(** [s[0]] on a [std::string]; the terminator when the string is empty. *)
Definition first_char (s : string) : ascii :=
  match s with
  | String c _ => c
  | EmptyString => zero
  end.

(** [assert(c)] of [<cassert>], with [NDEBUG] not defined. *)
Definition c_assert (c : bool) : M unit :=
  if c then ret tt else abort.

(** ** [Eval] *)

Section Eval.
(** [Eval::eval] for the recursive calls, and the bound on the loops and
    on the walks along an environment chain. *)
Variable ev : Ast -> loc -> M Value.
Variable fuel : nat.

Fixpoint eval_statements_loop (env : loc) (n : Ast) (rest : list Ast)
  : M Value :=
  match rest with
  | [] => ev n env
  | n' :: rest' => ev n env ;; eval_statements_loop env n' rest'
  end.

Definition eval_statements (ast : Ast) (env : loc) : M Value :=
  if is_token ast then ev ast env
  else
    match nodes ast with
    | [] => ret VUndefined
    | n :: rest => eval_statements_loop env n rest
    end.

Fixpoint eval_while_loop (k : nat) (ast : Ast) (env : loc) : M Value :=
  match k with
  | O => out_of_fuel
  | S k' =>
      n0 <- node_at (nodes ast) 0 ;;
      cond <- ev n0 env ;;
      b <- to_bool cond ;;
      if negb b then ret VUndefined
      else
        n1 <- node_at (nodes ast) 1 ;;
        ev n1 env ;;
        eval_while_loop k' ast env
  end.

Definition eval_while (ast : Ast) (env : loc) : M Value :=
  eval_while_loop fuel ast env.

Fixpoint eval_if_loop (env : loc) (ns : list Ast) : M Value :=
  match ns with
  | [] => ret VUndefined
  | [n] => ev n env
  | c :: t :: rest =>
      cond <- ev c env ;;
      b <- to_bool cond ;;
      if b then ev t env else eval_if_loop env rest
  end.

Definition eval_if (ast : Ast) (env : loc) : M Value :=
  eval_if_loop env (nodes ast).

Fixpoint eval_function_params (ns : list Ast) : M (list Param) :=
  match ns with
  | [] => ret []
  | node :: rest =>
      m <- node_at (nodes node) 0 ;;
      nm <- node_at (nodes node) 1 ;;
      ps <- eval_function_params rest ;;
      ret (mkParam (token nm) (String.eqb (token m) "mut") :: ps)
  end.

Definition eval_function (ast : Ast) (env : loc) : M Value :=
  n0 <- node_at (nodes ast) 0 ;;
  ps <- eval_function_params (nodes n0) ;;
  body <- node_at (nodes ast) 1 ;;
  ret (VFunction (mkFunction ps (UserFn env body))).

(** [f.eval(callEnv)], by cases on the lambda held by [f]. *)
Fixpoint invoke (c : Closure) (callEnv : loc) : M Value :=
  match c with
  | UserFn env body =>
      append_outer fuel callEnv env ;;
      ev body callEnv
  | BoundFn this pf =>
      initialize callEnv "this" this false ;;
      match pf with mkFunction _ c' => invoke c' callEnv end
  | ObjectSize =>
      v <- get fuel callEnv "this" ;;
      o <- to_object v ;;
      deref maps (properties o) (fun props =>
        ret (VLong (Z.of_nat (List.length props))))
  | ArraySize =>
      v <- get fuel callEnv "this" ;;
      a <- to_array v ;;
      deref vecs (values a) (fun vs =>
        ret (VLong (Z.of_nat (List.length vs))))
  | ArrayPush =>
      v <- get fuel callEnv "this" ;;
      arg <- get fuel callEnv "arg" ;;
      a <- to_array v ;;
      push_back (values a) arg ;;
      ret VUndefined
  | Puts =>
      arg <- get fuel callEnv "arg" ;;
      s <- str fuel arg ;;
      print_line s ;;
      ret VUndefined
  | Assert =>
      arg <- get fuel callEnv "arg" ;;
      cond <- to_bool arg ;;
      if negb cond then
        l <- get fuel callEnv "__LINE__" ;;
        line <- to_long l ;;
        c <- get fuel callEnv "__COLUMN__" ;;
        column <- to_long c ;;
        throw (runtime_error
                 ("assert failed at " ++ to_string_long line ++ ":"
                    ++ to_string_long column ++ ".")%string)
      else ret VUndefined
  end.

(** The loop over [iprm] in the [ARGUMENTS] branch of [eval_call]. *)
Fixpoint bind_params (callEnv env : loc) (ps : list Param) (args : list Ast)
  : M unit :=
  match ps with
  | [] => ret tt
  | param :: ps' =>
      match args with
      | [] => abort
      | arg :: args' =>
          v <- ev arg env ;;
          initialize callEnv (name param) v (mut param) ;;
          bind_params callEnv env ps' args'
      end
  end.

Definition eval_arguments (ast : Ast) (env : loc) (v : Value) (n : Ast)
  : M Value :=
  f <- to_function v ;;
  let args := nodes n in
  if (List.length (params f) <=? List.length args)%nat then
    callEnv <- new_environment ;;
    initialize callEnv "self" v false ;;
    bind_params callEnv env (params f) args ;;
    initialize callEnv "__LINE__" (VLong (long_of_size_t (line ast))) false ;;
    initialize callEnv "__COLUMN__" (VLong (long_of_size_t (column ast))) false ;;
    invoke (fn_eval f) callEnv
  else throw (runtime_error "arguments error...").

Definition eval_index (env : loc) (v : Value) (n : Ast) : M Value :=
  arr <- to_array v ;;
  i <- ev n env ;;
  idx <- to_long i ;;
  deref vecs (values arr) (fun vs =>
    if ((0 <=? idx) && (idx <? Z.of_nat (List.length vs)))%bool then
      match nth_error vs (Z.to_nat idx) with
      | Some x => ret x
      | None => abort
      end
    else ret v).

Definition eval_dot (v : Value) (n : Ast) : M Value :=
  prop <- get_property v (token n) ;;
  match prop with
  | VFunction _ =>
      pf <- to_function prop ;;
      ret (VFunction (mkFunction (params pf) (BoundFn v pf)))
  | _ => ret prop
  end.

(** The body of the [for] loop of [eval_call]. *)
Definition eval_suffix (ast : Ast) (env : loc) (v : Value) (n : Ast)
  : M Value :=
  if tag_eqb (original_tag n) ARGUMENTS then eval_arguments ast env v n
  else if tag_eqb (original_tag n) INDEX then eval_index env v n
  else if tag_eqb (original_tag n) DOT then eval_dot v n
  else internal_error.

Fixpoint eval_call_loop (ast : Ast) (env : loc) (v : Value) (ns : list Ast)
  : M Value :=
  match ns with
  | [] => ret v
  | n :: rest =>
      v' <- eval_suffix ast env v n ;;
      eval_call_loop ast env v' rest
  end.

Definition eval_call (ast : Ast) (env : loc) : M Value :=
  n0 <- node_at (nodes ast) 0 ;;
  v <- ev n0 env ;;
  eval_call_loop ast env v (tl (nodes ast)).

Definition eval_block (ast : Ast) (env : loc) : M Value :=
  ret VUndefined.

Fixpoint eval_logical_or_loop (env : loc) (v : Value) (ns : list Ast)
  : M Value :=
  match ns with
  | [] => ret v
  | node :: rest =>
      v' <- ev node env ;;
      b <- to_bool v' ;;
      if b then ret v' else eval_logical_or_loop env v' rest
  end.

Definition eval_logical_or (ast : Ast) (env : loc) : M Value :=
  c_assert (1 <? List.length (nodes ast))%nat ;;
  eval_logical_or_loop env VUndefined (nodes ast).

Fixpoint eval_logical_and_loop (env : loc) (v : Value) (ns : list Ast)
  : M Value :=
  match ns with
  | [] => ret v
  | node :: rest =>
      v' <- ev node env ;;
      b <- to_bool v' ;;
      if negb b then ret v' else eval_logical_and_loop env v' rest
  end.

Definition eval_logical_and (ast : Ast) (env : loc) : M Value :=
  eval_logical_and_loop env VUndefined (nodes ast).

Definition eval_condition (ast : Ast) (env : loc) : M Value :=
  c_assert (List.length (nodes ast) =? 3)%nat ;;
  n0 <- node_at (nodes ast) 0 ;;
  lhs <- ev n0 env ;;
  n1 <- node_at (nodes ast) 1 ;;
  o <- ev n1 env ;;
  ope <- to_string o ;;
  n2 <- node_at (nodes ast) 2 ;;
  rhs <- ev n2 env ;;
  compare_values ope lhs rhs.

Definition eval_unary_plus (ast : Ast) (env : loc) : M Value :=
  c_assert (List.length (nodes ast) =? 2)%nat ;;
  n1 <- node_at (nodes ast) 1 ;;
  ev n1 env.

Definition eval_unary_minus (ast : Ast) (env : loc) : M Value :=
  c_assert (List.length (nodes ast) =? 2)%nat ;;
  n1 <- node_at (nodes ast) 1 ;;
  v <- ev n1 env ;;
  l <- to_long v ;;
  ret (VLong (wrap (l * -1))).

Definition eval_unary_not (ast : Ast) (env : loc) : M Value :=
  c_assert (List.length (nodes ast) =? 2)%nat ;;
  n1 <- node_at (nodes ast) 1 ;;
  v <- ev n1 env ;;
  b <- to_bool v ;;
  ret (VBool (negb b)).

Fixpoint eval_bin_expression_loop (env : loc) (r : Z) (rest : list Ast)
  : M Value :=
  match rest with
  | [] => ret (VLong r)
  | opn :: rest' =>
      match rest' with
      | [] => abort
      | operand :: rest'' =>
          v <- ev operand env ;;
          x <- to_long v ;;
          o <- ev opn env ;;
          ope <- to_string o ;;
          r' <- bin_op (first_char ope) r x ;;
          eval_bin_expression_loop env r' rest''
      end
  end.

Definition eval_bin_expression (ast : Ast) (env : loc) : M Value :=
  n0 <- node_at (nodes ast) 0 ;;
  v <- ev n0 env ;;
  r <- to_long v ;;
  eval_bin_expression_loop env r (tl (nodes ast)).

Definition eval_assignment (ast : Ast) (env : loc) : M Value :=
  n1 <- node_at (nodes ast) 1 ;;
  let var := token n1 in
  n2 <- node_at (nodes ast) 2 ;;
  v <- ev n2 env ;;
  b <- has fuel env var ;;
  (if b then assign fuel env var v
   else
     n0 <- node_at (nodes ast) 0 ;;
     initialize env var v (String.eqb (token n0) "mut")) ;;
  ret v.

Definition eval_identifier (ast : Ast) (env : loc) : M Value :=
  get fuel env (token ast).

(** [obj] is a local of [eval_object]: its property map is filled here
    and enters the store when the object is returned. *)
Fixpoint eval_object_loop (env : loc) (props : smap Value) (ns : list Ast)
  : M (smap Value) :=
  match ns with
  | [] => ret props
  | prop :: rest =>
      n0 <- node_at (nodes prop) 0 ;;
      n1 <- node_at (nodes prop) 1 ;;
      v <- ev n1 env ;;
      eval_object_loop env (map_emplace (token n0) v props) rest
  end.

Definition eval_object (ast : Ast) (env : loc) : M Value :=
  props <- eval_object_loop env [] (nodes ast) ;;
  p <- new_map props ;;
  ret (VObject (mkObject p)).

Fixpoint eval_array_loop (env : loc) (vs : list Value) (ns : list Ast)
  : M (list Value) :=
  match ns with
  | [] => ret vs
  | expr :: rest =>
      v <- ev expr env ;;
      eval_array_loop env (vs ++ [v]) rest
  end.

Definition eval_array (ast : Ast) (env : loc) : M Value :=
  vs <- eval_array_loop env [] (nodes ast) ;;
  p <- new_map [] ;;
  a <- new_vec vs ;;
  ret (VArray (mkArray p a)).

Definition eval_undefined (ast : Ast) (env : loc) : M Value :=
  ret VUndefined.

Definition eval_bool (ast : Ast) (env : loc) : M Value :=
  ret (VBool (String.eqb (token ast) "true")).

Definition eval_number (ast : Ast) (env : loc) : M Value :=
  l <- stol (token ast) ;;
  ret (VLong l).

Fixpoint eval_interpolated_string_loop (env : loc) (s : string)
  (ns : list Ast) : M string :=
  match ns with
  | [] => ret s
  | node :: rest =>
      v <- ev node env ;;
      r <- str fuel v ;;
      eval_interpolated_string_loop env (s ++ r)%string rest
  end.

Definition eval_interpolated_string (ast : Ast) (env : loc) : M Value :=
  s <- eval_interpolated_string_loop env "" (nodes ast) ;;
  ret (VString s).

(** The body of [Eval::eval]: the [switch] on [ast.tag]. *)
Definition eval_body (ast : Ast) (env : loc) : M Value :=
  match tag ast with
  | STATEMENTS => eval_statements ast env
  | WHILE => eval_while ast env
  | IF => eval_if ast env
  | FUNCTION => eval_function ast env
  | CALL => eval_call ast env
  | BLOCK => eval_block ast env
  | ASSIGNMENT => eval_assignment ast env
  | LOGICAL_OR => eval_logical_or ast env
  | LOGICAL_AND => eval_logical_and ast env
  | CONDITION => eval_condition ast env
  | UNARY_PLUS => eval_unary_plus ast env
  | UNARY_MINUS => eval_unary_minus ast env
  | UNARY_NOT => eval_unary_not ast env
  | ADDITIVE | MULTIPLICATIVE => eval_bin_expression ast env
  | IDENTIFIER => eval_identifier ast env
  | OBJECT => eval_object ast env
  | ARRAY => eval_array ast env
  | UNDEFINED => eval_undefined ast env
  | BOOLEAN => eval_bool ast env
  | NUMBER => eval_number ast env
  | INTERPOLATED_STRING => eval_interpolated_string ast env
  | _ =>
      if is_token ast then ret (VString (token ast))
      else throw (logic_error "invalid Ast type")
  end.
End Eval.

Fixpoint eval (fuel : nat) (ast : Ast) (env : loc) : M Value :=
  match fuel with
  | O => out_of_fuel
  | S k => eval_body (eval k) k ast env
  end.

(** ** [run] *)

(** [std::endl] *)
Definition endl : string := String (ascii_of_nat 10) EmptyString.

(** [os << n] for a [size_t] *)
Definition to_string_size_t (n : N) : string :=
  NilZero.string_of_uint (N.to_uint n).

(** The reference parameters [val] and [msg] of [run] as they are when
    it returns, with the [bool] it returns. *)
Record RunResult := mkRunResult {
  run_ok : bool;
  run_val : Value;
  run_msg : string
}.

Section Run.
(** Modelled from the spec: [parser.parse_n] of [peglib.h] with the
    grammar [grammar_], which gives the tree of a text that matches and
    otherwise reports a line, a column and a message to [parser.log]; and
    [peglib::Ast::print], which writes the tree to the standard output. *)
Variable parse_n : string -> Ast + (N * N * string).
Variable print : Ast -> list string.

(** An exception that [run] does not catch leaves it as the [Throw]
    outcome; [expr] is the text of [len] characters. *)
Definition run (fuel : nat) (path : string) (env : loc) (expr : string)
  (val : Value) (msg : string) (print_ast : bool) : M RunResult :=
  fun st =>
    match parse_n expr with
    | inl ast =>
        let st1 :=
          if print_ast then
            mkState (envs st) (maps st) (vecs st) (cout st ++ print ast)
          else st in
        match eval fuel ast env st1 with
        | Ok v st2 => Ok (mkRunResult true v msg) st2
        | Throw (runtime_error what) st2 => Ok (mkRunResult false val what) st2
        | Throw e st2 => Throw e st2
        | Abort => Abort
        | OutOfFuel => OutOfFuel
        end
    | inr (ln, col, err_msg) =>
        Ok (mkRunResult false val
              (path ++ ":" ++ to_string_size_t ln ++ ":"
                 ++ to_string_size_t col ++ ": " ++ err_msg ++ endl)%string)
           st
    end.
End Run.

(** * Vocabulary of the statements *)

(** ** Maps *)

(** Keys in strictly ascending order: the invariant of [std::map]. *)
Definition sorted {T} (m : smap T) : Prop := StronglySorted str_lt (keys m).

(** The map obtained by emplacing the entries of [ins], first to last. *)
Definition emplace_all {T} (ins : list (string * T)) (m : smap T) : smap T :=
  fold_left (fun acc kv => map_emplace (fst kv) (snd kv) acc) ins m.

(** ** Outcomes *)

Definition result_value {A} (r : Result A) : option A :=
  match r with
  | Ok a _ => Some a
  | _ => None
  end.

Definition result_exception {A} (r : Result A) : option Exception :=
  match r with
  | Throw e _ => Some e
  | _ => None
  end.

(** The invariant of the store of property maps. *)
Definition maps_sorted (st : State) : Prop := Forall sorted (maps st).

(** What every computation guarantees of the state it leaves: no
    environment was deallocated, and the property maps are sorted if they
    were. *)
Definition grows (st st' : State) : Prop :=
  (List.length (envs st) <= List.length (envs st'))%nat
  /\ (maps_sorted st -> maps_sorted st').

Definition mono {A} (m : M A) : Prop :=
  forall st,
    match m st with
    | Ok _ st' => grows st st'
    | Throw _ st' => grows st st'
    | Abort => True
    | OutOfFuel => True
    end.

(** ** Comparisons *)

Inductive CondOp := OpEq | OpNe | OpLe | OpLt | OpGe | OpGt.

(** The tokens of [CONDITION_OPERATOR]. *)
Definition op_token (o : CondOp) : string :=
  match o with
  | OpEq => "=="
  | OpNe => "!="
  | OpLe => "<="
  | OpLt => "<"
  | OpGe => ">="
  | OpGt => ">"
  end.

(** The truth of [a o b] given the three-way comparison of [a] and [b]. *)
Definition holds (o : CondOp) (c : comparison) : bool :=
  match o, c with
  | OpEq, Eq => true
  | OpEq, _ => false
  | OpNe, Eq => false
  | OpNe, _ => true
  | OpLe, Gt => false
  | OpLe, _ => true
  | OpLt, Lt => true
  | OpLt, _ => false
  | OpGe, Lt => false
  | OpGe, _ => true
  | OpGt, Gt => true
  | OpGt, _ => false
  end.

Definition is_undefined (v : Value) : bool :=
  match v with VUndefined => true | _ => false end.

(** The operand pairs on which a comparison raises. *)
Definition comparison_raises (lhs rhs : Value) : bool :=
  match lhs with
  | VUndefined => false
  | VBool _ | VLong _ =>
      match rhs with VBool _ | VLong _ => false | _ => true end
  | VString _ =>
      match rhs with VString _ => false | _ => true end
  | VObject _ | VArray _ | VFunction _ => true
  end.

(** The exception it raises there: the operators end in the
    [logic_error] when the left operand is an [Object], an [Array] or a
    [Function]; otherwise the coercion of the right operand fails. *)
Definition comparison_error (lhs : Value) : Exception :=
  match lhs with
  | VObject _ | VArray _ | VFunction _ =>
      logic_error "invalid internal condition."
  | _ => runtime_error "type error."
  end.

(** ** Programs *)

Definition tk (t o : Tag) (l c : N) (s : string) : Ast :=
  mkAst l c t o true s [].

Definition nd (t o : Tag) (l c : N) (ns : list Ast) : Ast :=
  mkAst l c t o false "" ns.

(** The root environment with the built-in functions installed. *)
Definition root : loc := 0%nat.

Definition prelude : State :=
  match (e <- new_environment ;; setup_built_in_functions e) empty_state with
  | Ok _ st => st
  | _ => empty_state
  end.

(** [1; 2], and the same statements as the only child of a [BLOCK] node. *)
Definition statements_1_2 : Ast :=
  nd STATEMENTS STATEMENTS 1 3
    [tk NUMBER EXPRESSION 1 3 "1"; tk NUMBER EXPRESSION 1 6 "2"].

Definition block_1_2 : Ast := nd BLOCK BLOCK 1 1 [statements_1_2].

(** ** The tree the parser delivers *)

(** The rules that [get_parser] excludes from hoisting, the second
    argument of [enable_ast]. *)
Definition kept_rule (t : Tag) : bool :=
  match t with
  | PARAMETERS | ARGUMENTS | OBJECT => true
  | _ => false
  end.

(** Modelled from the spec: the optimisation of the tree in [peglib.h]
    that [enable_ast(true, ...)] switches on.  A rule node with exactly
    one child is replaced by that child, which keeps its own tag,
    position, token and nodes and records the rule in [original_tag];
    the excluded rules, and the nodes with no child or with several,
    stay, with their children optimised. *)
Fixpoint optimize (a : Ast) : Ast :=
  match a with
  | mkAst l c t o tok s ns =>
      match ns with
      | [x] =>
          if kept_rule t then mkAst l c t o tok s [optimize x]
          else
            let x' := optimize x in
            mkAst (line x') (column x') (tag x') t
                  (is_token x') (token x') (nodes x')
      | _ => mkAst l c t o tok s (map optimize ns)
      end
  end.

(** [mentions t a]: some node of the tree [a] has the tag [t]. *)
Fixpoint mentions (t : Tag) (a : Ast) : bool :=
  match a with
  | mkAst _ _ t' _ _ _ ns => tag_eqb t' t || existsb (mentions t) ns
  end.




(** [undefined == 1] *)
Definition undefined_eq_1 : Ast :=
  nd CONDITION PROGRAM 1 1
    [tk UNDEFINED ADDITIVE 1 1 "undefined";
     tk CONDITION_OPERATOR CONDITION_OPERATOR 1 11 "==";
     tk NUMBER ADDITIVE 1 14 "1"].

(** [true == 1] *)
Definition true_eq_1 : Ast :=
  nd CONDITION PROGRAM 1 1
    [tk BOOLEAN ADDITIVE 1 1 "true";
     tk CONDITION_OPERATOR CONDITION_OPERATOR 1 6 "==";
     tk NUMBER ADDITIVE 1 9 "1"].

(** [[10, 20, 30]] *)
Definition array_10_20_30 : Ast :=
  nd ARRAY PRIMARY 1 1
    [tk NUMBER EXPRESSION 1 2 "10"; tk NUMBER EXPRESSION 1 6 "20";
     tk NUMBER EXPRESSION 1 10 "30"].

(** [[10, 20, 30][1]] and [[10, 20, 30][999]] *)
Definition index_1 : Ast :=
  nd CALL PROGRAM 1 1 [array_10_20_30; tk NUMBER INDEX 1 14 "1"].

Definition index_999 : Ast :=
  nd CALL PROGRAM 1 1 [array_10_20_30; tk NUMBER INDEX 1 14 "999"].

(** The state after the array literal [[10, 20, 30]] was evaluated. *)
Definition array_state : State :=
  match eval 2 array_10_20_30 root prelude with
  | Ok _ st => st
  | _ => prelude
  end.

(** ** Bindings *)

(** [innermost st s d e e' sym]: walking the chain from [e], the first
    frame that defines [s] is [e'], [d] frames further out, and it binds
    [s] to [sym]. *)
Inductive innermost (st : State) (s : string)
  : nat -> loc -> loc -> Symbol -> Prop :=
| innermost_here e fr sym :
    nth_error (envs st) e = Some fr ->
    map_find s (dic_ fr) = Some sym ->
    innermost st s 0 e e sym
| innermost_outer d e fr o e' sym :
    nth_error (envs st) e = Some fr ->
    map_find s (dic_ fr) = None ->
    outer fr = Some o ->
    innermost st s d o e' sym ->
    innermost st s (S d) e e' sym.

(** The state in which the binding of [s] in frame [e'] holds [v]. *)
Definition with_binding (st : State) (e' : loc) (s : string) (v : Value)
  (m : bool) : State :=
  match nth_error (envs st) e' with
  | Some fr =>
      mkState
        (list_set (envs st) e'
           (mkEnvironment (outer fr) (map_set s (mkSymbol v m) (dic_ fr))))
        (maps st) (vecs st) (cout st)
  | None => st
  end.

(** [mut x = 1; x = 2; x] and [x = 1; x = 2; x] *)
Definition assignment (l c : N) (m x rhs : string) : Ast :=
  nd ASSIGNMENT EXPRESSION l c
    [tk MUTABLE MUTABLE l c m; tk IDENTIFIER IDENTIFIER l c x;
     tk NUMBER EXPRESSION l c rhs].

Definition mut_x_reassigned : Ast :=
  nd STATEMENTS PROGRAM 1 1
    [assignment 1 1 "mut" "x" "1"; assignment 1 12 "" "x" "2";
     tk IDENTIFIER EXPRESSION 1 19 "x"].

Definition x_reassigned : Ast :=
  nd STATEMENTS PROGRAM 1 1
    [assignment 1 1 "" "x" "1"; assignment 1 8 "" "x" "2";
     tk IDENTIFIER EXPRESSION 1 15 "x"].

(** Two frames, the inner one (at 1) chained to the outer one (at 0),
    which holds a mutable [x] and an immutable [y]. *)
Definition two_frames : State :=
  mkState
    [mkEnvironment None
       [("x", mkSymbol (VLong 1) true); ("y", mkSymbol (VLong 2) false)];
     mkEnvironment (Some 0%nat) []]
    [] [] [].

(** ** Operands evaluated in order *)

(** [operands ev env b st ns st']: the nodes [ns] evaluate one after the
    other, from [st] to [st'], each to a value that [to_bool] takes to [b]. *)
Inductive operands (ev : Ast -> loc -> M Value) (env : loc) (b : bool)
  : State -> list Ast -> State -> Prop :=
| operands_nil st : operands ev env b st [] st
| operands_cons st n v st1 rest st2 :
    ev n env st = Ok v st1 ->
    to_bool v st1 = Ok b st1 ->
    operands ev env b st1 rest st2 ->
    operands ev env b st (n :: rest) st2.

(** [1 / 0], [true || (1 / 0)] and [false && (1 / 0)] *)
Definition one_by_zero (o : Tag) : Ast :=
  nd MULTIPLICATIVE o 1 10
    [tk NUMBER CALL 1 10 "1";
     tk MULTIPLICATIVE_OPERATOR MULTIPLICATIVE_OPERATOR 1 11 "/";
     tk NUMBER CALL 1 12 "0"].

Definition true_or_crash : Ast :=
  nd LOGICAL_OR PROGRAM 1 1
    [tk BOOLEAN LOGICAL_AND 1 1 "true"; one_by_zero LOGICAL_AND].

Definition false_and_crash : Ast :=
  nd LOGICAL_AND PROGRAM 1 1
    [tk BOOLEAN CONDITION 1 1 "false"; one_by_zero CONDITION].

(** [false || true || (1 / 0)] and [true && false && (1 / 0)] *)
Definition false_true_or_crash : Ast :=
  nd LOGICAL_OR PROGRAM 1 1
    [tk BOOLEAN LOGICAL_AND 1 1 "false"; tk BOOLEAN LOGICAL_AND 1 10 "true";
     one_by_zero LOGICAL_AND].

Definition true_false_and_crash : Ast :=
  nd LOGICAL_AND PROGRAM 1 1
    [tk BOOLEAN CONDITION 1 1 "true"; tk BOOLEAN CONDITION 1 9 "false";
     one_by_zero CONDITION].

(** ** Object literals *)

(** [eval_props ev env st ns kvs st']: the property nodes [ns] have their
    expressions evaluated one after the other, from [st] to [st'], and
    [kvs] lists the names with the values obtained, in source order. *)
Inductive eval_props (ev : Ast -> loc -> M Value) (env : loc)
  : State -> list Ast -> list (string * Value) -> State -> Prop :=
| eval_props_nil st : eval_props ev env st [] [] st
| eval_props_cons st prop n0 n1 v st1 rest kvs st2 :
    nth_error (nodes prop) 0 = Some n0 ->
    nth_error (nodes prop) 1 = Some n1 ->
    ev n1 env st = Ok v st1 ->
    eval_props ev env st1 rest kvs st2 ->
    eval_props ev env st (prop :: rest) ((token n0, v) :: kvs) st2.

Definition with_map (st : State) (m : smap Value) : State :=
  mkState (envs st) (maps st ++ [m]) (vecs st) (cout st).

Definition property (l c : N) (nm rhs : string) : Ast :=
  nd OBJECT_PROPERTY OBJECT_PROPERTY l c
    [tk IDENTIFIER IDENTIFIER l c nm; tk NUMBER EXPRESSION l c rhs].

(** [{x: 1, x: 2}] and [{x: 1, x: 2}.x] *)
Definition object_x_x : Ast :=
  nd OBJECT PRIMARY 1 1 [property 1 2 "x" "1"; property 1 8 "x" "2"].

Definition object_x_x_dot_x : Ast :=
  nd CALL PROGRAM 1 1 [object_x_x; tk IDENTIFIER DOT 1 14 "x"].

(** ** Rendering of objects *)

(** One property as [str_object] prints it, given the rendering of its
    value. *)
Definition render_entry (kr : string * string) : string :=
  (dquote ++ fst kr ++ dquote ++ ": " ++ snd kr)%string.

Definition render_object (entries : list (string * string)) : string :=
  ("{" ++ String.concat ", " (map render_entry entries) ++ "}")%string.

Fixpoint prefixed (l : list string) : string :=
  match l with
  | [] => ""
  | e :: rest => (", " ++ e ++ prefixed rest)%string
  end.

(** A state whose only object was filled with [b] first and [a] second. *)
Definition b_then_a : list (string * Value) := [("b", VLong 1); ("a", VLong 2)].

Definition object_state : State :=
  mkState [] [emplace_all b_then_a []] [] [].

(** [puts({b: 1, a: 2})] *)
Definition puts_object : Ast :=
  nd CALL PROGRAM 1 1
    [tk IDENTIFIER PRIMARY 1 1 "puts";
     nd ARGUMENTS ARGUMENTS 1 5
       [nd OBJECT EXPRESSION 1 6 [property 1 7 "b" "1"; property 1 13 "a" "2"]]].

(** ** Calls *)

(** The state in which the arguments of a call of [v] are evaluated: the
    call environment is allocated and binds [self]. *)
Definition call_entry (st : State) (v : Value) : State :=
  mkState (envs st ++ [mkEnvironment None [("self", mkSymbol v false)]])
    (maps st) (vecs st) (cout st).

(** [args_bound ev callEnv env st ps args st']: for each parameter of [ps]
    in turn, the argument at the same position is evaluated in [env] and
    bound in [callEnv] with the parameter's name and flag; the arguments
    left over when [ps] is exhausted are not looked at. *)
Inductive args_bound (ev : Ast -> loc -> M Value) (callEnv env : loc)
  : State -> list Param -> list Ast -> State -> Prop :=
| args_bound_nil st args : args_bound ev callEnv env st [] args st
| args_bound_cons st p ps arg args v st1 st2 st3 :
    ev arg env st = Ok v st1 ->
    initialize callEnv (name p) v (mut p) st1 = Ok tt st2 ->
    args_bound ev callEnv env st2 ps args st3 ->
    args_bound ev callEnv env st (p :: ps) (arg :: args) st3.

(** The value of the prelude binding [assert]. *)
Definition assert_fn : Value :=
  VFunction (mkFunction [mkParam "arg" true] Assert).

Definition assert_message (ast : Ast) : string :=
  ("assert failed at " ++ to_string_long (long_of_size_t (line ast)) ++ ":"
     ++ to_string_long (long_of_size_t (column ast)) ++ ".")%string.

(** [(fn() { 7 })(y)], with [y] nowhere defined *)
Definition fn_7 : Ast :=
  nd FUNCTION PRIMARY 1 2
    [nd PARAMETERS PARAMETERS 1 4 []; tk NUMBER BLOCK 1 9 "7"].

Definition undefined_y : Ast := tk IDENTIFIER EXPRESSION 1 14 "y".

Definition call_with_extra_argument : Ast :=
  nd CALL PROGRAM 1 1 [fn_7; nd ARGUMENTS ARGUMENTS 1 13 [undefined_y]].

(** [(fn(a) { a })()] *)
Definition fn_identity : Ast :=
  nd FUNCTION PRIMARY 1 2
    [nd PARAMETERS PARAMETERS 1 4
       [nd PARAMETER PARAMETER 1 5
          [tk MUTABLE MUTABLE 1 5 ""; tk IDENTIFIER IDENTIFIER 1 5 "a"]];
     tk IDENTIFIER BLOCK 1 10 "a"].

Definition call_with_missing_argument : Ast :=
  nd CALL PROGRAM 1 1 [fn_identity; nd ARGUMENTS ARGUMENTS 1 14 []].

(** [assert(1 == 2)] and [assert(1 == 1)] *)
Definition assert_call (rhs : string) : Ast :=
  nd CALL PROGRAM 1 1
    [tk IDENTIFIER PRIMARY 1 1 "assert";
     nd ARGUMENTS ARGUMENTS 1 7
       [nd CONDITION EXPRESSION 1 8
          [tk NUMBER ADDITIVE 1 8 "1";
           tk CONDITION_OPERATOR CONDITION_OPERATOR 1 10 "==";
           tk NUMBER ADDITIVE 1 13 rhs]]].

(** * Vocabulary of the further properties *)

(** ** Control flow *)

(** [evaluated ev env st ns st']: the nodes [ns] evaluate one after the
    other, from [st] to [st'], each to some value. *)
Inductive evaluated (ev : Ast -> loc -> M Value) (env : loc)
  : State -> list Ast -> State -> Prop :=
| evaluated_nil st : evaluated ev env st [] st
| evaluated_cons st n v st1 rest st2 :
    ev n env st = Ok v st1 ->
    evaluated ev env st1 rest st2 ->
    evaluated ev env st (n :: rest) st2.

(** [branches_skipped ev env st ns st']: [ns] is a sequence of pairs of a
    condition and a block; the conditions evaluate one after the other,
    from [st] to [st'], each to a falsy value. *)
Inductive branches_skipped (ev : Ast -> loc -> M Value) (env : loc)
  : State -> list Ast -> State -> Prop :=
| branches_skipped_nil st : branches_skipped ev env st [] st
| branches_skipped_cons st c t v st1 rest st2 :
    ev c env st = Ok v st1 ->
    to_bool v st1 = Ok false st1 ->
    branches_skipped ev env st1 rest st2 ->
    branches_skipped ev env st (c :: t :: rest) st2.

(** [1; y; 2] with [y] nowhere defined *)
Definition statements_1_y_2 : Ast :=
  nd STATEMENTS PROGRAM 1 1
    [tk NUMBER EXPRESSION 1 1 "1"; tk IDENTIFIER EXPRESSION 1 4 "y";
     tk NUMBER EXPRESSION 1 7 "2"].

(** [while false { y }], the block hoisted into its identifier *)
Definition while_false : Ast :=
  nd WHILE PROGRAM 1 1
    [tk BOOLEAN EXPRESSION 1 7 "false"; tk IDENTIFIER BLOCK 1 15 "y"].

(** [if false { 1 } else if true { 2 } else { y }] *)
Definition if_chain : Ast :=
  nd IF PROGRAM 1 1
    [tk BOOLEAN EXPRESSION 1 4 "false"; tk NUMBER BLOCK 1 12 "1";
     tk BOOLEAN EXPRESSION 1 24 "true"; tk NUMBER BLOCK 1 31 "2";
     tk IDENTIFIER BLOCK 1 42 "y"].

(** ** Environment chains *)

(** [chain_end st d e t]: the chain that starts at [e] ends, [d] frames
    further out, in the frame [t], which has no outer environment. *)
Inductive chain_end (st : State) : nat -> loc -> loc -> Prop :=
| chain_end_here e fr :
    nth_error (envs st) e = Some fr ->
    outer fr = None ->
    chain_end st 0 e e
| chain_end_outer d e fr o t :
    nth_error (envs st) e = Some fr ->
    outer fr = Some o ->
    chain_end st d o t ->
    chain_end st (S d) e t.

(** [on_chain st e x]: the frame [x] is met when walking out from [e]. *)
Inductive on_chain (st : State) : loc -> loc -> Prop :=
| on_chain_here e : on_chain st e e
| on_chain_outer e fr o x :
    nth_error (envs st) e = Some fr ->
    outer fr = Some o ->
    on_chain st o x ->
    on_chain st e x.

(** The state in which the frame [t] has [o] as its outer environment. *)
Definition with_outer (st : State) (t o : loc) : State :=
  match nth_error (envs st) t with
  | Some fr =>
      mkState (list_set (envs st) t (mkEnvironment (Some o) (dic_ fr)))
        (maps st) (vecs st) (cout st)
  | None => st
  end.

(** A global frame (at 0) binding [x] and [y], and a call frame (at 1)
    binding [x], not yet chained to anything. *)
Definition call_and_global : State :=
  mkState
    [mkEnvironment None
       [("x", mkSymbol (VLong 1) true); ("y", mkSymbol (VLong 2) false)];
     mkEnvironment None [("x", mkSymbol (VLong 10) false)]]
    [] [] [].

(** ** Kinds of values *)

(** [Value::Type] *)
Inductive Type_ :=
| Undefined | Bool | Long | String_ | Object | Array | Function.

(** The field [type] of a [Value]. *)
Definition type_of (v : Value) : Type_ :=
  match v with
  | VUndefined => Undefined
  | VBool _ => Bool
  | VLong _ => Long
  | VString _ => String_
  | VObject _ => Object
  | VArray _ => Array
  | VFunction _ => Function
  end.

(** ** Built-in properties *)

Definition size_of_object : Value := VFunction (mkFunction [] ObjectSize).
Definition size_of_array : Value := VFunction (mkFunction [] ArraySize).
Definition push_of_array : Value :=
  VFunction (mkFunction [mkParam "arg" false] ArrayPush).

(** What the [DOT] branch of [eval_call] makes of a property that is a
    function: the same parameters, and [this] bound to the receiver. *)
Definition bound_to (receiver prop : Value) : Value :=
  match prop with
  | VFunction pf => VFunction (mkFunction (params pf) (BoundFn receiver pf))
  | _ => prop
  end.

(** The state after a call of a built-in property with the arguments
    bound in [st]: the call frame also binds the call site and [this]. *)
Definition builtin_call_frame (st : State) (callEnv : loc) (ast : Ast)
  (receiver : Value) : State :=
  with_binding
    (with_binding
       (with_binding st callEnv "__LINE__"
          (VLong (long_of_size_t (line ast))) false)
       callEnv "__COLUMN__" (VLong (long_of_size_t (column ast))) false)
    callEnv "this" receiver false.

(** The state in which the vector [l] has the element [v] appended. *)
Definition with_pushed (st : State) (l : loc) (v : Value) : State :=
  match nth_error (vecs st) l with
  | Some vs =>
      mkState (envs st) (maps st) (list_set (vecs st) l (vs ++ [v])) (cout st)
  | None => st
  end.

(** [[10, 20, 30].push(40)] and [[10, 20, 30].size()], on the array of
    [array_state] *)
Definition dot (nm : string) : Ast := tk IDENTIFIER DOT 1 13 nm.

Definition no_arguments : Ast := nd ARGUMENTS ARGUMENTS 1 18 [].

Definition arguments_40 : Ast :=
  nd ARGUMENTS ARGUMENTS 1 18 [tk NUMBER EXPRESSION 1 19 "40"].

Definition the_array : ArrayValue := mkArray 0%nat 0%nat.

(** ** Numbers *)

(** The number a string of decimal digits denotes after the digits that
    gave [acc]. *)
Fixpoint uint_val (d : Decimal.uint) (acc : Z) : Z :=
  match d with
  | Decimal.Nil => acc
  | Decimal.D0 l => uint_val l (10 * acc + 0)
  | Decimal.D1 l => uint_val l (10 * acc + 1)
  | Decimal.D2 l => uint_val l (10 * acc + 2)
  | Decimal.D3 l => uint_val l (10 * acc + 3)
  | Decimal.D4 l => uint_val l (10 * acc + 4)
  | Decimal.D5 l => uint_val l (10 * acc + 5)
  | Decimal.D6 l => uint_val l (10 * acc + 6)
  | Decimal.D7 l => uint_val l (10 * acc + 7)
  | Decimal.D8 l => uint_val l (10 * acc + 8)
  | Decimal.D9 l => uint_val l (10 * acc + 9)
  end.

Definition in_long (z : Z) : Prop := LONG_MIN <= z <= LONG_MAX.

(** A [NUMBER] token with the given text. *)
Definition number (s : string) : Ast := tk NUMBER NUMBER 1 1 s.

(** ** Aggregates *)

(** [evaluated_to ev env st ns vs st']: the nodes [ns] evaluate one after
    the other, from [st] to [st'], to the values [vs]. *)
Inductive evaluated_to (ev : Ast -> loc -> M Value) (env : loc)
  : State -> list Ast -> list Value -> State -> Prop :=
| evaluated_to_nil st : evaluated_to ev env st [] [] st
| evaluated_to_cons st n v st1 rest vs st2 :
    ev n env st = Ok v st1 ->
    evaluated_to ev env st1 rest vs st2 ->
    evaluated_to ev env st (n :: rest) (v :: vs) st2.

(** [rendered ev fuel env st ns rs st']: the nodes [ns] evaluate one
    after the other, from [st] to [st'], to values that [str] renders as
    [rs]. *)
Inductive rendered (ev : Ast -> loc -> M Value) (fuel : nat) (env : loc)
  : State -> list Ast -> list string -> State -> Prop :=
| rendered_nil st : rendered ev fuel env st [] [] st
| rendered_cons st n v st1 r rest rs st2 :
    ev n env st = Ok v st1 ->
    str fuel v st1 = Ok r st1 ->
    rendered ev fuel env st1 rest rs st2 ->
    rendered ev fuel env st (n :: rest) (r :: rs) st2.

(** The state in which a fresh array holds [vs]. *)
Definition with_array (st : State) (vs : list Value) : State :=
  mkState (envs st) (maps st ++ [[]]) (vecs st ++ [vs]) (cout st).

(** The values [str] renders without looking into the store. *)
Definition is_scalar (v : Value) : bool :=
  match v with
  | VObject _ | VArray _ => false
  | _ => true
  end.

(** ["a{1}b{true}"]: two chunks of text and two expressions *)
Definition interpolated : Ast :=
  nd INTERPOLATED_STRING PRIMARY 1 1
    [tk INTERPOLATED_CONTENT INTERPOLATED_CONTENT 1 2 "a";
     tk NUMBER EXPRESSION 1 4 "1";
     tk INTERPOLATED_CONTENT INTERPOLATED_CONTENT 1 6 "b";
     tk BOOLEAN EXPRESSION 1 8 "true"].

(** A state whose only array holds [1] and the array itself. *)
Definition cyclic_state : State :=
  mkState [] [[]] [[VLong 1; VArray (mkArray 0%nat 0%nat)]] [].

(** ** Operators *)

(** [false || 'abc'] and [-true] *)
Definition false_or_string : Ast :=
  nd LOGICAL_OR PROGRAM 1 1
    [tk BOOLEAN LOGICAL_AND 1 1 "false"; tk STRING LOGICAL_AND 1 10 "abc"].

(** [[5]] as parsed, the [ARRAY] node still in place *)
Definition array_5 : Ast :=
  nd ARRAY ARRAY 1 1 [tk NUMBER EXPRESSION 1 2 "5"].

Definition true_and_string : Ast :=
  nd LOGICAL_AND PROGRAM 1 1
    [tk BOOLEAN CONDITION 1 1 "true"; tk STRING CONDITION 1 9 "abc"].

Definition minus_true : Ast :=
  nd UNARY_MINUS PROGRAM 1 1
    [tk UNARY_MINUS_OPERATOR UNARY_MINUS_OPERATOR 1 1 "-";
     tk BOOLEAN UNARY_NOT 1 2 "true"].

(** ** What evaluation leaves in place *)

Definition prefix_of {A} (l l' : list A) : Prop := exists t, l' = l ++ t.

(** [store_extends st st']: every property map of [st] is in [st'] as it
    was, every vector of [st] is in [st'] with the same elements and
    possibly more after them, and the output of [st] is the beginning of
    the output of [st']. *)
Definition store_extends (st st' : State) : Prop :=
  prefix_of (maps st) (maps st')
  /\ (forall l vs, nth_error (vecs st) l = Some vs ->
        exists vs', nth_error (vecs st') l = Some vs' /\ prefix_of vs vs')
  /\ prefix_of (cout st) (cout st').

Definition kept {A} (m : M A) : Prop :=
  forall st,
    match m st with
    | Ok _ st' => store_extends st st'
    | Throw _ st' => store_extends st st'
    | Abort => True
    | OutOfFuel => True
    end.

(** ** Programs given to [run] *)

(** The state in which [run] evaluates the tree. *)
Definition after_print (print : Ast -> list string) (ast : Ast)
  (print_ast : bool) (st : State) : State :=
  if print_ast then
    mkState (envs st) (maps st) (vecs st) (cout st ++ print ast)
  else st.

(** [{x: 1, x: 2}.y] *)
Definition object_x_x_dot_y : Ast :=
  nd CALL PROGRAM 1 1 [object_x_x; tk IDENTIFIER DOT 1 14 "y"].

(** A parser that knows the text [{x: 1, x: 2}.y] only. *)
Definition parse_one (expr : string) : Ast + (N * N * string) :=
  if String.eqb expr "{x: 1, x: 2}.y" then inl object_x_x_dot_y
  else inr (1%N, 1%N, "syntax error").

(** ** The built-in [puts] *)

(** The value of the prelude binding [puts]. *)
Definition puts_fn : Value :=
  VFunction (mkFunction [mkParam "arg" true] Puts).

(** [puts([10, 20, 30])] *)
Definition puts_array : Ast :=
  nd CALL PROGRAM 1 1
    [tk IDENTIFIER PRIMARY 1 1 "puts";
     nd ARGUMENTS ARGUMENTS 1 5 [array_10_20_30]].

(** * Properties *)

(** ** The order on keys *)

Lemma compare_refl (s : string) : String.compare s s = Eq.
Proof.
  pose proof (String.compare_antisym s s) as H.
  destruct (String.compare s s); simpl in H; congruence.
Qed.

Lemma compare_Lt_iff (a b : string) : String.compare a b = Lt <-> str_lt a b.
Proof.
  unfold str_lt, String.ltb.
  destruct (String.compare a b); split; congruence.
Qed.

Lemma compare_Gt_lt (a b : string) : String.compare a b = Gt -> str_lt b a.
Proof.
  intros H. apply compare_Lt_iff.
  rewrite String.compare_antisym, H. reflexivity.
Qed.

Lemma str_lt_trans (a b c : string) : str_lt a b -> str_lt b c -> str_lt a c.
Proof.
  rewrite <- !compare_Lt_iff.
  change String.compare with String_as_OT.cmp.
  rewrite !String_as_OT.cmp_lt.
  apply String_as_OT.lt_trans.
Qed.

Lemma str_lt_irrefl (a : string) : ~ str_lt a a.
Proof.
  rewrite <- compare_Lt_iff, compare_refl. discriminate.
Qed.

Lemma str_lt_neq (a b : string) : str_lt a b -> a <> b.
Proof.
  intros H ->. exact (str_lt_irrefl _ H).
Qed.

Lemma eqb_compare_Lt (a b : string) : String.compare a b = Lt -> String.eqb a b = false.
Proof.
  intros H. apply String.eqb_neq. intros ->.
  rewrite compare_refl in H. discriminate.
Qed.

Lemma eqb_compare_Gt (a b : string) : String.compare a b = Gt -> String.eqb a b = false.
Proof.
  intros H. apply String.eqb_neq. intros ->.
  rewrite compare_refl in H. discriminate.
Qed.

(** ** Sorted association lists *)

Section SmapFacts.
Context {T : Type}.
Implicit Types (m : smap T) (k : string) (v : T).

Lemma map_find_None m k : map_find k m = None <-> ~ In k (keys m).
Proof.
  induction m as [|[k' v'] m IH]; simpl.
  - tauto.
  - destruct (String.eqb_spec k k') as [->|Hne].
    + split; [discriminate | intros H; exfalso; apply H; now left].
    + rewrite IH. split.
      * intros H [E|I]; [congruence | tauto].
      * intros H I. apply H. now right.
Qed.

Lemma map_find_set_same m k v : map_find k (map_set k v m) = Some v.
Proof.
  induction m as [|[k' v'] m IH]; simpl.
  - now rewrite String.eqb_refl.
  - destruct (String.compare k k') eqn:E; simpl.
    + now rewrite String.eqb_refl.
    + now rewrite String.eqb_refl.
    + now rewrite (eqb_compare_Gt _ _ E).
Qed.

Lemma map_find_set_other m k k' v :
  k' <> k -> map_find k' (map_set k v m) = map_find k' m.
Proof.
  intros Hne. apply String.eqb_neq in Hne.
  induction m as [|[k0 v0] m IH]; simpl.
  - now rewrite Hne.
  - destruct (String.compare k k0) eqn:E; simpl.
    + apply String.compare_eq_iff in E. subst k0. now rewrite Hne.
    + now rewrite Hne.
    + now rewrite IH.
Qed.

Lemma keys_emplace m k v x :
  In x (keys (map_emplace k v m)) <-> x = k \/ In x (keys m).
Proof.
  induction m as [|[k' v'] m IH]; simpl.
  - intuition congruence.
  - destruct (String.compare k k') eqn:E; simpl.
    + apply String.compare_eq_iff in E. subst k'. intuition congruence.
    + intuition congruence.
    + unfold keys in IH. rewrite IH. intuition congruence.
Qed.

Lemma emplace_sorted m k v : sorted m -> sorted (map_emplace k v m).
Proof.
  unfold sorted.
  induction m as [|[k' v'] m IH]; simpl; intros Hs.
  - constructor; constructor.
  - destruct (String.compare k k') eqn:E; simpl.
    + exact Hs.
    + apply compare_Lt_iff in E.
      constructor; [exact Hs|].
      constructor; [exact E|].
      apply StronglySorted_inv in Hs. destruct Hs as [_ Hall].
      eapply Forall_impl; [|exact Hall].
      intros a Ha. eapply str_lt_trans; eassumption.
    + apply compare_Gt_lt in E.
      apply StronglySorted_inv in Hs. destruct Hs as [Hs Hall].
      constructor; [now apply IH|].
      apply Forall_forall. intros x Hx.
      apply (keys_emplace m k v x) in Hx. destruct Hx as [->|Hx]; [exact E|].
      rewrite Forall_forall in Hall. now apply Hall.
Qed.

Lemma map_find_emplace m k v k' :
  sorted m ->
  map_find k' (map_emplace k v m) =
    if String.eqb k' k
    then match map_find k m with Some x => Some x | None => Some v end
    else map_find k' m.
Proof.
  unfold sorted.
  induction m as [|[k0 v0] m IH]; simpl; intros Hs.
  - reflexivity.
  - apply StronglySorted_inv in Hs. destruct Hs as [Hs Hall].
    destruct (String.compare k k0) eqn:E; simpl.
    + apply String.compare_eq_iff in E. subst k0.
      rewrite String.eqb_refl.
      destruct (String.eqb k' k); reflexivity.
    + rewrite (eqb_compare_Lt _ _ E).
      assert (Hnone : map_find k m = None).
      { apply map_find_None. intros Hin.
        rewrite Forall_forall in Hall. specialize (Hall _ Hin).
        apply compare_Lt_iff in E.
        exact (str_lt_irrefl _ (str_lt_trans _ _ _ E Hall)). }
      rewrite Hnone.
      destruct (String.eqb k' k); reflexivity.
    + rewrite (eqb_compare_Gt _ _ E), (IH Hs).
      destruct (String.eqb_spec k' k) as [Heq|Hne].
      * rewrite Heq. now rewrite (eqb_compare_Gt _ _ E).
      * reflexivity.
Qed.

Lemma emplace_all_sorted (ins : list (string * T)) m :
  sorted m -> sorted (emplace_all ins m).
Proof.
  unfold emplace_all.
  revert m. induction ins as [|[k v] ins IH]; simpl; intros m Hs.
  - exact Hs.
  - apply IH. now apply emplace_sorted.
Qed.

Lemma keys_emplace_all (ins : list (string * T)) m x :
  In x (keys (emplace_all ins m)) <-> In x (keys ins) \/ In x (keys m).
Proof.
  unfold emplace_all.
  revert m. induction ins as [|[k v] ins IH]; simpl; intros m.
  - tauto.
  - rewrite IH, keys_emplace. intuition congruence.
Qed.

(** The first entry of [ins] for a key is the one that stays. *)
Lemma map_find_emplace_all (ins : list (string * T)) m k :
  sorted m ->
  map_find k (emplace_all ins m) =
    match map_find k m with Some x => Some x | None => map_find k ins end.
Proof.
  unfold emplace_all.
  revert m. induction ins as [|[k0 v0] ins IH]; simpl; intros m Hs.
  - now destruct (map_find k m).
  - rewrite IH by now apply emplace_sorted.
    rewrite map_find_emplace by exact Hs.
    destruct (String.eqb_spec k k0) as [->|Hne].
    + now destruct (map_find k0 m).
    + reflexivity.
Qed.
End SmapFacts.

Lemma sorted_nil {T} : sorted (@nil (string * T)).
Proof. constructor. Qed.

(** Two strictly ascending lists with the same elements are equal. *)
Lemma sorted_unique (l1 l2 : list string) :
  StronglySorted str_lt l1 -> StronglySorted str_lt l2 ->
  (forall x, In x l1 <-> In x l2) -> l1 = l2.
Proof.
  intros H1. revert l2.
  induction H1 as [|a l1 Hs1 IH Ha]; intros l2 H2 Heq.
  - destruct l2 as [|b l2]; [reflexivity|].
    exfalso. apply (Heq b). now left.
  - destruct H2 as [|b l2 Hs2 Hb].
    + exfalso. apply (Heq a). now left.
    + rewrite Forall_forall in Ha, Hb.
      assert (a = b) as <-.
      { destruct (proj1 (Heq a) (or_introl eq_refl)) as [E|I]; [congruence|].
        destruct (proj2 (Heq b) (or_introl eq_refl)) as [E|I']; [congruence|].
        exfalso. apply (str_lt_irrefl a).
        eapply str_lt_trans; [apply Ha, I' | apply Hb, I]. }
      f_equal. apply IH; [exact Hs2|].
      intros x. split; intros Hx.
      * destruct (proj1 (Heq x) (or_intror Hx)) as [E|I]; [|exact I].
        subst x. exfalso. exact (str_lt_irrefl _ (Ha _ Hx)).
      * destruct (proj2 (Heq x) (or_intror Hx)) as [E|I]; [|exact I].
        subst x. exfalso. exact (str_lt_irrefl _ (Hb _ Hx)).
Qed.

(** ** The monad *)

Lemma bind_ok {A B} (m : M A) (f : A -> M B) st a st' :
  m st = Ok a st' -> bind m f st = f a st'.
Proof. unfold bind. now intros ->. Qed.

Lemma bind_throw {A B} (m : M A) (f : A -> M B) st e st' :
  m st = Throw e st' -> bind m f st = Throw e st'.
Proof. unfold bind. now intros ->. Qed.

Lemma bind_ret {A B} (a : A) (f : A -> M B) st : bind (ret a) f st = f a st.
Proof. reflexivity. Qed.

Lemma length_list_set {A} (l : list A) i a :
  List.length (list_set l i a) = List.length l.
Proof.
  revert i. induction l as [|x l IH]; intros [|i]; simpl; auto.
Qed.

Lemma nth_error_list_set_same {A} (l : list A) i a :
  (i < List.length l)%nat -> nth_error (list_set l i a) i = Some a.
Proof.
  revert i. induction l as [|x l IH]; intros [|i]; simpl; intros H;
    try lia; auto.
  apply IH. lia.
Qed.

Lemma nth_error_list_set_other {A} (l : list A) i j a :
  i <> j -> nth_error (list_set l i a) j = nth_error l j.
Proof.
  revert i j. induction l as [|x l IH]; intros [|i] [|j]; simpl; intros H;
    try congruence; auto.
Qed.

(** ** No computation deallocates an environment *)

Lemma grows_refl st : grows st st.
Proof. unfold grows. split; [lia | auto]. Qed.

Lemma grows_trans st1 st2 st3 : grows st1 st2 -> grows st2 st3 -> grows st1 st3.
Proof. unfold grows. intros [H1 H1'] [H2 H2']. split; [lia | auto]. Qed.

(** The states that differ in the environments only. *)
Lemma grows_envs st es :
  (List.length (envs st) <= List.length es)%nat ->
  grows st (mkState es (maps st) (vecs st) (cout st)).
Proof. intros H. split; [exact H | auto]. Qed.

Create HintDb mono.

Lemma mono_ret {A} (a : A) : mono (ret a).
Proof. intros st. apply grows_refl. Qed.

Lemma mono_throw {A} e : mono (@throw A e).
Proof. intros st. apply grows_refl. Qed.

Lemma mono_abort {A} : mono (@abort A).
Proof. intros st. exact I. Qed.

Lemma mono_out_of_fuel {A} : mono (@out_of_fuel A).
Proof. intros st. exact I. Qed.

Lemma mono_bind {A B} (m : M A) (f : A -> M B) :
  mono m -> (forall a, mono (f a)) -> mono (bind m f).
Proof.
  intros Hm Hf st. unfold bind.
  specialize (Hm st). destruct (m st) as [a st'| | |]; auto.
  specialize (Hf a st'). destruct (f a st'); auto;
    eapply grows_trans; eassumption.
Qed.

Lemma mono_deref {A B} sel l (k : A -> M B) :
  (forall a, mono (k a)) -> mono (deref sel l k).
Proof.
  intros Hk st. unfold deref.
  destruct (nth_error (sel st) l); [apply Hk | exact I].
Qed.

Lemma mono_set_frame e fr : mono (set_frame e fr).
Proof.
  intros st. apply grows_envs. rewrite length_list_set. lia.
Qed.

Lemma mono_new_environment : mono new_environment.
Proof.
  intros st. apply grows_envs. rewrite length_app. lia.
Qed.

Lemma mono_new_map m : sorted m -> mono (new_map m).
Proof.
  intros Hm st. split; simpl; [lia|].
  unfold maps_sorted. simpl. intros H. apply Forall_app. split; [exact H|].
  constructor; [exact Hm | constructor].
Qed.

Lemma mono_new_vec vs : mono (new_vec vs).
Proof. intros st. split; simpl; [lia | auto]. Qed.

Lemma mono_print_line s : mono (print_line s).
Proof. intros st. split; simpl; [lia | auto]. Qed.

Lemma mono_push_back l v : mono (push_back l v).
Proof.
  intros st. unfold push_back, deref.
  destruct (nth_error (vecs st) l); [split; simpl; [lia | auto] | exact I].
Qed.

#[local] Hint Resolve sorted_nil mono_ret mono_throw mono_abort mono_out_of_fuel
  mono_set_frame mono_new_environment mono_new_map mono_new_vec
  mono_print_line mono_push_back : mono.

(** Breaks a computation down along its binds and case distinctions. *)
Ltac mono_step :=
  match goal with
  | |- mono (bind _ _) => apply mono_bind
  | |- mono (deref _ _ _) => apply mono_deref
  | |- mono (match ?x with _ => _ end) => destruct x
  | |- forall _, _ => intro
  | |- mono _ => solve [auto with mono]
  end.

Ltac mono_tac := repeat mono_step.

Lemma mono_to_bool v : mono (to_bool v).
Proof. unfold to_bool, type_error. mono_tac. Qed.

Lemma mono_to_long v : mono (to_long v).
Proof. unfold to_long, type_error. mono_tac. Qed.

Lemma mono_to_string v : mono (to_string v).
Proof. unfold to_string, type_error. mono_tac. Qed.

Lemma mono_to_function v : mono (to_function v).
Proof. unfold to_function, type_error. mono_tac. Qed.

Lemma mono_to_object v : mono (to_object v).
Proof. unfold to_object, type_error. mono_tac. Qed.

Lemma mono_to_array v : mono (to_array v).
Proof. unfold to_array, type_error. mono_tac. Qed.

#[local] Hint Resolve mono_to_bool mono_to_long mono_to_string
  mono_to_function mono_to_object mono_to_array : mono.

Lemma mono_str_object_loop (f : Value -> M string) :
  (forall v, mono (f v)) ->
  forall props first s, mono (str_object_loop f first props s).
Proof.
  intros Hf props. induction props as [|[k v] props IH]; intros first s; simpl.
  - auto with mono.
  - apply mono_bind; [apply Hf | intros r; apply IH].
Qed.

Lemma mono_str_array_loop (f : Value -> M string) :
  (forall v, mono (f v)) ->
  forall vs first s, mono (str_array_loop f first vs s).
Proof.
  intros Hf vs. induction vs as [|v vs IH]; intros first s; simpl.
  - auto with mono.
  - apply mono_bind; [apply Hf | intros r; apply IH].
Qed.

Lemma mono_str fuel v : mono (str fuel v).
Proof.
  revert v. induction fuel as [|k IH]; intros v; simpl.
  - auto with mono.
  - pose proof (mono_str_object_loop (str k) IH) as Ho.
    pose proof (mono_str_array_loop (str k) IH) as Ha.
    unfold str_body, str_object, str_array. mono_tac.
Qed.

Lemma mono_compare_values ope lhs rhs : mono (compare_values ope lhs rhs).
Proof.
  unfold compare_values, value_eq, value_ne, value_le, value_lt, value_ge,
    value_gt, value_eq, internal_error.
  mono_tac.
Qed.

Lemma mono_append_outer fuel e o : mono (append_outer fuel e o).
Proof.
  revert e. induction fuel as [|k IH]; intros e; simpl; mono_tac.
Qed.

Lemma mono_has fuel e s : mono (has fuel e s).
Proof.
  revert e. induction fuel as [|k IH]; intros e; simpl; mono_tac.
Qed.

Lemma mono_get fuel e s : mono (get fuel e s).
Proof.
  revert e. induction fuel as [|k IH]; intros e; simpl; mono_tac.
Qed.

Lemma mono_assign fuel e s v : mono (assign fuel e s v).
Proof.
  revert e. induction fuel as [|k IH]; intros e; simpl.
  - auto with mono.
  - pose proof (mono_has k) as Hh. unfold internal_error. mono_tac.
Qed.

Lemma mono_initialize e s v m : mono (initialize e s v m).
Proof. unfold initialize. mono_tac. Qed.

Lemma mono_get_property v nm : mono (get_property v nm).
Proof.
  unfold get_property, object_get_property, type_error. mono_tac.
Qed.

Lemma mono_stol s : mono (stol s).
Proof. unfold stol. mono_tac. Qed.

Lemma mono_bin_op ope r v : mono (bin_op ope r v).
Proof. unfold bin_op. mono_tac. Qed.

Lemma mono_c_assert c : mono (c_assert c).
Proof. unfold c_assert. mono_tac. Qed.

Lemma mono_node_at l i : mono (node_at l i).
Proof. unfold node_at. mono_tac. Qed.

#[local] Hint Resolve mono_str mono_compare_values mono_append_outer mono_has
  mono_get mono_assign mono_initialize mono_get_property mono_stol
  mono_bin_op mono_c_assert mono_node_at : mono.

Section MonoEval.
Variable ev : Ast -> loc -> M Value.
Hypothesis ev_mono : forall ast env, mono (ev ast env).
Variable fuel : nat.

#[local] Hint Resolve ev_mono : mono.

Lemma mono_eval_statements ast env : mono (eval_statements ev ast env).
Proof.
  unfold eval_statements.
  destruct (is_token ast); [auto with mono|].
  destruct (nodes ast) as [|n rest]; [auto with mono|].
  revert n. induction rest as [|n' rest IH]; intros n; simpl; mono_tac.
Qed.

Lemma mono_eval_while ast env : mono (eval_while ev fuel ast env).
Proof.
  unfold eval_while.
  induction fuel as [|k IH]; simpl; mono_tac.
Qed.

Lemma mono_eval_if ast env : mono (eval_if ev ast env).
Proof.
  unfold eval_if. generalize (nodes ast) as ns.
  fix IH 1. intros [|c [|t rest]]; simpl.
  - auto with mono.
  - auto with mono.
  - apply mono_bind; [auto with mono|]. intros cond.
    apply mono_bind; [auto with mono|]. intros [|]; [auto with mono|].
    apply IH.
Qed.

Lemma mono_eval_function ast env : mono (eval_function ast env).
Proof.
  assert (Hp : forall ns, mono (eval_function_params ns)).
  { induction ns as [|n ns IH]; simpl; mono_tac. }
  unfold eval_function. mono_tac.
Qed.

Lemma mono_invoke c callEnv : mono (invoke ev fuel c callEnv).
Proof.
  revert c.
  fix IH 1. intros [env body|this [ps c']| | | | |]; simpl.
  - mono_tac.
  - apply mono_bind; [auto with mono|]. intros _. apply IH.
  - mono_tac.
  - mono_tac.
  - mono_tac.
  - mono_tac.
  - mono_tac.
Qed.

Lemma mono_bind_params callEnv env ps args :
  mono (bind_params ev callEnv env ps args).
Proof.
  revert args. induction ps as [|p ps IH]; intros args; simpl; mono_tac.
Qed.

#[local] Hint Resolve mono_invoke mono_bind_params : mono.

Lemma mono_eval_suffix ast env v n : mono (eval_suffix ev fuel ast env v n).
Proof.
  unfold eval_suffix, eval_arguments, eval_index, eval_dot, internal_error.
  mono_tac.
Qed.

Lemma mono_eval_call ast env : mono (eval_call ev fuel ast env).
Proof.
  assert (Hl : forall ns v, mono (eval_call_loop ev fuel ast env v ns)).
  { pose proof mono_eval_suffix as Hs.
    induction ns as [|n ns IH]; intros v; simpl; mono_tac. }
  unfold eval_call. mono_tac.
Qed.

Lemma mono_eval_logical_or ast env : mono (eval_logical_or ev ast env).
Proof.
  assert (Hl : forall ns v, mono (eval_logical_or_loop ev env v ns)).
  { induction ns as [|n ns IH]; intros v; simpl; mono_tac. }
  unfold eval_logical_or. mono_tac.
Qed.

Lemma mono_eval_logical_and ast env : mono (eval_logical_and ev ast env).
Proof.
  assert (Hl : forall ns v, mono (eval_logical_and_loop ev env v ns)).
  { induction ns as [|n ns IH]; intros v; simpl; mono_tac. }
  unfold eval_logical_and. mono_tac.
Qed.

Lemma mono_eval_bin_expression ast env : mono (eval_bin_expression ev ast env).
Proof.
  assert (Hl : forall ns r, mono (eval_bin_expression_loop ev env r ns)).
  { fix IH 1. intros [|opn [|operand rest]] r; simpl.
    - auto with mono.
    - auto with mono.
    - repeat (apply mono_bind; [auto with mono|]; intro). apply IH. }
  unfold eval_bin_expression. mono_tac.
Qed.

(** The local map of [eval_object] is sorted when it enters the store. *)
Lemma eval_object_loop_sorted env ns :
  forall props st,
    sorted props ->
    match eval_object_loop ev env props ns st with
    | Ok p st' => sorted p /\ grows st st'
    | Throw _ st' => grows st st'
    | _ => True
    end.
Proof.
  induction ns as [|n ns IH]; intros props st Hs; simpl.
  - split; [exact Hs | apply grows_refl].
  - unfold node_at.
    destruct (nth_error (nodes n) 0) as [n0|]; [|exact I].
    destruct (nth_error (nodes n) 1) as [n1|]; [|exact I].
    rewrite !bind_ret. unfold bind.
    pose proof (ev_mono n1 env st) as Hv.
    destruct (ev n1 env st) as [v st1| | |]; auto.
    specialize (IH (map_emplace (token n0) v props) st1
                  (emplace_sorted _ _ _ Hs)).
    destruct (eval_object_loop ev env (map_emplace (token n0) v props) ns st1)
      as [p st2|e st2| |]; auto.
    + destruct IH as [Hp Hg]. split; [exact Hp|].
      eapply grows_trans; eassumption.
    + eapply grows_trans; eassumption.
Qed.

Lemma mono_eval_object ast env : mono (eval_object ev ast env).
Proof.
  intros st. unfold eval_object, bind.
  pose proof (eval_object_loop_sorted env (nodes ast) [] st sorted_nil) as Hl.
  destruct (eval_object_loop ev env [] (nodes ast) st) as [p st1| | |]; auto.
  destruct Hl as [Hp Hg]. simpl.
  eapply grows_trans; [exact Hg|].
  exact (mono_new_map p Hp st1).
Qed.

Lemma mono_eval_array ast env : mono (eval_array ev ast env).
Proof.
  assert (Hl : forall ns vs, mono (eval_array_loop ev env vs ns)).
  { induction ns as [|n ns IH]; intros vs; simpl; mono_tac. }
  unfold eval_array. mono_tac.
Qed.

Lemma mono_eval_interpolated_string ast env :
  mono (eval_interpolated_string ev fuel ast env).
Proof.
  assert (Hl : forall ns s, mono (eval_interpolated_string_loop ev fuel env s ns)).
  { induction ns as [|n ns IH]; intros s; simpl; mono_tac. }
  unfold eval_interpolated_string. mono_tac.
Qed.

Lemma mono_eval_body ast env : mono (eval_body ev fuel ast env).
Proof.
  pose proof mono_eval_statements. pose proof mono_eval_while.
  pose proof mono_eval_if. pose proof mono_eval_function.
  pose proof mono_eval_call. pose proof mono_eval_logical_or.
  pose proof mono_eval_logical_and. pose proof mono_eval_bin_expression.
  pose proof mono_eval_object. pose proof mono_eval_array.
  pose proof mono_eval_interpolated_string.
  unfold eval_body, eval_block, eval_condition, eval_unary_plus,
    eval_unary_minus, eval_unary_not, eval_assignment, eval_identifier,
    eval_undefined, eval_bool, eval_number.
  mono_tac.
Qed.
End MonoEval.

Lemma mono_eval fuel ast env : mono (eval fuel ast env).
Proof.
  revert ast env. induction fuel as [|k IH]; intros ast env; simpl.
  - apply mono_out_of_fuel.
  - apply mono_eval_body. exact IH.
Qed.

(** ** Blocks *)


(** [eval_block] returns [Value()] whatever the node holds. *)
Lemma eval_block_undefined fuel l c o tok s ns env st :
  eval (S fuel) (mkAst l c BLOCK o tok s ns) env st = Ok VUndefined st.
Proof. reflexivity. Qed.

Lemma bind_ext {A B} (m : M A) (f g : A -> M B) st :
  (forall a st', f a st' = g a st') -> bind m f st = bind m g st.
Proof. intros H. unfold bind. destruct (m st); auto. Qed.

Lemma eval_while_loop_nodes ev k ast ast' env st :
  nodes ast = nodes ast' ->
  eval_while_loop ev k ast env st = eval_while_loop ev k ast' env st.
Proof.
  intros Hn. revert st. induction k as [|k IH]; intros st; [reflexivity|].
  cbn [eval_while_loop]. rewrite Hn.
  repeat (apply bind_ext; intros).
  destruct (negb _); [reflexivity|].
  repeat (apply bind_ext; intros). apply IH.
Qed.

Lemma eval_call_loop_position ev k ast ast' env ns v st :
  line ast = line ast' -> column ast = column ast' ->
  eval_call_loop ev k ast env v ns st = eval_call_loop ev k ast' env v ns st.
Proof.
  intros Hl Hc. revert v st.
  induction ns as [|n ns IH]; intros v st; [reflexivity|].
  cbn [eval_call_loop].
  replace (eval_suffix ev k ast env v n) with (eval_suffix ev k ast' env v n).
  - apply bind_ext. intros. apply IH.
  - unfold eval_suffix, eval_arguments. now rewrite Hl, Hc.
Qed.

(** The evaluator does not read [original_tag] of the node it is given,
    only that of the suffixes of a call. *)
Lemma eval_original_tag fuel l c t o o' tok s ns env st :
  eval fuel (mkAst l c t o tok s ns) env st
  = eval fuel (mkAst l c t o' tok s ns) env st.
Proof.
  induction fuel as [|k IH]; [reflexivity|].
  destruct t; try reflexivity;
    cbn [eval]; unfold eval_body; cbn [tag].
  - unfold eval_statements. cbn [is_token nodes].
    destruct tok; [exact IH | reflexivity].
  - unfold eval_while. now apply eval_while_loop_nodes.
  - unfold eval_call. cbn [nodes].
    repeat (apply bind_ext; intros).
    now apply eval_call_loop_position.
Qed.

(** A rule node with one child is delivered as that child. *)
Lemma eval_hoisted fuel l c t o tok s x env st :
  kept_rule t = false ->
  eval fuel (optimize (mkAst l c t o tok s [x])) env st
  = eval fuel (optimize x) env st.
Proof.
  intros Hk. cbn [optimize]. rewrite Hk.
  destruct (optimize x) as [l' c' t' o' tok' s' ns'].
  apply eval_original_tag.
Qed.

Lemma mentions_original t l c t' o o' tok s ns :
  mentions t (mkAst l c t' o tok s ns) = mentions t (mkAst l c t' o' tok s ns).
Proof. reflexivity. Qed.




(** A block as the parser delivers it is hoisted into its [STATEMENTS]:
    the node keeps the inner tag and is evaluated as statements. *)
Example hoisted_block_evaluates :
  optimize block_1_2 = nd STATEMENTS BLOCK 1 3 (nodes statements_1_2)
  /\ eval 2 (nd STATEMENTS BLOCK 1 3 (nodes statements_1_2)) root prelude
     = Ok (VLong 2) prelude.
Proof. split; vm_compute; reflexivity. Qed.

(** ** Comparisons *)

Lemma string_eqb_compare (a b : string) :
  String.eqb a b = match String.compare a b with Eq => true | _ => false end.
Proof.
  destruct (String.eqb_spec a b) as [->|Hne].
  - now rewrite compare_refl.
  - destruct (String.compare a b) eqn:E; auto.
    apply String.compare_eq_iff in E. contradiction.
Qed.

Lemma holds_long (o : CondOp) (a b : Z) st :
  compare_values (op_token o) (VLong a) (VLong b) st
  = Ok (VBool (holds o (Z.compare a b))) st.
Proof.
  destruct o; cbv [compare_values op_token String.eqb Ascii.eqb Bool.eqb
    value_eq value_ne value_le value_lt value_ge value_gt to_long bind ret holds];
    rewrite ?Z.eqb_compare; unfold Z.leb, Z.ltb, Z.geb, Z.gtb;
    destruct (Z.compare a b); reflexivity.
Qed.

Lemma holds_string (o : CondOp) (a b : string) st :
  compare_values (op_token o) (VString a) (VString b) st
  = Ok (VBool (holds o (String.compare a b))) st.
Proof.
  destruct o; cbv [compare_values op_token String.eqb Ascii.eqb Bool.eqb
    value_eq value_ne value_le value_lt value_ge value_gt to_string bind ret holds];
    fold (String.eqb a b); rewrite ?string_eqb_compare;
    unfold String.leb, String.ltb;
    rewrite ?(String.compare_antisym b a);
    destruct (String.compare a b); reflexivity.
Qed.

Lemma holds_bool (o : CondOp) (a b : bool) st :
  compare_values (op_token o) (VBool a) (VBool b) st
  = Ok (VBool (holds o (Bool.compare a b))) st.
Proof. destruct o, a, b; reflexivity. Qed.

Lemma holds_undefined (o : CondOp) (rhs : Value) st :
  compare_values (op_token o) VUndefined rhs st
  = Ok (VBool match o with
              | OpEq => is_undefined rhs
              | OpNe => negb (is_undefined rhs)
              | _ => false
              end) st.
Proof. destruct o, rhs; reflexivity. Qed.

Lemma holds_bool_long (o : CondOp) (a : bool) (b : Z) st :
  compare_values (op_token o) (VBool a) (VLong b) st
  = Ok (VBool (holds o (Bool.compare a (negb (b =? 0))))) st.
Proof. destruct o, a, (b =? 0) eqn:E; cbv -[Z.eqb]; rewrite E; reflexivity. Qed.

Lemma holds_long_bool (o : CondOp) (a : Z) (b : bool) st :
  compare_values (op_token o) (VLong a) (VBool b) st
  = Ok (VBool (holds o (Z.compare a (Z.b2z b)))) st.
Proof.
  replace (VBool b) with (VBool b) by reflexivity.
  destruct o; cbv [compare_values op_token String.eqb Ascii.eqb Bool.eqb
    value_eq value_ne value_le value_lt value_ge value_gt to_long bind ret holds];
    rewrite ?Z.eqb_compare; unfold Z.leb, Z.ltb, Z.geb, Z.gtb;
    destruct (Z.compare a (Z.b2z b)); reflexivity.
Qed.

Lemma comparison_raises_throws (o : CondOp) lhs rhs st :
  comparison_raises lhs rhs = true ->
  exists e, compare_values (op_token o) lhs rhs st = Throw e st.
Proof.
  destruct lhs, rhs; simpl; intros H; try discriminate;
    destruct o; eexists; reflexivity.
Qed.

Lemma comparison_raises_error (o : CondOp) lhs rhs st :
  comparison_raises lhs rhs = true ->
  compare_values (op_token o) lhs rhs st = Throw (comparison_error lhs) st.
Proof.
  destruct lhs, rhs; simpl; intros H; try discriminate;
    destruct o; reflexivity.
Qed.

Lemma comparison_total (o : CondOp) lhs rhs st :
  comparison_raises lhs rhs = false ->
  exists b, compare_values (op_token o) lhs rhs st = Ok (VBool b) st.
Proof.
  destruct lhs, rhs; simpl; intros H; try discriminate;
    rewrite ?holds_undefined, ?holds_bool, ?holds_long, ?holds_string,
      ?holds_bool_long, ?holds_long_bool; eexists; reflexivity.
Qed.

(** C3 (as amended): a comparison raises exactly on the operand pairs of
    [comparison_raises]: a left operand that is an [Object], [Array] or
    [Function], a [Bool] or [Long] on the left with anything but a [Bool] or
    [Long] on the right, a [String] on the left with anything but a
    [String] on the right.  What it raises there is the [logic_error]
    [invalid internal condition.] in the first case, whatever the right
    operand is, and the [runtime_error] [type error.] in the two others;
    the state is unchanged.  On all other pairs it yields a [Bool]:
    operands of the same scalar kind compare by their natural order,
    [Undefined] on the left is equal to [Undefined] only and makes every
    inequality false whatever the right operand is, and a [Bool] and a
    [Long] are compared after coercing the right operand to the kind of
    the left one. *)
Theorem comparison_semantics (o : CondOp) (st : State) :
  (forall lhs rhs,
      comparison_raises lhs rhs = true <->
      exists e, compare_values (op_token o) lhs rhs st = Throw e st)
  /\ (forall lhs rhs,
      type_of lhs = Object \/ type_of lhs = Array \/ type_of lhs = Function ->
      compare_values (op_token o) lhs rhs st
      = Throw (logic_error "invalid internal condition.") st)
  /\ (forall lhs rhs e st',
      compare_values (op_token o) lhs rhs st = Throw e st' ->
      type_of lhs <> Object -> type_of lhs <> Array ->
      type_of lhs <> Function ->
      e = runtime_error "type error." /\ st' = st)
  /\ (forall lhs rhs,
      comparison_raises lhs rhs = true ->
      compare_values (op_token o) lhs rhs st
      = Throw (comparison_error lhs) st)
  /\ (forall lhs rhs,
      comparison_raises lhs rhs = false <->
      exists b, compare_values (op_token o) lhs rhs st = Ok (VBool b) st)
  /\ (forall a b,
      compare_values (op_token o) (VLong a) (VLong b) st
      = Ok (VBool (holds o (Z.compare a b))) st)
  /\ (forall a b,
      compare_values (op_token o) (VString a) (VString b) st
      = Ok (VBool (holds o (String.compare a b))) st)
  /\ (forall a b,
      compare_values (op_token o) (VBool a) (VBool b) st
      = Ok (VBool (holds o (Bool.compare a b))) st)
  /\ (forall rhs,
      compare_values (op_token o) VUndefined rhs st
      = Ok (VBool match o with
                  | OpEq => is_undefined rhs
                  | OpNe => negb (is_undefined rhs)
                  | _ => false
                  end) st)
  /\ (forall a b,
      compare_values (op_token o) (VBool a) (VLong b) st
      = Ok (VBool (holds o (Bool.compare a (negb (b =? 0))))) st)
  /\ (forall a b,
      compare_values (op_token o) (VLong a) (VBool b) st
      = Ok (VBool (holds o (Z.compare a (Z.b2z b)))) st).
Proof.
  split; [|split; [|split; [|split; [|split]]]].
  - intros lhs rhs. split.
    + apply comparison_raises_throws.
    + intros [e He].
      destruct (comparison_raises lhs rhs) eqn:E; [reflexivity|].
      destruct (comparison_total o lhs rhs st E) as [b Hb]. congruence.
  - intros lhs rhs H.
    assert (Hr : comparison_raises lhs rhs = true).
    { destruct lhs; simpl in H; try reflexivity;
        destruct H as [H | [H | H]]; discriminate. }
    rewrite (comparison_raises_error o lhs rhs st Hr).
    destruct lhs; simpl in H; try reflexivity;
      destruct H as [H | [H | H]]; discriminate.
  - intros lhs rhs e st' He Hobj Harr Hfun.
    destruct (comparison_raises lhs rhs) eqn:E.
    + rewrite (comparison_raises_error o lhs rhs st E) in He.
      injection He as <- <-.
      destruct lhs; simpl in *; try (split; reflexivity); congruence.
    + destruct (comparison_total o lhs rhs st E) as [b Hb]. congruence.
  - intros lhs rhs. apply comparison_raises_error.
  - intros lhs rhs. split.
    + apply comparison_total.
    + intros [b Hb].
      destruct (comparison_raises lhs rhs) eqn:E; [|reflexivity].
      destruct (comparison_raises_throws o lhs rhs st E) as [e He].
      congruence.
  - repeat split; intros;
      auto using holds_long, holds_string, holds_bool, holds_undefined,
        holds_bool_long, holds_long_bool.
Qed.

Lemma comparison_semantics_witness :
  compare_values "<" (VObject (mkObject 0%nat)) (VLong 1) prelude
  = Throw (logic_error "invalid internal condition.") prelude.
Proof.
  exact (proj1 (proj2 (comparison_semantics OpLt prelude))
           (VObject (mkObject 0%nat)) (VLong 1) (or_introl eq_refl)).
Defined.

(** Operands of different kinds that compare without an error. *)
Lemma comparison_of_different_kinds :
  eval 2 undefined_eq_1 root prelude = Ok (VBool false) prelude
  /\ eval 2 true_eq_1 root prelude = Ok (VBool true) prelude.
Proof. split; vm_compute; reflexivity. Qed.

(** [eval_condition] applies [compare_values] to its evaluated operands. *)
Lemma eval_condition_compare ev ast env a o b st lhs st1 ope st2 rhs st3 :
  nodes ast = [a; o; b] ->
  ev a env st = Ok lhs st1 ->
  ev o env st1 = Ok (VString ope) st2 ->
  ev b env st2 = Ok rhs st3 ->
  eval_condition ev ast env st = compare_values ope lhs rhs st3.
Proof.
  intros Hn Ha Ho Hb. unfold eval_condition. rewrite Hn. simpl.
  unfold bind at 1. simpl. unfold bind at 1. simpl.
  rewrite (bind_ok _ _ _ _ _ Ha).
  unfold bind at 1. simpl.
  rewrite (bind_ok _ _ _ _ _ Ho).
  unfold bind at 1. simpl. unfold bind at 1. simpl.
  rewrite (bind_ok _ _ _ _ _ Hb). reflexivity.
Qed.

(** ** Index suffixes *)

(** C5: an index suffix on an array evaluates the index expression and
    takes it through [to_long]; when [0 <= idx < length] the fold goes on
    with the element at [idx], and for every other [idx] it goes on with
    the array itself, and nothing is raised: [[10, 20, 30][999]] is the
    array [[10, 20, 30]]. *)
Theorem index_suffix_on_array ev fuel ast env a n i idx st st' vs :
  original_tag n = INDEX ->
  ev n env st = Ok i st' ->
  to_long i st' = Ok idx st' ->
  nth_error (vecs st') (values a) = Some vs ->
  (0 <= idx < Z.of_nat (List.length vs) ->
   exists x, nth_error vs (Z.to_nat idx) = Some x /\
             eval_suffix ev fuel ast env (VArray a) n st = Ok x st')
  /\ (idx < 0 \/ Z.of_nat (List.length vs) <= idx ->
      eval_suffix ev fuel ast env (VArray a) n st = Ok (VArray a) st')
  /\ eval 3 index_999 root prelude = eval 3 array_10_20_30 root prelude.
Proof.
  intros Htag Hev Hlong Hvs.
  assert (Hstep : eval_suffix ev fuel ast env (VArray a) n st =
    if ((0 <=? idx) && (idx <? Z.of_nat (List.length vs)))%bool then
      match nth_error vs (Z.to_nat idx) with
      | Some x => Ok x st'
      | None => Abort
      end
    else Ok (VArray a) st').
  { unfold eval_suffix. rewrite Htag. simpl.
    unfold eval_index. simpl. rewrite bind_ret.
    rewrite (bind_ok _ _ _ _ _ Hev), (bind_ok _ _ _ _ _ Hlong).
    unfold deref. rewrite Hvs.
    destruct ((0 <=? idx) && (idx <? Z.of_nat (List.length vs)))%bool;
      [destruct (nth_error vs (Z.to_nat idx))|]; reflexivity. }
  rewrite Hstep. split; [|split; [|vm_compute; reflexivity]].
  - intros [Hlo Hhi].
    destruct (nth_error vs (Z.to_nat idx)) as [x|] eqn:E.
    + exists x. split; [reflexivity|].
      apply Z.leb_le in Hlo. apply Z.ltb_lt in Hhi. now rewrite Hlo, Hhi.
    + apply nth_error_None in E. lia.
  - intros Hout.
    assert (((0 <=? idx) && (idx <? Z.of_nat (List.length vs)))%bool = false) as ->.
    { apply andb_false_iff. rewrite Z.leb_gt, Z.ltb_ge. lia. }
    reflexivity.
Qed.

Lemma index_suffix_on_array_witness :
  (999 < 0 \/ Z.of_nat (List.length [VLong 10; VLong 20; VLong 30]) <= 999)
  /\ eval_suffix (eval 1) 1%nat index_999 root (VArray (mkArray 0%nat 0%nat))
       (tk NUMBER INDEX 1 14 "999") array_state
     = Ok (VArray (mkArray 0%nat 0%nat)) array_state.
Proof.
  assert (H : 999 < 0 \/ Z.of_nat (List.length [VLong 10; VLong 20; VLong 30]) <= 999).
  { right. simpl. lia. }
  split; [exact H|].
  apply (proj1 (proj2 (index_suffix_on_array (eval 1) 1%nat index_999 root
                  (mkArray 0%nat 0%nat) (tk NUMBER INDEX 1 14 "999")
                  (VLong 999) 999 array_state array_state
                  [VLong 10; VLong 20; VLong 30]
                  eq_refl eq_refl eq_refl eq_refl)) H).
Defined.

(** [[10, 20, 30][1]] is [20], and [[10, 20, 30][999]] is the array. *)
Example index_programs :
  eval 3 index_1 root prelude = Ok (VLong 20) array_state
  /\ eval 3 index_999 root prelude = Ok (VArray (mkArray 0%nat 0%nat)) array_state
  /\ eval 3 array_10_20_30 root prelude
     = Ok (VArray (mkArray 0%nat 0%nat)) array_state.
Proof. repeat split; vm_compute; reflexivity. Qed.

(** ** Environments *)

Lemma has_pure fuel e s st b st' : has fuel e s st = Ok b st' -> st' = st.
Proof.
  revert e. induction fuel as [|k IH]; intros e; simpl; [discriminate|].
  unfold deref. destruct (nth_error (envs st) e) as [fr|]; [|discriminate].
  destruct (map_find s (dic_ fr)).
  - unfold ret. congruence.
  - destruct (outer fr); [apply IH | unfold ret; congruence].
Qed.

Lemma get_pure fuel e s st v st' : get fuel e s st = Ok v st' -> st' = st.
Proof.
  revert e. induction fuel as [|k IH]; intros e; simpl; [discriminate|].
  unfold deref. destruct (nth_error (envs st) e) as [fr|]; [|discriminate].
  destruct (map_find s (dic_ fr)).
  - unfold ret. congruence.
  - destruct (outer fr); [apply IH | discriminate].
Qed.

(** An [ASSIGNMENT] node whose right-hand side evaluates to [v]. *)
Lemma eval_assignment_steps ev fuel ast env m id rhs st0 v st :
  nodes ast = [m; id; rhs] ->
  ev rhs env st0 = Ok v st ->
  eval_assignment ev fuel ast env st0
  = (b <- has fuel env (token id) ;;
     (if b then assign fuel env (token id) v
      else initialize env (token id) v (String.eqb (token m) "mut")) ;;
     ret v) st.
Proof.
  intros Hn Hv. unfold eval_assignment, node_at. rewrite Hn.
  cbn [nth_error]. rewrite !bind_ret.
  rewrite (bind_ok _ _ _ _ _ Hv). reflexivity.
Qed.

(** C10: when [has] finds the name on the chain, [assign] run on the same
    chain finds it too: it either updates a binding or raises the
    immutable-variable error, and never reaches its final
    [invalid internal condition] branch; so does an [ASSIGNMENT] node
    that takes the assign path. *)
Theorem assign_after_has fuel e s v st st1 :
  has fuel e s st = Ok true st1 ->
  ((exists st', assign fuel e s v st = Ok tt st')
   \/ assign fuel e s v st
      = Throw (runtime_error ("immutable variable '" ++ s ++ "'...")%string) st)
  /\ (forall st', assign fuel e s v st
                  <> Throw (logic_error "invalid internal condition.") st')
  /\ (forall ev ast m id rhs st0,
         nodes ast = [m; id; rhs] ->
         token id = s ->
         ev rhs e st0 = Ok v st ->
         (exists st', eval_assignment ev fuel ast e st0 = Ok v st')
         \/ eval_assignment ev fuel ast e st0
            = Throw (runtime_error ("immutable variable '" ++ s ++ "'...")%string) st).
Proof.
  intros H.
  assert (Hmain : (exists st', assign fuel e s v st = Ok tt st')
    \/ assign fuel e s v st
       = Throw (runtime_error ("immutable variable '" ++ s ++ "'...")%string) st).
  { revert e H. induction fuel as [|k IH]; intros e; simpl; [discriminate|].
    unfold deref. destruct (nth_error (envs st) e) as [fr|]; [|discriminate].
    destruct (map_find s (dic_ fr)) as [sym|].
    - intros _. destruct (smut sym); simpl.
      + left. eexists. reflexivity.
      + right. reflexivity.
    - destruct (outer fr) as [o|]; [|discriminate].
      intros Hh. pose proof (has_pure _ _ _ _ _ _ Hh) as ->.
      rewrite (bind_ok _ _ _ _ _ Hh). now apply IH. }
  split; [exact Hmain|]. split.
  - intros st' Hbad. destruct Hmain as [[st2 Hok]|Hthrow]; congruence.
  - intros ev ast m id rhs st0 Hn Hid Hv.
    rewrite (eval_assignment_steps _ _ _ _ _ _ _ _ _ _ Hn Hv), Hid.
    pose proof (has_pure _ _ _ _ _ _ H) as ->.
    rewrite (bind_ok _ _ _ _ _ H).
    destruct Hmain as [[st2 Hok]|Hthrow].
    + left. exists st2. now rewrite (bind_ok _ _ _ _ _ Hok).
    + right. now rewrite (bind_throw _ _ _ _ _ Hthrow).
Qed.

Lemma assign_after_has_witness :
  has 1 root "assert" prelude = Ok true prelude
  /\ assign 1 root "assert" VUndefined prelude
     = Throw (runtime_error "immutable variable 'assert'...") prelude.
Proof.
  assert (H : has 1 root "assert" prelude = Ok true prelude) by reflexivity.
  split; [exact H|].
  destruct (proj1 (assign_after_has 1 root "assert" VUndefined prelude prelude H))
    as [[st' Hok]|Hthrow].
  - discriminate Hok.
  - exact Hthrow.
Defined.

(** ** Bindings *)

Lemma innermost_frame st s d e e' sym :
  innermost st s d e e' sym ->
  exists fr, nth_error (envs st) e' = Some fr /\ map_find s (dic_ fr) = Some sym.
Proof.
  induction 1 as [e fr sym Hfr Hfind|d e fr o e' sym Hfr Hfind Ho _ IH].
  - exists fr. now split.
  - exact IH.
Qed.

Lemma has_innermost st s d e e' sym fuel :
  innermost st s d e e' sym -> (d < fuel)%nat -> has fuel e s st = Ok true st.
Proof.
  intros H. revert fuel.
  induction H as [e fr sym Hfr Hfind|d e fr o e' sym Hfr Hfind Ho _ IH];
    intros [|k] Hlt; try lia; simpl; unfold deref; rewrite Hfr, Hfind.
  - reflexivity.
  - rewrite Ho. apply IH. lia.
Qed.

Lemma get_innermost st s d e e' sym fuel :
  innermost st s d e e' sym -> (d < fuel)%nat ->
  get fuel e s st = Ok (val sym) st.
Proof.
  intros H. revert fuel.
  induction H as [e fr sym Hfr Hfind|d e fr o e' sym Hfr Hfind Ho _ IH];
    intros [|k] Hlt; try lia; simpl; unfold deref; rewrite Hfr, Hfind.
  - reflexivity.
  - rewrite Ho. apply IH. lia.
Qed.

Lemma assign_immutable st s d e e' sym v fuel :
  innermost st s d e e' sym -> smut sym = false -> (d < fuel)%nat ->
  assign fuel e s v st
  = Throw (runtime_error ("immutable variable '" ++ s ++ "'...")%string) st.
Proof.
  intros H Hmut. revert fuel.
  induction H as [e fr sym Hfr Hfind|d e fr o e' sym Hfr Hfind Ho Hin IH];
    intros [|k] Hlt; try lia; simpl; unfold deref; rewrite Hfr, Hfind.
  - now rewrite Hmut.
  - rewrite Ho.
    rewrite (bind_ok _ _ _ _ _ (has_innermost _ _ _ _ _ _ k Hin ltac:(lia))).
    apply IH; [exact Hmut | lia].
Qed.

Lemma assign_mutable st s d e e' sym v fuel :
  innermost st s d e e' sym -> smut sym = true -> (d < fuel)%nat ->
  assign fuel e s v st = Ok tt (with_binding st e' s v true).
Proof.
  intros H Hmut. revert fuel.
  induction H as [e fr sym Hfr Hfind|d e fr o e' sym Hfr Hfind Ho Hin IH];
    intros [|k] Hlt; try lia; simpl; unfold deref; rewrite Hfr, Hfind.
  - rewrite Hmut. simpl. unfold with_binding, set_frame. now rewrite Hfr.
  - rewrite Ho.
    rewrite (bind_ok _ _ _ _ _ (has_innermost _ _ _ _ _ _ k Hin ltac:(lia))).
    apply IH; [exact Hmut | lia].
Qed.

Lemma innermost_with_binding st s d e e' sym v m :
  innermost st s d e e' sym ->
  innermost (with_binding st e' s v m) s d e e' (mkSymbol v m).
Proof.
  intros H.
  destruct (innermost_frame _ _ _ _ _ _ H) as [fr' [Hfr' Hfind']].
  assert (Hlen : (e' < List.length (envs st))%nat).
  { apply nth_error_Some. congruence. }
  induction H as [e fr sym Hfr Hfind|d e fr o e' sym Hfr Hfind Ho Hin IH].
  - econstructor.
    + unfold with_binding. rewrite Hfr. simpl.
      now apply nth_error_list_set_same.
    + simpl. apply map_find_set_same.
  - assert (Hne : e' <> e) by (intros ->; congruence).
    econstructor.
    + unfold with_binding. rewrite Hfr'. simpl.
      rewrite nth_error_list_set_other by exact Hne. exact Hfr.
    + exact Hfind.
    + exact Ho.
    + now apply IH.
Qed.

Lemma with_binding_other_frames st e' s v m e :
  e <> e' -> nth_error (envs (with_binding st e' s v m)) e = nth_error (envs st) e.
Proof.
  intros Hne. unfold with_binding.
  destruct (nth_error (envs st) e') as [fr|]; [|reflexivity].
  simpl. apply nth_error_list_set_other. congruence.
Qed.

(** C6: let the innermost binding of [s] seen from [e] be [sym], held by
    frame [e'].  A lookup from [e] returns the value of [sym].  When [sym]
    is immutable, an assignment from [e] raises the immutable-variable
    error and leaves the state, and so the binding, as it was.  When [sym]
    is mutable, the assignment stores the value in the binding of frame
    [e'], an outer frame when [d > 0], leaves all other frames as they
    were, and a lookup from [e] then returns the assigned value.  An
    [ASSIGNMENT] node evaluated in [e] behaves in the same way. *)
Theorem binding_discipline st s d e e' sym v fuel :
  innermost st s d e e' sym ->
  (d < fuel)%nat ->
  let st' := with_binding st e' s v true in
  let immutable :=
    runtime_error ("immutable variable '" ++ s ++ "'...")%string in
  get fuel e s st = Ok (val sym) st
  /\ (smut sym = false ->
      assign fuel e s v st = Throw immutable st
      /\ get fuel e s st = Ok (val sym) st)
  /\ (smut sym = true ->
      assign fuel e s v st = Ok tt st'
      /\ innermost st' s d e e' (mkSymbol v true)
      /\ get fuel e s st' = Ok v st'
      /\ forall e0, e0 <> e' -> nth_error (envs st') e0 = nth_error (envs st) e0)
  /\ (forall ev ast m id rhs st0,
         nodes ast = [m; id; rhs] ->
         token id = s ->
         ev rhs e st0 = Ok v st ->
         eval_assignment ev fuel ast e st0
         = if smut sym then Ok v st' else Throw immutable st).
Proof.
  intros H Hlt st' immutable.
  pose proof (get_innermost _ _ _ _ _ _ _ H Hlt) as Hget.
  split; [exact Hget|]. split; [|split].
  - intros Hmut. split; [|exact Hget].
    exact (assign_immutable _ _ _ _ _ _ v _ H Hmut Hlt).
  - intros Hmut. split; [|split; [|split]].
    + exact (assign_mutable _ _ _ _ _ _ v _ H Hmut Hlt).
    + exact (innermost_with_binding _ _ _ _ _ _ v true H).
    + exact (get_innermost st' s d e e' (mkSymbol v true) fuel
               (innermost_with_binding _ _ _ _ _ _ v true H) Hlt).
    + intros e0 Hne. now apply with_binding_other_frames.
  - intros ev ast m id rhs st0 Hn Hid Hv.
    rewrite (eval_assignment_steps _ _ _ _ _ _ _ _ _ _ Hn Hv), Hid.
    rewrite (bind_ok _ _ _ _ _ (has_innermost _ _ _ _ _ _ fuel H Hlt)).
    destruct (smut sym) eqn:Hmut.
    + now rewrite (bind_ok _ _ _ _ _ (assign_mutable _ _ _ _ _ _ v _ H Hmut Hlt)).
    + now rewrite (bind_throw _ _ _ _ _ (assign_immutable _ _ _ _ _ _ v _ H Hmut Hlt)).
Qed.

Lemma two_frames_x : innermost two_frames "x" 1 1%nat 0%nat (mkSymbol (VLong 1) true).
Proof.
  eapply innermost_outer; [reflexivity | reflexivity | reflexivity |].
  eapply innermost_here; reflexivity.
Defined.

Lemma two_frames_y : innermost two_frames "y" 1 1%nat 0%nat (mkSymbol (VLong 2) false).
Proof.
  eapply innermost_outer; [reflexivity | reflexivity | reflexivity |].
  eapply innermost_here; reflexivity.
Defined.

Lemma binding_discipline_witness :
  (1 < 2)%nat
  /\ get 2 1%nat "x" two_frames = Ok (VLong 1) two_frames
  /\ assign 2 1%nat "x" (VLong 5) two_frames
     = Ok tt (with_binding two_frames 0%nat "x" (VLong 5) true)
  /\ get 2 1%nat "x" (with_binding two_frames 0%nat "x" (VLong 5) true)
     = Ok (VLong 5) (with_binding two_frames 0%nat "x" (VLong 5) true)
  /\ assign 2 1%nat "y" (VLong 5) two_frames
     = Throw (runtime_error "immutable variable 'y'...") two_frames.
Proof.
  assert (Hlt : (1 < 2)%nat) by lia.
  pose proof (binding_discipline two_frames "x" 1 1%nat 0%nat
                (mkSymbol (VLong 1) true) (VLong 5) 2 two_frames_x Hlt)
    as [Hget [_ [Hmut _]]].
  destruct (Hmut eq_refl) as [Hassign [_ [Hget' _]]].
  pose proof (binding_discipline two_frames "y" 1 1%nat 0%nat
                (mkSymbol (VLong 2) false) (VLong 5) 2 two_frames_y Hlt)
    as [_ [Himm _]].
  destruct (Himm eq_refl) as [Hthrow _].
  exact (conj Hlt (conj Hget (conj Hassign (conj Hget' Hthrow)))).
Defined.

(** [mut x = 1; x = 2; x] is [2]; [x = 1; x = 2; x] fails at the second
    assignment and [x] is still [1]. *)
Example reassignment_programs :
  result_value (eval 3 mut_x_reassigned root prelude) = Some (VLong 2)
  /\ (exists st,
        eval 3 x_reassigned root prelude
        = Throw (runtime_error "immutable variable 'x'...") st
        /\ get 1 root "x" st = Ok (VLong 1) st).
Proof.
  split; [vm_compute; reflexivity|].
  eexists. split; vm_compute; reflexivity.
Qed.

(** ** Short-circuit operators *)

Lemma to_bool_pure v st b st' : to_bool v st = Ok b st' -> st' = st.
Proof. destruct v; simpl; unfold ret, type_error, throw; congruence. Qed.

Lemma to_bool_any_state v st b st' :
  to_bool v st = Ok b st -> to_bool v st' = Ok b st'.
Proof. destruct v; simpl; unfold ret, type_error, throw; congruence. Qed.

Lemma logical_or_loop_stops ev env pre x post v0 st st1 v st2 b :
  operands ev env false st pre st1 ->
  ev x env st1 = Ok v st2 ->
  to_bool v st2 = Ok b st2 ->
  b = true \/ post = [] ->
  eval_logical_or_loop ev env v0 (pre ++ x :: post) st = Ok v st2.
Proof.
  intros Hpre Hx Hb Hstop. revert v0.
  induction Hpre as [st|st n w st1 rest st1' Hn Hw _ IH]; intros v0; simpl.
  - rewrite (bind_ok _ _ _ _ _ Hx), (bind_ok _ _ _ _ _ Hb).
    destruct b; [reflexivity|].
    destruct Hstop as [Hstop | Hstop]; [discriminate | now rewrite Hstop].
  - rewrite (bind_ok _ _ _ _ _ Hn), (bind_ok _ _ _ _ _ Hw).
    now apply IH.
Qed.

Lemma logical_and_loop_stops ev env pre x post v0 st st1 v st2 b :
  operands ev env true st pre st1 ->
  ev x env st1 = Ok v st2 ->
  to_bool v st2 = Ok b st2 ->
  b = false \/ post = [] ->
  eval_logical_and_loop ev env v0 (pre ++ x :: post) st = Ok v st2.
Proof.
  intros Hpre Hx Hb Hstop. revert v0.
  induction Hpre as [st|st n w st1 rest st1' Hn Hw _ IH]; intros v0; simpl.
  - rewrite (bind_ok _ _ _ _ _ Hx), (bind_ok _ _ _ _ _ Hb).
    destruct b; [|reflexivity].
    destruct Hstop as [Hstop | Hstop]; [discriminate | now rewrite Hstop].
  - rewrite (bind_ok _ _ _ _ _ Hn), (bind_ok _ _ _ _ _ Hw).
    now apply IH.
Qed.

Lemma to_bool_type_error v st :
  type_of v <> Bool -> type_of v <> Long ->
  to_bool v st = Throw (runtime_error "type error.") st.
Proof. destruct v; simpl; intros H1 H2; try reflexivity; congruence. Qed.

Lemma logical_or_loop_throws ev env pre x post v0 st st1 v st2 e :
  operands ev env false st pre st1 ->
  ev x env st1 = Ok v st2 ->
  to_bool v st2 = Throw e st2 ->
  eval_logical_or_loop ev env v0 (pre ++ x :: post) st = Throw e st2.
Proof.
  intros Hpre Hx Hb. revert v0.
  induction Hpre as [st|st n w st1 rest st1' Hn Hw _ IH]; intros v0; simpl.
  - now rewrite (bind_ok _ _ _ _ _ Hx), (bind_throw _ _ _ _ _ Hb).
  - rewrite (bind_ok _ _ _ _ _ Hn), (bind_ok _ _ _ _ _ Hw). now apply IH.
Qed.

Lemma logical_and_loop_throws ev env pre x post v0 st st1 v st2 e :
  operands ev env true st pre st1 ->
  ev x env st1 = Ok v st2 ->
  to_bool v st2 = Throw e st2 ->
  eval_logical_and_loop ev env v0 (pre ++ x :: post) st = Throw e st2.
Proof.
  intros Hpre Hx Hb. revert v0.
  induction Hpre as [st|st n w st1 rest st1' Hn Hw _ IH]; intros v0; simpl.
  - now rewrite (bind_ok _ _ _ _ _ Hx), (bind_throw _ _ _ _ _ Hb).
  - rewrite (bind_ok _ _ _ _ _ Hn), (bind_ok _ _ _ _ _ Hw). now apply IH.
Qed.

(** C7 (as amended): let the operands before [x] have evaluated, left to
    right, to values that are all falsy (for [||]) or all truthy (for
    [&&]), and let [x] evaluate to [v]; [to_bool] is applied to [v] as to
    every operand that is evaluated.  When it makes [v] truthy (for [||])
    or falsy (for [&&]), or when [x] is the last operand and [to_bool]
    returns, the result is [v] in the state reached after [x]: whatever
    the operands [post] after [x] are, they are not evaluated;
    [true || (1 / 0)] and [false && (1 / 0)] do not raise.  When [v] is
    neither a [Bool] nor a [Long], the node raises [type error.] in that
    state, also when [x] is the last operand.  ([eval_logical_or] starts
    with the assertion that there is more than one operand.) *)
Theorem logical_short_circuit ev fuel ast env pre x post st st1 v st2 :
  nodes ast = pre ++ x :: post ->
  ev x env st1 = Ok v st2 ->
  (tag ast = LOGICAL_OR ->
   (1 < List.length (nodes ast))%nat ->
   operands ev env false st pre st1 ->
   (forall b, to_bool v st2 = Ok b st2 ->
              b = true \/ post = [] ->
              eval_body ev fuel ast env st = Ok v st2)
   /\ (type_of v <> Bool -> type_of v <> Long ->
       eval_body ev fuel ast env st
       = Throw (runtime_error "type error.") st2))
  /\ (tag ast = LOGICAL_AND ->
      operands ev env true st pre st1 ->
      (forall b, to_bool v st2 = Ok b st2 ->
                 b = false \/ post = [] ->
                 eval_body ev fuel ast env st = Ok v st2)
      /\ (type_of v <> Bool -> type_of v <> Long ->
          eval_body ev fuel ast env st
          = Throw (runtime_error "type error.") st2))
  /\ eval 3 true_or_crash root prelude = Ok (VBool true) prelude
  /\ eval 3 false_and_crash root prelude = Ok (VBool false) prelude.
Proof.
  intros Hn Hx.
  split; [intros Htag Hlen Hpre | split; [intros Htag Hpre|]];
    [| | split; vm_compute; reflexivity].
  - apply Nat.ltb_lt in Hlen.
    split; [intros b Hb Hstop | intros H1 H2];
      unfold eval_body; rewrite Htag; unfold eval_logical_or;
      rewrite Hlen; simpl; rewrite bind_ret, Hn.
    + eapply logical_or_loop_stops; eassumption.
    + eapply logical_or_loop_throws; try eassumption.
      now apply to_bool_type_error.
  - split; [intros b Hb Hstop | intros H1 H2];
      unfold eval_body; rewrite Htag; unfold eval_logical_and; rewrite Hn.
    + eapply logical_and_loop_stops; eassumption.
    + eapply logical_and_loop_throws; try eassumption.
      now apply to_bool_type_error.
Qed.

Lemma logical_short_circuit_witness :
  eval 2 false_true_or_crash root prelude = Ok (VBool true) prelude
  /\ eval 2 true_false_and_crash root prelude = Ok (VBool false) prelude.
Proof.
  split.
  - apply (proj1 (proj1 (logical_short_circuit (eval 1) 1%nat
                    false_true_or_crash root
                    [tk BOOLEAN LOGICAL_AND 1 1 "false"]
                    (tk BOOLEAN LOGICAL_AND 1 10 "true")
                    [one_by_zero LOGICAL_AND] prelude prelude (VBool true)
                    prelude eq_refl eq_refl)
                  eq_refl
                  ltac:(simpl; lia)
                  (operands_cons (eval 1) root false prelude
                     (tk BOOLEAN LOGICAL_AND 1 1 "false") (VBool false)
                     prelude [] prelude eq_refl eq_refl
                     (operands_nil (eval 1) root false prelude)))
             true eq_refl (or_introl eq_refl)).
  - apply (proj1 (proj1 (proj2 (logical_short_circuit (eval 1) 1%nat
                    true_false_and_crash root
                    [tk BOOLEAN CONDITION 1 1 "true"]
                    (tk BOOLEAN CONDITION 1 9 "false")
                    [one_by_zero CONDITION] prelude prelude (VBool false)
                    prelude eq_refl eq_refl))
                  eq_refl
                  (operands_cons (eval 1) root true prelude
                     (tk BOOLEAN CONDITION 1 1 "true") (VBool true)
                     prelude [] prelude eq_refl eq_refl
                     (operands_nil (eval 1) root true prelude)))
             false eq_refl (or_introl eq_refl)).
Defined.

(** Where the claim has the last operand returned, the code raises: the
    last operand of [false || 'abc'] and of [true && 'abc'] evaluates to
    the [String] [abc] and the node raises [type error.]. *)
Lemma logical_last_operand_raises :
  eval 1 (tk STRING LOGICAL_AND 1 10 "abc") root prelude
  = Ok (VString "abc") prelude
  /\ eval 2 false_or_string root prelude
     = Throw (runtime_error "type error.") prelude
  /\ eval 2 true_and_string root prelude
     = Throw (runtime_error "type error.") prelude.
Proof. split; [|split]; vm_compute; reflexivity. Qed.

(** [true || (1 / 0)] and [false && (1 / 0)] do not raise. *)
Example short_circuit_programs :
  eval 3 true_or_crash root prelude = Ok (VBool true) prelude
  /\ eval 3 false_and_crash root prelude = Ok (VBool false) prelude.
Proof. split; vm_compute; reflexivity. Qed.

(** The operand that is skipped would not evaluate to a value. *)
Example skipped_operand_aborts :
  eval 2 (one_by_zero LOGICAL_AND) root prelude = Abort.
Proof. vm_compute. reflexivity. Qed.

(** ** Object literals *)

Lemma eval_object_loop_props ev env st ns kvs st' :
  eval_props ev env st ns kvs st' ->
  forall props,
    eval_object_loop ev env props ns st = Ok (emplace_all kvs props) st'.
Proof.
  induction 1 as [st|st prop n0 n1 v st1 rest kvs st2 H0 H1 Hv _ IH];
    intros props; simpl.
  - reflexivity.
  - unfold node_at. rewrite H0, H1. rewrite !bind_ret.
    rewrite (bind_ok _ _ _ _ _ Hv). apply IH.
Qed.

(** C2 (as amended): the property expressions of an [OBJECT] literal are
    evaluated in source order and the values are emplaced, in that order,
    into the property map of a fresh object; the map is sorted by name and
    a name that appears more than once keeps the value of its first
    occurrence; reading [x] from [{x: 1, x: 2}] yields [Long(1)]. *)
Theorem object_literal_first_wins ev fuel ast env st kvs st' :
  tag ast = OBJECT ->
  eval_props ev env st (nodes ast) kvs st' ->
  let props := emplace_all kvs [] in
  let o := mkObject (List.length (maps st')) in
  eval_body ev fuel ast env st = Ok (VObject o) (with_map st' props)
  /\ nth_error (maps st') (properties o) = None
  /\ nth_error (maps (with_map st' props)) (properties o) = Some props
  /\ sorted props
  /\ (forall nm, map_find nm props = map_find nm kvs)
  /\ (forall nm v,
         map_find nm kvs = Some v ->
         get_property (VObject o) nm (with_map st' props)
         = Ok v (with_map st' props))
  /\ result_value (eval 3 object_x_x_dot_x root prelude) = Some (VLong 1).
Proof.
  intros Htag Hprops props o.
  assert (Hfind : forall nm, map_find nm props = map_find nm kvs).
  { intros nm. unfold props.
    now rewrite (map_find_emplace_all kvs [] nm sorted_nil). }
  assert (Hat : nth_error (maps (with_map st' props)) (properties o) = Some props).
  { simpl. rewrite nth_error_app2 by lia. now rewrite Nat.sub_diag. }
  split; [|split; [|split; [|split; [|split; [|split]]]]];
    [| | | | | |vm_compute; reflexivity].
  - unfold eval_body. rewrite Htag. unfold eval_object.
    rewrite (bind_ok _ _ _ _ _ (eval_object_loop_props _ _ _ _ _ _ Hprops [])).
    reflexivity.
  - apply nth_error_None. simpl. lia.
  - exact Hat.
  - apply emplace_all_sorted, sorted_nil.
  - exact Hfind.
  - intros nm v Hv. unfold get_property. simpl. rewrite bind_ret.
    unfold object_get_property, deref. rewrite Hat, Hfind, Hv. reflexivity.
Qed.

Lemma object_x_x_props :
  eval_props (eval 1) root prelude (nodes object_x_x)
    [("x", VLong 1); ("x", VLong 2)] prelude.
Proof.
  eapply eval_props_cons with (n0 := tk IDENTIFIER IDENTIFIER 1 2 "x");
    [reflexivity | reflexivity | reflexivity |].
  eapply eval_props_cons with (n0 := tk IDENTIFIER IDENTIFIER 1 8 "x");
    [reflexivity | reflexivity | reflexivity |].
  apply eval_props_nil.
Defined.

Lemma object_literal_first_wins_witness :
  eval 2 object_x_x root prelude
  = Ok (VObject (mkObject 0%nat)) (with_map prelude [("x", VLong 1)])
  /\ get_property (VObject (mkObject 0%nat)) "x" (with_map prelude [("x", VLong 1)])
     = Ok (VLong 1) (with_map prelude [("x", VLong 1)]).
Proof.
  pose proof (object_literal_first_wins (eval 1) 1%nat object_x_x root prelude
                [("x", VLong 1); ("x", VLong 2)] prelude eq_refl
                object_x_x_props) as [Heval [_ [_ [_ [_ [Hget _]]]]]].
  split.
  - exact Heval.
  - exact (Hget "x" (VLong 1) eq_refl).
Defined.

(** The later duplicate does not overwrite the earlier one. *)
Lemma object_duplicate_keeps_first :
  result_value (eval 3 object_x_x_dot_x root prelude) = Some (VLong 1)
  /\ result_value (eval 3 object_x_x_dot_x root prelude) <> Some (VLong 2).
Proof.
  assert (H : result_value (eval 3 object_x_x_dot_x root prelude) = Some (VLong 1))
    by (vm_compute; reflexivity).
  split; [exact H|]. rewrite H. discriminate.
Qed.

(** ** Rendering of objects *)

Lemma string_app_assoc (a b c : string) :
  ((a ++ b) ++ c = a ++ (b ++ c))%string.
Proof. induction a as [|x a IH]; simpl; [reflexivity | now rewrite IH]. Qed.

Lemma string_app_nil_r (a : string) : (a ++ "")%string = a.
Proof. induction a as [|x a IH]; simpl; [reflexivity | now rewrite IH]. Qed.

Lemma concat_prefixed (e : string) (rest : list string) :
  String.concat ", " (e :: rest) = (e ++ prefixed rest)%string.
Proof.
  revert e. induction rest as [|e' rest IH]; intros e.
  - simpl. now rewrite string_app_nil_r.
  - change (String.concat ", " (e :: e' :: rest))
      with (e ++ ", " ++ String.concat ", " (e' :: rest))%string.
    now rewrite IH.
Qed.

Lemma entry_append (s k r : string) :
  (((s ++ (dquote ++ k ++ dquote)) ++ ": ") ++ r)%string
  = (s ++ render_entry (k, r))%string.
Proof.
  unfold render_entry. cbn [fst snd]. now rewrite !string_app_assoc.
Qed.

Lemma str_object_loop_rest f st props rs :
  Forall2 (fun kv r => f (snd kv) st = Ok r st) props rs ->
  forall s,
    str_object_loop f false props s st
    = Ok (s ++ prefixed (map render_entry (combine (keys props) rs)))%string st.
Proof.
  induction 1 as [|[k v] r props rs Hr _ IH]; intros s.
  - cbn [str_object_loop keys map combine prefixed].
    now rewrite string_app_nil_r.
  - cbn [str_object_loop snd] in *.
    rewrite (bind_ok _ _ _ _ _ Hr), IH, entry_append.
    unfold keys. cbn [map fst combine prefixed].
    now rewrite !string_app_assoc.
Qed.

Lemma str_object_loop_first f st props rs s :
  Forall2 (fun kv r => f (snd kv) st = Ok r st) props rs ->
  str_object_loop f true props s st
  = Ok (s ++ String.concat ", " (map render_entry (combine (keys props) rs)))%string st.
Proof.
  intros H. destruct H as [|[k v] r props rs Hr Hrest].
  - cbn [str_object_loop keys map combine String.concat].
    now rewrite string_app_nil_r.
  - cbn [str_object_loop snd] in *.
    rewrite (bind_ok _ _ _ _ _ Hr).
    rewrite (str_object_loop_rest _ _ _ _ Hrest), entry_append.
    unfold keys. cbn [map fst combine]. rewrite concat_prefixed.
    now rewrite !string_app_assoc.
Qed.

(** Evaluation keeps the property maps sorted. *)
Lemma eval_keeps_maps_sorted fuel ast env st :
  maps_sorted st ->
  match eval fuel ast env st with
  | Ok _ st' | Throw _ st' => maps_sorted st'
  | _ => True
  end.
Proof.
  intros Hs. pose proof (mono_eval fuel ast env st) as Hg.
  destruct (eval fuel ast env st); auto; now apply Hg.
Qed.

Lemma prelude_maps_sorted : maps_sorted prelude.
Proof. constructor. Qed.

(** C9: the property maps of the store are sorted by name at the start of
    a program and stay so under evaluation.  In such a state, for every
    object, [str] prints the properties in the order of the map, which is
    the strictly ascending order of the names; it is the order that any
    sequence of insertions over the same names produces. *)
Theorem str_object_ascending fuel st o props rs :
  maps_sorted st ->
  nth_error (maps st) (properties o) = Some props ->
  Forall2 (fun kv r => str fuel (snd kv) st = Ok r st) props rs ->
  str (S fuel) (VObject o) st = Ok (render_object (combine (keys props) rs)) st
  /\ StronglySorted str_lt (keys props)
  /\ (forall ins : list (string * Value),
         (forall k, In k (keys ins) <-> In k (keys props)) ->
         keys (emplace_all ins []) = keys props)
  /\ (forall fuel' ast env,
         match eval fuel' ast env st with
         | Ok _ st' | Throw _ st' => maps_sorted st'
         | _ => True
         end).
Proof.
  intros Hinv Hmap Hrs.
  assert (Hsorted : StronglySorted str_lt (keys props)).
  { unfold maps_sorted in Hinv. rewrite Forall_forall in Hinv.
    apply (Hinv props). eapply nth_error_In. exact Hmap. }
  split; [|split; [|split]].
  - simpl. unfold str_object. simpl. rewrite bind_ret.
    unfold deref. rewrite Hmap.
    rewrite (bind_ok _ _ _ _ _ (str_object_loop_first _ _ _ _ "{" Hrs)).
    reflexivity.
  - exact Hsorted.
  - intros ins Hsame. apply sorted_unique.
    + apply (emplace_all_sorted ins []), sorted_nil.
    + exact Hsorted.
    + intros k. rewrite keys_emplace_all. simpl. rewrite <- Hsame. tauto.
  - intros fuel' ast env. now apply eval_keeps_maps_sorted.
Qed.

Lemma object_state_sorted : maps_sorted object_state.
Proof.
  constructor; [|constructor].
  apply (emplace_all_sorted b_then_a []), sorted_nil.
Defined.

Lemma str_object_ascending_witness :
  str 2 (VObject (mkObject 0%nat)) object_state
  = Ok (render_object [("a", "2"); ("b", "1")]) object_state
  /\ keys (emplace_all b_then_a []) = ["a"; "b"].
Proof.
  assert (Hrs : Forall2 (fun kv r => str 1 (snd kv) object_state = Ok r object_state)
                  [("a", VLong 2); ("b", VLong 1)] ["2"; "1"]).
  { constructor; [reflexivity|]. constructor; [reflexivity|]. constructor. }
  pose proof (str_object_ascending 1%nat object_state (mkObject 0%nat)
                [("a", VLong 2); ("b", VLong 1)] ["2"; "1"]
                object_state_sorted eq_refl Hrs) as [Hstr [_ [Hins _]]].
  split; [exact Hstr|].
  apply (Hins b_then_a). simpl. tauto.
Defined.

(** [puts({b: 1, a: 2})] prints [a] before [b]. *)
Example puts_object_prints_sorted :
  exists st,
    eval 4 puts_object root prelude = Ok VUndefined st
    /\ cout st = [render_object [("a", "2"); ("b", "1")]].
Proof. eexists. split; vm_compute; reflexivity. Qed.

(** ** Calls *)

Lemma list_set_app_last {A} (l : list A) x y :
  list_set (l ++ [x]) (List.length l) y = l ++ [y].
Proof. induction l as [|a l IH]; simpl; [reflexivity | now rewrite IH]. Qed.

Lemma nth_error_app_last {A} (l : list A) x :
  nth_error (l ++ [x]) (List.length l) = Some x.
Proof. rewrite nth_error_app2 by lia. now rewrite Nat.sub_diag. Qed.

(** Entering a call: the fresh environment is the next free handle. *)
Lemma enter_call {A} (v : Value) (k : loc -> M A) st :
  (callEnv <- new_environment ;; initialize callEnv "self" v false ;; k callEnv) st
  = k (List.length (envs st)) (call_entry st v).
Proof.
  unfold bind at 1. simpl.
  unfold bind at 1, initialize, deref. simpl.
  rewrite nth_error_app_last. simpl.
  now rewrite list_set_app_last.
Qed.

Lemma initialize_at st e fr s v m :
  nth_error (envs st) e = Some fr ->
  initialize e s v m st = Ok tt (with_binding st e s v m).
Proof.
  intros H. unfold initialize, deref, with_binding, set_frame. now rewrite H.
Qed.

Lemma with_binding_frame st e fr s v m :
  nth_error (envs st) e = Some fr ->
  nth_error (envs (with_binding st e s v m)) e
  = Some (mkEnvironment (outer fr) (map_set s (mkSymbol v m) (dic_ fr))).
Proof.
  intros H. unfold with_binding. rewrite H. simpl.
  apply nth_error_list_set_same. apply nth_error_Some. congruence.
Qed.

Lemma get_here st e fr s sym k :
  nth_error (envs st) e = Some fr ->
  map_find s (dic_ fr) = Some sym ->
  get (S k) e s st = Ok (val sym) st.
Proof. intros Hfr Hfind. simpl. unfold deref. now rewrite Hfr, Hfind. Qed.

Lemma bind_params_firstn ev callEnv env ps args :
  bind_params ev callEnv env ps args
  = bind_params ev callEnv env ps (firstn (List.length ps) args).
Proof.
  revert args. induction ps as [|p ps IH]; intros [|a args]; simpl; try reflexivity.
  now rewrite <- IH.
Qed.

Lemma bind_params_args_bound ev callEnv env st ps args st' :
  args_bound ev callEnv env st ps args st' ->
  bind_params ev callEnv env ps args st = Ok tt st'.
Proof.
  induction 1 as [st args|st p ps arg args v st1 st2 st3 Hv Hi _ IH]; simpl.
  - reflexivity.
  - now rewrite (bind_ok _ _ _ _ _ Hv), (bind_ok _ _ _ _ _ Hi).
Qed.

(** With enough arguments, the call is entered and goes on to bind the
    parameters. *)
Lemma eval_arguments_enough ev fuel ast env f n st :
  (List.length (params f) <= List.length (nodes n))%nat ->
  eval_arguments ev fuel ast env (VFunction f) n st
  = (bind_params ev (List.length (envs st)) env (params f) (nodes n) ;;
     initialize (List.length (envs st)) "__LINE__"
       (VLong (long_of_size_t (line ast))) false ;;
     initialize (List.length (envs st)) "__COLUMN__"
       (VLong (long_of_size_t (column ast))) false ;;
     invoke ev fuel (fn_eval f) (List.length (envs st)))
      (call_entry st (VFunction f)).
Proof.
  intros Hle. unfold eval_arguments. simpl. rewrite bind_ret.
  apply Nat.leb_le in Hle. rewrite Hle.
  now rewrite enter_call.
Qed.

(** Once the arity check has passed, the state has grown by the call
    environment, whatever the outcome of the call. *)
Lemma call_grows k fuel ast env f n st :
  (List.length (params f) <= List.length (nodes n))%nat ->
  match eval_arguments (eval k) fuel ast env (VFunction f) n st with
  | Ok _ st' | Throw _ st' =>
      (List.length (envs st) < List.length (envs st'))%nat
  | _ => True
  end.
Proof.
  intros Hle. rewrite eval_arguments_enough by exact Hle.
  match goal with
  | |- match ?m ?s with _ => _ end =>
      assert (Hm : mono m);
      [|specialize (Hm s); destruct (m s); auto;
        try (destruct Hm as [Hm _]; unfold call_entry in Hm; simpl in Hm;
             rewrite length_app in Hm; simpl in Hm; lia)]
  end.
  pose proof (mono_bind_params (eval k) (mono_eval k)) as Hb.
  pose proof (mono_invoke (eval k) (mono_eval k) fuel) as Hi.
  mono_tac.
Qed.

(** C4 (as amended): a call raises [arguments error], before anything
    else happens, exactly when fewer arguments are supplied than the
    function has parameters.  Otherwise the call environment is entered,
    the arguments at the positions of the parameters are evaluated in the
    environment of the caller, first to last, each bound under its
    parameter, and the function is invoked.  Arguments beyond the
    parameter count are not evaluated: the call goes the same way
    whatever they are. *)
Theorem call_arguments k fuel ast env f n st :
  let np := List.length (params f) in
  let callEnv := List.length (envs st) in
  ((List.length (nodes n) < np)%nat <->
   eval_arguments (eval k) fuel ast env (VFunction f) n st
   = Throw (runtime_error "arguments error...") st)
  /\ (forall n',
         (np <= List.length (nodes n))%nat ->
         firstn np (nodes n') = firstn np (nodes n) ->
         eval_arguments (eval k) fuel ast env (VFunction f) n' st
         = eval_arguments (eval k) fuel ast env (VFunction f) n st)
  /\ (forall st',
         (np <= List.length (nodes n))%nat ->
         args_bound (eval k) callEnv env (call_entry st (VFunction f))
           (params f) (nodes n) st' ->
         eval_arguments (eval k) fuel ast env (VFunction f) n st
         = (initialize callEnv "__LINE__" (VLong (long_of_size_t (line ast))) false ;;
            initialize callEnv "__COLUMN__" (VLong (long_of_size_t (column ast))) false ;;
            invoke (eval k) fuel (fn_eval f) callEnv) st').
Proof.
  intros np callEnv. split; [|split].
  - split.
    + intros Hlt. unfold eval_arguments. simpl. rewrite bind_ret.
      apply Nat.leb_gt in Hlt. fold np. now rewrite Hlt.
    + intros Hthrow.
      destruct (Nat.lt_ge_cases (List.length (nodes n)) np) as [Hlt|Hge];
        [exact Hlt|].
      pose proof (call_grows k fuel ast env f n st Hge) as Hg.
      rewrite Hthrow in Hg. lia.
  - intros n' Hle Hfirst.
    assert (Hle' : (np <= List.length (nodes n'))%nat).
    { pose proof (f_equal (@List.length Ast) Hfirst) as Hl.
      rewrite !length_firstn in Hl. lia. }
    rewrite !eval_arguments_enough by assumption.
    rewrite (bind_params_firstn _ _ _ _ (nodes n')).
    rewrite (bind_params_firstn _ _ _ _ (nodes n)).
    fold np. now rewrite Hfirst.
  - intros st' Hle Hargs.
    rewrite eval_arguments_enough by exact Hle.
    now rewrite (bind_ok _ _ _ _ _ (bind_params_args_bound _ _ _ _ _ _ _ Hargs)).
Qed.

Lemma call_arguments_witness :
  eval_arguments (eval 1) 1%nat call_with_extra_argument root
    (VFunction (mkFunction [] (UserFn root (tk NUMBER BLOCK 1 9 "7"))))
    (nd ARGUMENTS ARGUMENTS 1 13 [undefined_y]) prelude
  = eval_arguments (eval 1) 1%nat call_with_extra_argument root
      (VFunction (mkFunction [] (UserFn root (tk NUMBER BLOCK 1 9 "7"))))
      (nd ARGUMENTS ARGUMENTS 1 13 []) prelude.
Proof.
  apply (proj1 (proj2 (call_arguments 1 1%nat call_with_extra_argument root
           (mkFunction [] (UserFn root (tk NUMBER BLOCK 1 9 "7")))
           (nd ARGUMENTS ARGUMENTS 1 13 []) prelude))
           (nd ARGUMENTS ARGUMENTS 1 13 [undefined_y])).
  - simpl. lia.
  - reflexivity.
Defined.

(** An argument beyond the parameter count is not evaluated: the call
    succeeds although the evaluation of the argument would raise. *)
Lemma extra_argument_not_evaluated :
  result_value (eval 3 call_with_extra_argument root prelude) = Some (VLong 7)
  /\ eval 3 undefined_y root prelude
     = Throw (runtime_error "undefined variable 'y'...") prelude.
Proof. split; vm_compute; reflexivity. Qed.

Example missing_argument_raises :
  result_exception (eval 3 call_with_missing_argument root prelude)
  = Some (runtime_error "arguments error...").
Proof. vm_compute. reflexivity. Qed.

(** ** The built-in [assert] *)

Lemma prelude_binds_assert : get 1 root "assert" prelude = Ok assert_fn prelude.
Proof. reflexivity. Qed.

(** The call environment of [assert] once its argument [v] is bound. *)
Lemma assert_frame k ast st1 callEnv fr v :
  nth_error (envs st1) callEnv = Some fr ->
  let l := VLong (long_of_size_t (line ast)) in
  let c := VLong (long_of_size_t (column ast)) in
  let sA := with_binding st1 callEnv "arg" v true in
  let sB := with_binding sA callEnv "__LINE__" l false in
  let st2 := with_binding sB callEnv "__COLUMN__" c false in
  initialize callEnv "arg" v true st1 = Ok tt sA
  /\ initialize callEnv "__LINE__" l false sA = Ok tt sB
  /\ initialize callEnv "__COLUMN__" c false sB = Ok tt st2
  /\ get (S k) callEnv "arg" st2 = Ok v st2
  /\ get (S k) callEnv "__LINE__" st2 = Ok l st2
  /\ get (S k) callEnv "__COLUMN__" st2 = Ok c st2.
Proof.
  intros Hfr l c sA sB st2.
  pose proof (with_binding_frame st1 callEnv fr "arg" v true Hfr) as H1.
  pose proof (with_binding_frame _ callEnv _ "__LINE__" l false H1) as H2.
  pose proof (with_binding_frame _ callEnv _ "__COLUMN__" c false H2) as H3.
  fold sA in H1, H2, H3. fold sB in H2, H3. fold st2 in H3. simpl in H3.
  split; [exact (initialize_at _ _ _ "arg" v true Hfr)|].
  split; [exact (initialize_at _ _ _ "__LINE__" l false H1)|].
  split; [exact (initialize_at _ _ _ "__COLUMN__" c false H2)|].
  split; [|split].
  - apply (get_here st2 callEnv _ "arg" (mkSymbol v true) k H3). simpl.
    rewrite !map_find_set_other by discriminate.
    apply map_find_set_same.
  - apply (get_here st2 callEnv _ "__LINE__" (mkSymbol l false) k H3). simpl.
    rewrite map_find_set_other by discriminate.
    apply map_find_set_same.
  - apply (get_here st2 callEnv _ "__COLUMN__" (mkSymbol c false) k H3). simpl.
    apply map_find_set_same.
Qed.

(** C8: [assert] is bound in the prelude, and a call of it whose argument
    evaluates to [v] returns [Undefined] when [to_bool v] is true and
    raises [assert failed at L:C.] when it is false, [L] and [C] being the
    line and the column of the [CALL] node, which the evaluator binds to
    [__LINE__] and [__COLUMN__] in the call environment; the program
    [assert(1 == 2)] fails with [assert failed at 1:1.]. *)
Theorem assert_call_outcome k ast env n a rest st v st1 b :
  nodes n = a :: rest ->
  eval k a env (call_entry st assert_fn) = Ok v st1 ->
  to_bool v st1 = Ok b st1 ->
  get 1 root "assert" prelude = Ok assert_fn prelude
  /\ exists st2,
      get k (List.length (envs st)) "__LINE__" st2
      = Ok (VLong (long_of_size_t (line ast))) st2
      /\ get k (List.length (envs st)) "__COLUMN__" st2
         = Ok (VLong (long_of_size_t (column ast))) st2
      /\ eval_arguments (eval k) k ast env assert_fn n st
         = (if b then Ok VUndefined st2
            else Throw (runtime_error (assert_message ast)) st2)
      /\ result_exception (eval 4 (assert_call "2") root prelude)
         = Some (runtime_error "assert failed at 1:1.").
Proof.
  intros Hn Ha Hb. split; [exact prelude_binds_assert|].
  destruct k as [|k]; [discriminate Ha|].
  set (callEnv := List.length (envs st)).
  assert (Hfr : exists fr, nth_error (envs st1) callEnv = Some fr).
  { pose proof (mono_eval (S k) a env (call_entry st assert_fn)) as Hg.
    rewrite Ha in Hg. destruct Hg as [Hg _]. unfold call_entry in Hg. simpl in Hg.
    rewrite length_app in Hg. simpl in Hg.
    destruct (nth_error (envs st1) callEnv) as [fr|] eqn:E; [now exists fr|].
    apply nth_error_None in E. unfold callEnv in E. lia. }
  destruct Hfr as [fr Hfr].
  destruct (assert_frame k ast st1 callEnv fr v Hfr)
    as [HA [HB [HC [Harg [Hline Hcol]]]]].
  set (l := VLong (long_of_size_t (line ast))) in *.
  set (c := VLong (long_of_size_t (column ast))) in *.
  match type of HC with _ = Ok tt ?s => set (st2 := s) in * end.
  exists st2. split; [exact Hline|]. split; [exact Hcol|].
  split; [|vm_compute; reflexivity].
  unfold assert_fn at 1.
  rewrite eval_arguments_enough by (rewrite Hn; simpl; lia).
  fold assert_fn. fold callEnv. fold l. fold c. rewrite Hn.
  cbn [params bind_params name mut fn_eval].
  assert (Hbp : (v0 <- eval (S k) a env ;;
                 initialize callEnv "arg" v0 true ;; ret tt)
                  (call_entry st assert_fn)
                = Ok tt (with_binding st1 callEnv "arg" v true)).
  { rewrite (bind_ok _ _ _ _ _ Ha). now rewrite (bind_ok _ _ _ _ _ HA). }
  rewrite (bind_ok _ _ _ _ _ Hbp).
  rewrite (bind_ok _ _ _ _ _ HB), (bind_ok _ _ _ _ _ HC).
  cbn [invoke].
  rewrite (bind_ok _ _ _ _ _ Harg).
  rewrite (bind_ok _ _ _ _ _ (to_bool_any_state _ _ _ st2 Hb)).
  destruct b; simpl; [reflexivity|].
  rewrite (bind_ok _ _ _ _ _ Hline). simpl. rewrite bind_ret.
  rewrite (bind_ok _ _ _ _ _ Hcol). simpl. rewrite bind_ret.
  reflexivity.
Qed.

Lemma assert_call_outcome_witness :
  exists st2,
    eval_arguments (eval 2) 2%nat (assert_call "2") root assert_fn
      (nd ARGUMENTS ARGUMENTS 1 7
         [nd CONDITION EXPRESSION 1 8
            [tk NUMBER ADDITIVE 1 8 "1";
             tk CONDITION_OPERATOR CONDITION_OPERATOR 1 10 "==";
             tk NUMBER ADDITIVE 1 13 "2"]]) prelude
    = Throw (runtime_error "assert failed at 1:1.") st2.
Proof.
  destruct (proj2 (assert_call_outcome 2 (assert_call "2") root
              (nd ARGUMENTS ARGUMENTS 1 7
                 [nd CONDITION EXPRESSION 1 8
                    [tk NUMBER ADDITIVE 1 8 "1";
                     tk CONDITION_OPERATOR CONDITION_OPERATOR 1 10 "==";
                     tk NUMBER ADDITIVE 1 13 "2"]])
              _ [] prelude (VBool false) (call_entry prelude assert_fn) false
              eq_refl eq_refl eq_refl)) as [st2 [_ [_ [H _]]]].
  exists st2. exact H.
Defined.

(** [assert(1 == 2)] fails with [assert failed at 1:1.], and
    [assert(1 == 1)] is [Undefined]. *)
Example assert_programs :
  result_exception (eval 4 (assert_call "2") root prelude)
  = Some (runtime_error "assert failed at 1:1.")
  /\ result_value (eval 4 (assert_call "1") root prelude) = Some VUndefined.
Proof. split; vm_compute; reflexivity. Qed.

(** * Further properties *)

(** ** Statements, loops and conditionals *)

Lemma eval_statements_loop_app ev env pre x post n st st1 :
  evaluated ev env st (n :: pre) st1 ->
  eval_statements_loop ev env n (pre ++ x :: post) st
  = match post with
    | [] => ev x env st1
    | y :: post' => (ev x env ;; eval_statements_loop ev env y post') st1
    end.
Proof.
  revert n st. induction pre as [|p pre IH]; intros n st H.
  - inversion H as [|? ? v st0 ? ? Hn Hrest]; subst.
    inversion Hrest; subst. simpl.
    rewrite (bind_ok _ _ _ _ _ Hn). now destruct post.
  - inversion H as [|? ? v st0 ? ? Hn Hrest]; subst. simpl.
    rewrite (bind_ok _ _ _ _ _ Hn). now apply IH.
Qed.

(** X1: a [STATEMENTS] node without children is [Undefined].  When the
    statements before [x] have evaluated, the node yields the outcome of
    [x] if [x] is the last statement, and if [x] raises, it raises the
    same exception in the same state and the statements after [x] are not
    evaluated. *)
Theorem statements_outcome ev fuel ast env pre x post st st1 :
  tag ast = STATEMENTS ->
  is_token ast = false ->
  evaluated ev env st pre st1 ->
  (nodes ast = [] -> eval_body ev fuel ast env st = Ok VUndefined st)
  /\ (nodes ast = pre ++ [x] ->
      eval_body ev fuel ast env st = ev x env st1)
  /\ (forall e st2,
         nodes ast = pre ++ x :: post ->
         ev x env st1 = Throw e st2 ->
         eval_body ev fuel ast env st = Throw e st2).
Proof.
  intros Htag Htok Hpre.
  assert (Hstep : forall post',
    nodes ast = pre ++ x :: post' ->
    eval_body ev fuel ast env st
    = match post' with
      | [] => ev x env st1
      | y :: post'' => (ev x env ;; eval_statements_loop ev env y post'') st1
      end).
  { intros post' Hn. unfold eval_body. rewrite Htag.
    unfold eval_statements. rewrite Htok, Hn.
    destruct Hpre as [st|st n v st0 rest st1 Hv Hrest]; simpl.
    - destruct post'; reflexivity.
    - apply eval_statements_loop_app. econstructor; eassumption. }
  split; [|split].
  - intros Hn. unfold eval_body. rewrite Htag.
    unfold eval_statements. now rewrite Htok, Hn.
  - intros Hn. exact (Hstep [] Hn).
  - intros e st2 Hn Hx. rewrite (Hstep post Hn).
    destruct post; [exact Hx|]. now rewrite (bind_throw _ _ _ _ _ Hx).
Qed.

Lemma statements_outcome_witness :
  eval 3 statements_1_y_2 root prelude
  = Throw (runtime_error "undefined variable 'y'...") prelude.
Proof.
  assert (Hpre : evaluated (eval 2) root prelude
                   [tk NUMBER EXPRESSION 1 1 "1"] prelude).
  { apply evaluated_cons with (v := VLong 1) (st1 := prelude);
      [reflexivity | apply evaluated_nil]. }
  apply (proj2 (proj2 (statements_outcome (eval 2) 2%nat statements_1_y_2 root
           [tk NUMBER EXPRESSION 1 1 "1"] (tk IDENTIFIER EXPRESSION 1 4 "y")
           [tk NUMBER EXPRESSION 1 7 "2"] prelude prelude eq_refl eq_refl
           Hpre))).
  - reflexivity.
  - reflexivity.
Defined.

(** X2: a [WHILE] node that returns returns [Undefined], in the state in
    which its condition has just evaluated to a falsy value; when the
    condition is falsy at the start, the body is not evaluated. *)
Theorem while_outcome ev fuel ast env st :
  tag ast = WHILE ->
  (forall v st',
      eval_body ev fuel ast env st = Ok v st' ->
      v = VUndefined
      /\ exists n0 c st0,
          nth_error (nodes ast) 0 = Some n0
          /\ ev n0 env st0 = Ok c st'
          /\ to_bool c st' = Ok false st')
  /\ (forall n0 rest c st1,
         fuel <> 0%nat ->
         nodes ast = n0 :: rest ->
         ev n0 env st = Ok c st1 ->
         to_bool c st1 = Ok false st1 ->
         eval_body ev fuel ast env st = Ok VUndefined st1).
Proof.
  intros Htag. unfold eval_body. rewrite Htag. unfold eval_while. split.
  - revert st. induction fuel as [|k IH]; intros st v st'; [discriminate|].
    cbn [eval_while_loop]. unfold node_at.
    destruct (nth_error (nodes ast) 0) as [n0|] eqn:E0; [|discriminate].
    rewrite bind_ret. unfold bind at 1.
    destruct (ev n0 env st) as [c st1| | |] eqn:Hc; try discriminate.
    unfold bind at 1.
    destruct (to_bool c st1) as [b st1'| | |] eqn:Hb; try discriminate.
    pose proof (to_bool_pure _ _ _ _ Hb) as ->.
    destruct b; cbn [negb].
    + destruct (nth_error (nodes ast) 1) as [n1|];
        [|unfold bind, abort; discriminate].
      rewrite bind_ret. unfold bind at 1.
      destruct (ev n1 env st1) as [w st2| | |]; try discriminate.
      apply IH.
    + unfold ret. intros H. inversion H; subst.
      split; [reflexivity|]. exists n0, c, st. auto.
  - intros n0 rest c st1 Hfuel Hn Hc Hb.
    destruct fuel as [|k]; [congruence|].
    cbn [eval_while_loop]. unfold node_at. rewrite Hn. cbn [nth_error].
    rewrite bind_ret, (bind_ok _ _ _ _ _ Hc), (bind_ok _ _ _ _ _ Hb).
    reflexivity.
Qed.

Lemma while_outcome_witness :
  eval 2 while_false root prelude = Ok VUndefined prelude.
Proof.
  apply (proj2 (while_outcome (eval 1) 1%nat while_false root prelude eq_refl)
           (tk BOOLEAN EXPRESSION 1 7 "false")
           [tk IDENTIFIER BLOCK 1 15 "y"] (VBool false) prelude);
    [discriminate | reflexivity | reflexivity | reflexivity].
Defined.

Lemma eval_if_loop_skipped ev env skipped rest st st1 :
  branches_skipped ev env st skipped st1 ->
  eval_if_loop ev env (skipped ++ rest) st = eval_if_loop ev env rest st1.
Proof.
  induction 1 as [st|st c t v st0 more st1 Hc Hb _ IH]; [reflexivity|].
  simpl. now rewrite (bind_ok _ _ _ _ _ Hc), (bind_ok _ _ _ _ _ Hb).
Qed.

(** X3: when the conditions of the leading branches of an [IF] node have
    evaluated to falsy values, their blocks are not evaluated, and the
    node yields: the outcome of the block of the next branch if its
    condition is truthy, whatever follows it; the outcome of the trailing
    [else] block if that is all that is left; [Undefined] if nothing is
    left. *)
Theorem if_selects_first_truthy ev fuel ast env skipped st st1 :
  tag ast = IF ->
  branches_skipped ev env st skipped st1 ->
  (forall c t more v st2,
      nodes ast = skipped ++ c :: t :: more ->
      ev c env st1 = Ok v st2 ->
      to_bool v st2 = Ok true st2 ->
      eval_body ev fuel ast env st = ev t env st2)
  /\ (forall e,
         nodes ast = skipped ++ [e] ->
         eval_body ev fuel ast env st = ev e env st1)
  /\ (nodes ast = skipped ->
      eval_body ev fuel ast env st = Ok VUndefined st1).
Proof.
  intros Htag Hskip.
  assert (Hstep : forall rest,
    nodes ast = skipped ++ rest ->
    eval_body ev fuel ast env st = eval_if_loop ev env rest st1).
  { intros rest Hn. unfold eval_body. rewrite Htag. unfold eval_if.
    rewrite Hn. now apply eval_if_loop_skipped. }
  split; [|split].
  - intros c t more v st2 Hn Hc Hb. rewrite (Hstep _ Hn). simpl.
    now rewrite (bind_ok _ _ _ _ _ Hc), (bind_ok _ _ _ _ _ Hb).
  - intros e Hn. now rewrite (Hstep _ Hn).
  - intros Hn. rewrite (Hstep []); [reflexivity|].
    now rewrite app_nil_r.
Qed.

Lemma if_selects_first_truthy_witness :
  eval 2 if_chain root prelude = Ok (VLong 2) prelude.
Proof.
  assert (Hskip : branches_skipped (eval 1) root prelude
                    [tk BOOLEAN EXPRESSION 1 4 "false"; tk NUMBER BLOCK 1 12 "1"]
                    prelude).
  { apply branches_skipped_cons with (v := VBool false) (st1 := prelude);
      [reflexivity | reflexivity | apply branches_skipped_nil]. }
  apply (proj1 (if_selects_first_truthy (eval 1) 1%nat if_chain root
           [tk BOOLEAN EXPRESSION 1 4 "false"; tk NUMBER BLOCK 1 12 "1"]
           prelude prelude eq_refl Hskip)
           (tk BOOLEAN EXPRESSION 1 24 "true") (tk NUMBER BLOCK 1 31 "2")
           [tk IDENTIFIER BLOCK 1 42 "y"] (VBool true) prelude);
    reflexivity.
Defined.

(** ** Environments *)

(** X4: [has] and [get] agree: when [has] finds the name, [get] returns a
    value, and when [has] does not find it, [get] raises the
    undefined-variable error; neither changes the state. *)
Theorem has_get_agree fuel e s st b st1 :
  has fuel e s st = Ok b st1 ->
  st1 = st
  /\ if b then exists v, get fuel e s st = Ok v st
     else get fuel e s st
          = Throw (runtime_error ("undefined variable '" ++ s ++ "'...")%string) st.
Proof.
  intros H. split; [exact (has_pure _ _ _ _ _ _ H)|].
  revert e H. induction fuel as [|k IH]; intros e; simpl; [discriminate|].
  unfold deref. destruct (nth_error (envs st) e) as [fr|]; [|discriminate].
  destruct (map_find s (dic_ fr)) as [sym|].
  - unfold ret. intros H. inversion H; subst. now exists (val sym).
  - destruct (outer fr) as [o|]; [apply IH|].
    unfold ret. intros H. inversion H; subst. reflexivity.
Qed.

Lemma has_get_agree_witness :
  get 1 root "x" prelude
  = Throw (runtime_error "undefined variable 'x'...") prelude.
Proof.
  exact (proj2 (has_get_agree 1 root "x" prelude false prelude eq_refl)).
Defined.

Lemma get_other_name fuel e0 s s' v m st e :
  s' <> s ->
  result_value (get fuel e0 s' (with_binding st e s v m))
  = result_value (get fuel e0 s' st).
Proof.
  intros Hne. unfold with_binding.
  destruct (nth_error (envs st) e) as [fr|] eqn:Hfr; [|reflexivity].
  revert e0. induction fuel as [|k IH]; intros e0; simpl; [reflexivity|].
  unfold deref. simpl.
  destruct (Nat.eq_dec e e0) as [<-|Hd].
  - rewrite nth_error_list_set_same by (apply nth_error_Some; congruence).
    rewrite Hfr. simpl. rewrite map_find_set_other by exact Hne.
    destruct (map_find s' (dic_ fr)); [reflexivity|].
    destruct (outer fr); [apply IH | reflexivity].
  - rewrite nth_error_list_set_other by exact Hd.
    destruct (nth_error (envs st) e0) as [fr0|]; [|reflexivity].
    destruct (map_find s' (dic_ fr0)); [reflexivity|].
    destruct (outer fr0); [apply IH | reflexivity].
Qed.

(** X5: [initialize] on an existing frame always succeeds, whatever the
    frame and the outer frames bind: afterwards the name resolves to the
    new binding of that frame, with the given value and flag, all other
    frames are as they were, and every other name resolves as before from
    every environment. *)
Theorem initialize_declares st e fr s v m fuel :
  nth_error (envs st) e = Some fr ->
  let st' := with_binding st e s v m in
  initialize e s v m st = Ok tt st'
  /\ innermost st' s 0 e e (mkSymbol v m)
  /\ get (S fuel) e s st' = Ok v st'
  /\ (forall e0, e0 <> e -> nth_error (envs st') e0 = nth_error (envs st) e0)
  /\ (forall e0 s', s' <> s ->
         result_value (get fuel e0 s' st') = result_value (get fuel e0 s' st)).
Proof.
  intros Hfr st'.
  pose proof (with_binding_frame st e fr s v m Hfr) as Hfr'.
  assert (Hin : innermost st' s 0 e e (mkSymbol v m)).
  { eapply innermost_here; [exact Hfr'|]. simpl. apply map_find_set_same. }
  split; [exact (initialize_at _ _ _ s v m Hfr)|].
  split; [exact Hin|].
  split; [exact (get_innermost _ _ _ _ _ _ (S fuel) Hin ltac:(lia))|].
  split.
  - intros e0 Hne. now apply with_binding_other_frames.
  - intros e0 s' Hne. now apply get_other_name.
Qed.

Lemma initialize_declares_witness :
  initialize 1%nat "y" (VLong 7) true two_frames
  = Ok tt (with_binding two_frames 1%nat "y" (VLong 7) true)
  /\ get 2 1%nat "y" (with_binding two_frames 1%nat "y" (VLong 7) true)
     = Ok (VLong 7) (with_binding two_frames 1%nat "y" (VLong 7) true)
  /\ get 2 0%nat "y" (with_binding two_frames 1%nat "y" (VLong 7) true)
     = Ok (VLong 2) (with_binding two_frames 1%nat "y" (VLong 7) true).
Proof.
  pose proof (initialize_declares two_frames 1%nat _ "y" (VLong 7) true 1%nat
                eq_refl) as [Hinit [_ [Hget _]]].
  split; [exact Hinit|]. split; [exact Hget|]. reflexivity.
Defined.

Lemma has_frame fuel e s st b st1 :
  has fuel e s st = Ok b st1 -> exists fr, nth_error (envs st) e = Some fr.
Proof.
  destruct fuel as [|k]; simpl; [discriminate|].
  unfold deref. destruct (nth_error (envs st) e) as [fr|]; [|discriminate].
  intros _. now exists fr.
Qed.

(** X6: an [ASSIGNMENT] node whose name is bound nowhere on the chain
    declares it in the current frame, mutable exactly when the [MUTABLE]
    token is [mut], and yields the value of its right-hand side; the name
    then resolves to that binding. *)
Theorem assignment_declares ev fuel ast env m id rhs st0 v st :
  nodes ast = [m; id; rhs] ->
  ev rhs env st0 = Ok v st ->
  has fuel env (token id) st = Ok false st ->
  let flag := String.eqb (token m) "mut" in
  let st' := with_binding st env (token id) v flag in
  eval_assignment ev fuel ast env st0 = Ok v st'
  /\ innermost st' (token id) 0 env env (mkSymbol v flag)
  /\ get fuel env (token id) st' = Ok v st'.
Proof.
  intros Hn Hv Hhas flag st'.
  destruct (has_frame _ _ _ _ _ _ Hhas) as [fr Hfr].
  destruct (initialize_declares st env fr (token id) v flag 0 Hfr)
    as [Hinit [Hin _]].
  split; [|split].
  - rewrite (eval_assignment_steps _ _ _ _ _ _ _ _ _ _ Hn Hv).
    rewrite (bind_ok _ _ _ _ _ Hhas).
    now rewrite (bind_ok _ _ _ _ _ Hinit).
  - exact Hin.
  - destruct fuel as [|k]; [discriminate Hhas|].
    exact (get_innermost _ _ _ _ _ _ (S k) Hin ltac:(lia)).
Qed.

Lemma assignment_declares_witness :
  eval_assignment (eval 1) 1%nat (assignment 1 1 "mut" "x" "1") root prelude
  = Ok (VLong 1) (with_binding prelude root "x" (VLong 1) true).
Proof.
  exact (proj1 (assignment_declares (eval 1) 1%nat (assignment 1 1 "mut" "x" "1")
                  root (tk MUTABLE MUTABLE 1 1 "mut")
                  (tk IDENTIFIER IDENTIFIER 1 1 "x")
                  (tk NUMBER EXPRESSION 1 1 "1") prelude (VLong 1) prelude
                  eq_refl eq_refl eq_refl)).
Defined.

(** *** Chaining a call environment to a captured one *)

Lemma chain_end_last st d e t :
  chain_end st d e t ->
  exists fr, nth_error (envs st) t = Some fr /\ outer fr = None.
Proof.
  induction 1 as [e fr Hfr Ho|d e fr o t Hfr Ho _ IH]; [|exact IH].
  now exists fr.
Qed.

Lemma with_outer_frame st t o x fr :
  nth_error (envs st) x = Some fr ->
  exists fr',
    nth_error (envs (with_outer st t o)) x = Some fr'
    /\ dic_ fr' = dic_ fr
    /\ (x <> t -> fr' = fr)
    /\ (x = t -> outer fr' = Some o).
Proof.
  intros Hx. unfold with_outer.
  destruct (nth_error (envs st) t) as [frt|] eqn:Ht.
  - simpl. destruct (Nat.eq_dec t x) as [->|Hne].
    + exists (mkEnvironment (Some o) (dic_ frt)).
      rewrite nth_error_list_set_same by (apply nth_error_Some; congruence).
      assert (frt = fr) as -> by congruence.
      repeat split; auto. congruence.
    + exists fr. rewrite nth_error_list_set_other by exact Hne.
      repeat split; auto. congruence.
  - exists fr. repeat split; auto. intros ->. congruence.
Qed.

Lemma append_outer_chain st d e t o fuel :
  chain_end st d e t -> (d < fuel)%nat ->
  append_outer fuel e o st = Ok tt (with_outer st t o).
Proof.
  intros H. revert fuel.
  induction H as [e fr Hfr Ho|d e fr o1 t Hfr Ho _ IH];
    intros [|k] Hlt; try lia; simpl; unfold deref; rewrite Hfr, Ho.
  - unfold with_outer, set_frame. now rewrite Hfr.
  - apply IH. lia.
Qed.

(** Bindings met before the end of the chain are met as before. *)
Lemma innermost_with_outer st t frt o s d e e1 sym :
  nth_error (envs st) t = Some frt -> outer frt = None ->
  innermost st s d e e1 sym ->
  innermost (with_outer st t o) s d e e1 sym.
Proof.
  intros Ht Hto.
  induction 1 as [e fr sym Hfr Hfind|d e fr o1 e1 sym Hfr Hfind Ho _ IH].
  - destruct (with_outer_frame st t o e fr Hfr) as [fr' [Hfr' [Hdic _]]].
    eapply innermost_here; [exact Hfr' | now rewrite Hdic].
  - destruct (with_outer_frame st t o e fr Hfr) as [fr' [Hfr' [_ [Hsame _]]]].
    assert (Hne : e <> t) by (intros ->; congruence).
    rewrite (Hsame Hne) in Hfr'.
    eapply innermost_outer; eassumption.
Qed.

(** Chains that do not pass through [t] are walked as before. *)
Lemma innermost_off_chain st t o s d e e1 sym :
  ~ on_chain st e t ->
  innermost st s d e e1 sym ->
  innermost (with_outer st t o) s d e e1 sym.
Proof.
  intros Hoff H.
  induction H as [e fr sym Hfr Hfind|d e fr o1 e1 sym Hfr Hfind Ho _ IH].
  - destruct (with_outer_frame st t o e fr Hfr) as [fr' [Hfr' [Hdic _]]].
    eapply innermost_here; [exact Hfr' | now rewrite Hdic].
  - destruct (with_outer_frame st t o e fr Hfr) as [fr' [Hfr' [_ [Hsame _]]]].
    assert (Hne : e <> t).
    { intros ->. apply Hoff. constructor. }
    rewrite (Hsame Hne) in Hfr'.
    eapply innermost_outer; [exact Hfr' | exact Hfind | exact Ho |].
    apply IH. intros Hon. apply Hoff.
    eapply on_chain_outer; eassumption.
Qed.

Lemma innermost_through_chain st d e t o s d2 e2 sym k :
  chain_end st d e t ->
  has k e s st = Ok false st ->
  ~ on_chain st o t ->
  innermost st s d2 o e2 sym ->
  innermost (with_outer st t o) s (S d + d2) e e2 sym.
Proof.
  intros Hend. revert k.
  induction Hend as [e fr Hfr Ho|d e fr o1 t Hfr Ho Hend IH];
    intros [|k] Hhas Hoff Hin; try discriminate Hhas;
    simpl in Hhas; unfold deref in Hhas; rewrite Hfr in Hhas;
    destruct (map_find s (dic_ fr)) eqn:Hfind; try discriminate Hhas;
    rewrite Ho in Hhas.
  - destruct (with_outer_frame st e o e fr Hfr) as [fr' [Hfr' [Hdic [_ Hout]]]].
    eapply innermost_outer;
      [exact Hfr' | now rewrite Hdic | now apply Hout |].
    now apply innermost_off_chain.
  - destruct (chain_end_last _ _ _ _ Hend) as [frt [Hfrt Hto]].
    destruct (with_outer_frame st t o e fr Hfr) as [fr' [Hfr' [_ [Hsame _]]]].
    assert (Hne : e <> t) by (intros ->; congruence).
    rewrite (Hsame Hne) in Hfr'.
    eapply innermost_outer; [exact Hfr' | exact Hfind | exact Ho |].
    eapply IH; eassumption.
Qed.

(** X7: [append_outer] hooks the environment [o] to the last frame of the
    chain and changes nothing else.  Every name bound on the chain still
    resolves to the same binding, so the call frame shadows the captured
    environment; a name bound nowhere on the chain now resolves as it
    does from [o]; and the body of a function made by [eval_function] is
    evaluated in the call environment chained in this way. *)
Theorem append_outer_scoping st d e t o fuel :
  chain_end st d e t ->
  (d < fuel)%nat ->
  let st' := with_outer st t o in
  append_outer fuel e o st = Ok tt st'
  /\ (forall s d1 e1 sym,
         innermost st s d1 e e1 sym -> innermost st' s d1 e e1 sym)
  /\ (forall s d2 e2 sym k,
         has k e s st = Ok false st ->
         ~ on_chain st o t ->
         innermost st s d2 o e2 sym ->
         innermost st' s (S d + d2) e e2 sym)
  /\ (forall ev body,
         invoke ev fuel (UserFn o body) e st = ev body e st').
Proof.
  intros Hend Hlt st'.
  pose proof (append_outer_chain st d e t o fuel Hend Hlt) as Happ.
  destruct (chain_end_last _ _ _ _ Hend) as [frt [Hfrt Hto]].
  split; [exact Happ|]. split; [|split].
  - intros s d1 e1 sym Hin. eapply innermost_with_outer; eassumption.
  - intros s d2 e2 sym k Hhas Hoff Hin.
    eapply innermost_through_chain; eassumption.
  - intros ev body. simpl. now rewrite (bind_ok _ _ _ _ _ Happ).
Qed.

Lemma append_outer_scoping_witness :
  append_outer 1 1%nat 0%nat call_and_global
  = Ok tt (with_outer call_and_global 1%nat 0%nat)
  /\ get 2 1%nat "x" (with_outer call_and_global 1%nat 0%nat)
     = Ok (VLong 10) (with_outer call_and_global 1%nat 0%nat)
  /\ get 2 1%nat "y" (with_outer call_and_global 1%nat 0%nat)
     = Ok (VLong 2) (with_outer call_and_global 1%nat 0%nat).
Proof.
  assert (Hend : chain_end call_and_global 0 1%nat 1%nat).
  { eapply chain_end_here; reflexivity. }
  assert (Hlt : (0 < 1)%nat) by lia.
  pose proof (append_outer_scoping call_and_global 0 1%nat 1%nat 0%nat 1
                Hend Hlt) as [Happ [Hkeep [Hnew _]]].
  split; [exact Happ|]. split.
  - apply (get_innermost _ "x" 0 1%nat 1%nat (mkSymbol (VLong 10) false) 2);
      [|lia].
    apply Hkeep. eapply innermost_here; reflexivity.
  - apply (get_innermost _ "y" 1 1%nat 0%nat (mkSymbol (VLong 2) false) 2);
      [|lia].
    apply (Hnew "y" 0%nat 0%nat (mkSymbol (VLong 2) false) 1%nat).
    + reflexivity.
    + intros Hon. inversion Hon as [|? fr ? ? Hfr Ho _]; subst.
      simpl in Hfr. inversion Hfr; subst. discriminate Ho.
    + eapply innermost_here; reflexivity.
Defined.

(** ** Suffixes on values of the wrong kind *)

(** X8: a call suffix on a value that is not a function, an index suffix
    on a value that is not an array and a property suffix on a value that
    is neither an object nor an array raise [type error.] in the state as
    it is: no argument and no index expression is evaluated.  A suffix of
    any other rule raises the internal error. *)
Theorem suffix_on_wrong_kind ev fuel ast env v n st :
  (original_tag n = ARGUMENTS -> type_of v <> Function ->
   eval_suffix ev fuel ast env v n st = Throw (runtime_error "type error.") st)
  /\ (original_tag n = INDEX -> type_of v <> Array ->
      eval_suffix ev fuel ast env v n st = Throw (runtime_error "type error.") st)
  /\ (original_tag n = DOT -> type_of v <> Object -> type_of v <> Array ->
      eval_suffix ev fuel ast env v n st = Throw (runtime_error "type error.") st)
  /\ (original_tag n <> ARGUMENTS -> original_tag n <> INDEX ->
      original_tag n <> DOT ->
      eval_suffix ev fuel ast env v n st
      = Throw (logic_error "invalid internal condition.") st).
Proof.
  unfold eval_suffix, tag_eqb. repeat split.
  - intros -> Hk. simpl. destruct v; simpl in Hk; try reflexivity. congruence.
  - intros -> Hk. simpl. destruct v; simpl in Hk; try reflexivity. congruence.
  - intros -> Hk Hk'. simpl. destruct v; simpl in Hk, Hk'; try reflexivity;
      congruence.
  - intros H1 H2 H3.
    destruct (Tag_eq_dec (original_tag n) ARGUMENTS); [contradiction|].
    destruct (Tag_eq_dec (original_tag n) INDEX); [contradiction|].
    destruct (Tag_eq_dec (original_tag n) DOT); [contradiction|].
    reflexivity.
Qed.

(** ** Properties *)

Lemma get_property_of_object st o props nm :
  nth_error (maps st) (properties o) = Some props ->
  get_property (VObject o) nm st
  = match map_find nm props with
    | Some v => Ok v st
    | None =>
        match map_find nm object_builtins with
        | Some v => Ok v st
        | None => Throw (out_of_range "map::at") st
        end
    end.
Proof.
  intros Hmap. unfold get_property, to_object. rewrite bind_ret.
  unfold object_get_property, deref. rewrite Hmap.
  destruct (map_find nm props); [reflexivity|].
  destruct (map_find nm object_builtins); reflexivity.
Qed.

(** X9: a property defined by the object is found before a built-in one
    of the same name; [size] is built in for an object that does not
    define it; any other name the object does not define raises
    [std::out_of_range], which is not a [runtime_error]; and
    [has_property] tells [true] exactly for the names [get_property]
    finds. *)
Theorem property_lookup st o props nm :
  nth_error (maps st) (properties o) = Some props ->
  (forall v, map_find nm props = Some v ->
             get_property (VObject o) nm st = Ok v st)
  /\ (map_find "size" props = None ->
      get_property (VObject o) "size" st = Ok size_of_object st)
  /\ (map_find nm props = None -> nm <> "size" ->
      get_property (VObject o) nm st = Throw (out_of_range "map::at") st)
  /\ (exists b,
         has_property object_builtins o nm st = Ok b st
         /\ (b = true <-> exists v, get_property (VObject o) nm st = Ok v st)).
Proof.
  intros Hmap.
  rewrite !(get_property_of_object st o props) by exact Hmap.
  unfold has_property, deref. rewrite Hmap.
  split; [|split; [|split]].
  - intros v ->. reflexivity.
  - intros ->. reflexivity.
  - intros -> Hne. simpl.
    apply String.eqb_neq in Hne. now rewrite Hne.
  - destruct (map_find nm props) as [v|].
    + exists true. split; [reflexivity|]. split; [|reflexivity].
      intros _. now exists v.
    + simpl. destruct (String.eqb nm "size").
      * exists true. split; [reflexivity|]. split; [|reflexivity].
        intros _. now eexists.
      * exists false. split; [reflexivity|]. split; [discriminate|].
        intros [v Hv]. discriminate Hv.
Qed.

Lemma property_lookup_witness :
  get_property (VObject (mkObject 0%nat)) "c" object_state
  = Throw (out_of_range "map::at") object_state.
Proof.
  apply (proj1 (proj2 (proj2 (property_lookup object_state (mkObject 0%nat)
           [("a", VLong 2); ("b", VLong 1)] "c" eq_refl))));
    [reflexivity | discriminate].
Defined.

(** ** Calls of built-in properties *)

Lemma get_value fuel e s st v :
  result_value (get fuel e s st) = Some v -> get fuel e s st = Ok v st.
Proof.
  destruct (get fuel e s st) as [w st'| | |] eqn:E; simpl; try discriminate.
  intros H. inversion H; subst.
  now rewrite (get_pure _ _ _ _ _ _ E).
Qed.

Lemma get_bound k st e fr s v m :
  nth_error (envs st) e = Some fr ->
  get (S k) e s (with_binding st e s v m) = Ok v (with_binding st e s v m).
Proof.
  intros Hfr.
  eapply (get_here _ e _ s (mkSymbol v m));
    [exact (with_binding_frame st e fr s v m Hfr)|].
  simpl. apply map_find_set_same.
Qed.

Lemma get_skip k st e0 e s s' v m x :
  s' <> s ->
  get k e0 s' st = Ok x st ->
  get k e0 s' (with_binding st e s v m) = Ok x (with_binding st e s v m).
Proof.
  intros Hne Hget. apply get_value.
  rewrite (get_other_name k e0 s s' v m st e Hne). now rewrite Hget.
Qed.

Lemma with_binding_stores st e s v m :
  maps (with_binding st e s v m) = maps st
  /\ vecs (with_binding st e s v m) = vecs st
  /\ cout (with_binding st e s v m) = cout st.
Proof.
  unfold with_binding. destruct (nth_error (envs st) e); auto.
Qed.

(** The frame of a call of a built-in property, and what it binds. *)
Lemma builtin_call_frame_bound k st callEnv fr ast receiver :
  nth_error (envs st) callEnv = Some fr ->
  let st' := builtin_call_frame st callEnv ast receiver in
  (initialize callEnv "__LINE__" (VLong (long_of_size_t (line ast))) false ;;
   initialize callEnv "__COLUMN__" (VLong (long_of_size_t (column ast))) false ;;
   initialize callEnv "this" receiver false) st = Ok tt st'
  /\ get (S k) callEnv "this" st' = Ok receiver st'
  /\ (forall s x, s <> "__LINE__" -> s <> "__COLUMN__" -> s <> "this" ->
                  get (S k) callEnv s st = Ok x st ->
                  get (S k) callEnv s st' = Ok x st')
  /\ maps st' = maps st /\ vecs st' = vecs st /\ cout st' = cout st.
Proof.
  intros Hfr st'.
  pose proof (with_binding_frame st callEnv fr "__LINE__"
                (VLong (long_of_size_t (line ast))) false Hfr) as H1.
  pose proof (with_binding_frame _ callEnv _ "__COLUMN__"
                (VLong (long_of_size_t (column ast))) false H1) as H2.
  split; [|split; [|split]].
  - rewrite (bind_ok _ _ _ _ _ (initialize_at _ _ _ _ _ _ Hfr)).
    rewrite (bind_ok _ _ _ _ _ (initialize_at _ _ _ _ _ _ H1)).
    exact (initialize_at _ _ _ _ _ _ H2).
  - exact (get_bound k _ callEnv _ "this" receiver false H2).
  - intros s x N1 N2 N3 Hget. unfold st', builtin_call_frame.
    apply get_skip; [exact N3|].
    apply get_skip; [exact N2|].
    apply get_skip; [exact N1|]. exact Hget.
  - unfold st', builtin_call_frame.
    repeat (match goal with
            | |- context [maps (with_binding ?s ?e ?n ?v ?m)] =>
                rewrite (proj1 (with_binding_stores s e n v m))
            | |- context [vecs (with_binding ?s ?e ?n ?v ?m)] =>
                rewrite (proj1 (proj2 (with_binding_stores s e n v m)))
            | |- context [cout (with_binding ?s ?e ?n ?v ?m)] =>
                rewrite (proj2 (proj2 (with_binding_stores s e n v m)))
            end).
    auto.
Qed.

Lemma get_property_of_array st a props nm :
  nth_error (maps st) (properties (as_object a)) = Some props ->
  get_property (VArray a) nm st
  = match map_find nm props with
    | Some v => Ok v st
    | None =>
        match map_find nm array_builtins with
        | Some v => Ok v st
        | None => Throw (out_of_range "map::at") st
        end
    end.
Proof.
  intros Hmap. unfold get_property, to_array. rewrite bind_ret.
  unfold object_get_property, deref. rewrite Hmap.
  destruct (map_find nm props); [reflexivity|].
  destruct (map_find nm array_builtins); reflexivity.
Qed.

(** The [DOT] suffix on an array that does not define the name itself. *)
Lemma dot_builtin_of_array ev fuel ast env a n st props prop :
  original_tag n = DOT ->
  nth_error (maps st) (properties (as_object a)) = Some props ->
  map_find (token n) props = None ->
  map_find (token n) array_builtins = Some prop ->
  eval_suffix ev fuel ast env (VArray a) n st
  = Ok (bound_to (VArray a) prop) st.
Proof.
  intros Htag Hmap Hown Hbuiltin.
  unfold eval_suffix. rewrite Htag. simpl. unfold eval_dot.
  assert (Hgp : get_property (VArray a) (token n) st = Ok prop st).
  { rewrite (get_property_of_array st a props) by exact Hmap.
    now rewrite Hown, Hbuiltin. }
  rewrite (bind_ok _ _ _ _ _ Hgp).
  destruct prop; reflexivity.
Qed.

(** X10: [a.push(x)] on an array that does not define [push] itself
    evaluates [x] in the environment of the caller, appends its value to
    the vector the array shares with all its copies, leaves the other
    vectors as they are, and yields [Undefined]. *)
Theorem array_push k ast env a dotn argn x rest st props v st1 vs :
  original_tag dotn = DOT -> token dotn = "push" ->
  original_tag argn = ARGUMENTS -> nodes argn = x :: rest ->
  nth_error (maps st) (properties (as_object a)) = Some props ->
  map_find "push" props = None ->
  eval k x env (call_entry st (bound_to (VArray a) push_of_array)) = Ok v st1 ->
  nth_error (vecs st1) (values a) = Some vs ->
  exists st2,
    eval_call_loop (eval k) k ast env (VArray a) [dotn; argn] st
    = Ok VUndefined st2
    /\ nth_error (vecs st2) (values a) = Some (vs ++ [v])
    /\ (forall l, l <> values a -> nth_error (vecs st2) l = nth_error (vecs st1) l)
    /\ maps st2 = maps st1.
Proof.
  intros Hdot Hname Harg Hargs Hmap Hown Hx Hvs.
  destruct k as [|k]; [discriminate Hx|].
  set (callEnv := List.length (envs st)).
  assert (Hfr : exists fr, nth_error (envs st1) callEnv = Some fr).
  { pose proof (mono_eval (S k) x env
                  (call_entry st (bound_to (VArray a) push_of_array))) as Hg.
    rewrite Hx in Hg. destruct Hg as [Hg _]. unfold call_entry in Hg.
    simpl in Hg. rewrite length_app in Hg. simpl in Hg.
    destruct (nth_error (envs st1) callEnv) as [fr|] eqn:E; [now exists fr|].
    apply nth_error_None in E. unfold callEnv in E. lia. }
  destruct Hfr as [fr Hfr].
  set (sA := with_binding st1 callEnv "arg" v false).
  pose proof (with_binding_frame st1 callEnv fr "arg" v false Hfr) as HfrA.
  fold sA in HfrA.
  destruct (builtin_call_frame_bound k sA callEnv _ ast (VArray a) HfrA)
    as [Hinit [Hthis [Hkeep [Hmaps [Hvecs _]]]]].
  set (sB := builtin_call_frame sA callEnv ast (VArray a)) in *.
  assert (Hgetarg : get (S k) callEnv "arg" sB = Ok v sB).
  { apply Hkeep; try discriminate. exact (get_bound k st1 callEnv fr "arg" v false Hfr). }
  assert (HvsB : nth_error (vecs sB) (values a) = Some vs).
  { rewrite Hvecs. unfold sA.
    now rewrite (proj1 (proj2 (with_binding_stores st1 callEnv "arg" v false))). }
  exists (with_pushed sB (values a) v).
  split; [|split; [|split]].
  - cbn [eval_call_loop].
    rewrite (bind_ok _ _ _ _ _
               (dot_builtin_of_array (eval (S k)) (S k) ast env a dotn st props
                  push_of_array Hdot Hmap
                  ltac:(rewrite Hname; exact Hown)
                  ltac:(rewrite Hname; reflexivity))).
    rewrite bind_ok with (a := VUndefined) (st' := with_pushed sB (values a) v);
      [reflexivity|].
    unfold eval_suffix. rewrite Harg.
    change (tag_eqb ARGUMENTS ARGUMENTS) with true. cbv iota.
    unfold bound_to, push_of_array.
    rewrite eval_arguments_enough by (rewrite Hargs; simpl; lia).
    fold callEnv. rewrite Hargs.
    cbn [params bind_params name mut fn_eval].
    assert (Hbp : (v0 <- eval (S k) x env ;;
                   initialize callEnv "arg" v0 false ;; ret tt)
                    (call_entry st (bound_to (VArray a) push_of_array))
                  = Ok tt sA).
    { rewrite (bind_ok _ _ _ _ _ Hx).
      now rewrite (bind_ok _ _ _ _ _ (initialize_at _ _ _ "arg" v false Hfr)). }
    unfold bound_to, push_of_array in Hbp. cbn [params] in Hbp.
    rewrite (bind_ok _ _ _ _ _ Hbp).
    cbn [invoke].
    unfold bind in Hinit |- *.
    destruct (initialize callEnv "__LINE__"
                (VLong (long_of_size_t (line ast))) false sA)
      as [u1 s1| | |]; try discriminate Hinit.
    destruct (initialize callEnv "__COLUMN__"
                (VLong (long_of_size_t (column ast))) false s1)
      as [u2 s2| | |]; try discriminate Hinit.
    rewrite Hinit, Hthis, Hgetarg. simpl.
    unfold push_back, deref. rewrite HvsB.
    unfold with_pushed. now rewrite HvsB.
  - unfold with_pushed. rewrite HvsB. simpl.
    apply nth_error_list_set_same. apply nth_error_Some. congruence.
  - intros l Hne. unfold with_pushed. rewrite HvsB. simpl.
    rewrite nth_error_list_set_other by congruence.
    rewrite Hvecs. unfold sA.
    now rewrite (proj1 (proj2 (with_binding_stores st1 callEnv "arg" v false))).
  - unfold with_pushed. rewrite HvsB. simpl. rewrite Hmaps. unfold sA.
    now rewrite (proj1 (with_binding_stores st1 callEnv "arg" v false)).
Qed.

Lemma array_push_witness :
  exists st2,
    eval_call_loop (eval 1) 1%nat index_1 root (VArray the_array)
      [dot "push"; arguments_40] array_state
    = Ok VUndefined st2
    /\ nth_error (vecs st2) 0%nat
       = Some ([VLong 10; VLong 20; VLong 30] ++ [VLong 40]).
Proof.
  destruct (array_push 1 index_1 root the_array (dot "push") arguments_40
              (tk NUMBER EXPRESSION 1 19 "40") [] array_state [] (VLong 40)
              (call_entry array_state (bound_to (VArray the_array) push_of_array))
              [VLong 10; VLong 20; VLong 30]
              eq_refl eq_refl eq_refl eq_refl eq_refl eq_refl eq_refl eq_refl)
    as [st2 [Hcall [Hvec _]]].
  exists st2. split; [exact Hcall | exact Hvec].
Defined.

Lemma dot_builtin_of_object ev fuel ast env o n st props prop :
  original_tag n = DOT ->
  nth_error (maps st) (properties o) = Some props ->
  map_find (token n) props = None ->
  map_find (token n) object_builtins = Some prop ->
  eval_suffix ev fuel ast env (VObject o) n st
  = Ok (bound_to (VObject o) prop) st.
Proof.
  intros Htag Hmap Hown Hbuiltin.
  unfold eval_suffix. rewrite Htag. simpl. unfold eval_dot.
  assert (Hgp : get_property (VObject o) (token n) st = Ok prop st).
  { rewrite (get_property_of_object st o props) by exact Hmap.
    now rewrite Hown, Hbuiltin. }
  rewrite (bind_ok _ _ _ _ _ Hgp).
  destruct prop; reflexivity.
Qed.

(** A call, without parameters, of a built-in property bound to a
    receiver: the closure runs in the call frame. *)
Lemma call_builtin_without_params ev k ast env receiver c argn st :
  original_tag argn = ARGUMENTS ->
  let callEnv := List.length (envs st) in
  let fv := VFunction (mkFunction [] (BoundFn receiver (mkFunction [] c))) in
  let st' := builtin_call_frame (call_entry st fv) callEnv ast receiver in
  eval_suffix ev (S k) ast env fv argn st = invoke ev (S k) c callEnv st'
  /\ get (S k) callEnv "this" st' = Ok receiver st'
  /\ maps st' = maps st /\ vecs st' = vecs st /\ cout st' = cout st.
Proof.
  intros Harg callEnv fv st'.
  assert (Hfr : nth_error (envs (call_entry st fv)) callEnv
                = Some (mkEnvironment None [("self", mkSymbol fv false)])).
  { unfold call_entry. simpl. apply nth_error_app_last. }
  destruct (builtin_call_frame_bound k (call_entry st fv) callEnv _ ast receiver Hfr)
    as [Hinit [Hthis [_ Hstores]]].
  fold st' in Hinit, Hthis, Hstores.
  split; [|split; [exact Hthis | exact Hstores]].
  unfold eval_suffix. rewrite Harg.
  change (tag_eqb ARGUMENTS ARGUMENTS) with true. cbv iota.
  unfold fv. rewrite eval_arguments_enough by (simpl; lia).
  fold fv. fold callEnv.
  cbn [params bind_params fn_eval]. rewrite bind_ret.
  cbn [invoke].
  unfold bind in Hinit |- *.
  destruct (initialize callEnv "__LINE__"
              (VLong (long_of_size_t (line ast))) false (call_entry st fv))
    as [u1 s1| | |]; try discriminate Hinit.
  destruct (initialize callEnv "__COLUMN__"
              (VLong (long_of_size_t (column ast))) false s1)
    as [u2 s2| | |]; try discriminate Hinit.
  now rewrite Hinit.
Qed.

(** X11: [a.size()] on an array that does not define [size] itself is
    the number of its elements, and [o.size()] on an object that does not
    define [size] is the number of its properties; arguments, if any, are
    not evaluated, and neither the vectors nor the property maps change. *)
Theorem size_calls ev k ast env dotn argn st :
  original_tag dotn = DOT -> token dotn = "size" ->
  original_tag argn = ARGUMENTS ->
  (forall a props vs,
      nth_error (maps st) (properties (as_object a)) = Some props ->
      map_find "size" props = None ->
      nth_error (vecs st) (values a) = Some vs ->
      exists st2,
        eval_call_loop ev (S k) ast env (VArray a) [dotn; argn] st
        = Ok (VLong (Z.of_nat (List.length vs))) st2
        /\ maps st2 = maps st /\ vecs st2 = vecs st)
  /\ (forall o props,
         nth_error (maps st) (properties o) = Some props ->
         map_find "size" props = None ->
         exists st2,
           eval_call_loop ev (S k) ast env (VObject o) [dotn; argn] st
           = Ok (VLong (Z.of_nat (List.length props))) st2
           /\ maps st2 = maps st /\ vecs st2 = vecs st).
Proof.
  intros Hdot Hname Harg. split.
  - intros a props vs Hmap Hown Hvs.
    destruct (call_builtin_without_params ev k ast env (VArray a) ArraySize
                argn st Harg) as [Hcall [Hthis [Hmaps [Hvecs _]]]].
    eexists. split; [|split; [exact Hmaps | exact Hvecs]].
    cbn [eval_call_loop].
    rewrite (bind_ok _ _ _ _ _
               (dot_builtin_of_array ev (S k) ast env a dotn st props
                  size_of_array Hdot Hmap
                  ltac:(rewrite Hname; exact Hown)
                  ltac:(rewrite Hname; reflexivity))).
    unfold bound_to, size_of_array. cbn [params].
    rewrite bind_ok with (a := VLong (Z.of_nat (List.length vs)))
      (st' := builtin_call_frame
                (call_entry st (VFunction (mkFunction []
                   (BoundFn (VArray a) (mkFunction [] ArraySize)))))
                (List.length (envs st)) ast (VArray a));
      [reflexivity|].
    rewrite Hcall. cbn [invoke].
    rewrite (bind_ok _ _ _ _ _ Hthis). simpl to_array. rewrite bind_ret.
    unfold deref. now rewrite Hvecs, Hvs.
  - intros o props Hmap Hown.
    destruct (call_builtin_without_params ev k ast env (VObject o) ObjectSize
                argn st Harg) as [Hcall [Hthis [Hmaps [Hvecs _]]]].
    eexists. split; [|split; [exact Hmaps | exact Hvecs]].
    cbn [eval_call_loop].
    rewrite (bind_ok _ _ _ _ _
               (dot_builtin_of_object ev (S k) ast env o dotn st props
                  size_of_object Hdot Hmap
                  ltac:(rewrite Hname; exact Hown)
                  ltac:(rewrite Hname; reflexivity))).
    unfold bound_to, size_of_object. cbn [params].
    rewrite bind_ok with (a := VLong (Z.of_nat (List.length props)))
      (st' := builtin_call_frame
                (call_entry st (VFunction (mkFunction []
                   (BoundFn (VObject o) (mkFunction [] ObjectSize)))))
                (List.length (envs st)) ast (VObject o));
      [reflexivity|].
    rewrite Hcall. cbn [invoke].
    rewrite (bind_ok _ _ _ _ _ Hthis). simpl to_object. rewrite bind_ret.
    unfold deref. now rewrite Hmaps, Hmap.
Qed.

Lemma size_calls_witness :
  exists st2,
    eval_call_loop (eval 1) 1%nat index_1 root (VArray the_array)
      [dot "size"; arguments_40] array_state
    = Ok (VLong 3) st2.
Proof.
  destruct (proj1 (size_calls (eval 1) 0%nat index_1 root (dot "size")
                     arguments_40 array_state eq_refl eq_refl eq_refl)
              the_array [] [VLong 10; VLong 20; VLong 30]
              eq_refl eq_refl eq_refl) as [st2 [Hcall _]].
  exists st2. exact Hcall.
Defined.

(** ** Arithmetic *)

Lemma wrap_in_long z : in_long (wrap z).
Proof.
  unfold in_long, wrap, LONG_MIN, LONG_MAX.
  pose proof (Z.mod_pos_bound (z + 2 ^ 63) (2 ^ 64) ltac:(lia)). lia.
Qed.

Lemma quot_in_long r v :
  in_long r -> in_long v -> v <> 0 -> ~ (r = LONG_MIN /\ v = -1) ->
  in_long (Z.quot r v).
Proof.
  unfold in_long, LONG_MIN, LONG_MAX. intros Hr Hv Hnz Hmin.
  destruct (Z.eq_dec v 1) as [->|H1]; [rewrite Z.quot_1_r; lia|].
  destruct (Z.eq_dec v (-1)) as [->|H2].
  - change (-1) with (- (1)). rewrite Z.quot_opp_r by lia.
    rewrite Z.quot_1_r. lia.
  - pose proof (Z.quot_abs r v Hnz) as Habs.
    pose proof (Z.mul_quot_le (Z.abs r) (Z.abs v) ltac:(lia) ltac:(lia)) as Hle.
    rewrite Habs in Hle. lia.
Qed.

Lemma rem_in_long r v : in_long v -> v <> 0 -> in_long (Z.rem r v).
Proof.
  unfold in_long, LONG_MIN, LONG_MAX. intros Hv Hnz.
  pose proof (Z.rem_bound_abs r v Hnz). lia.
Qed.

(** X12: on operands that are representable as [long], an arithmetic
    step that returns leaves the state alone and returns a value that is
    representable as [long]; a quotient [q] comes with the remainder [m]
    that [%] returns on the same operands, with [r = v * q + m],
    [|m| < |v|] and [m] of the sign of the dividend, so that division
    truncates toward zero. *)
Theorem arithmetic_step ope r v st z st' :
  in_long r -> in_long v ->
  bin_op ope r v st = Ok z st' ->
  st' = st
  /\ in_long z
  /\ (ope = "/"%char ->
      exists m, bin_op "%" r v st = Ok m st
                /\ r = v * z + m /\ Z.abs m < Z.abs v /\ 0 <= m * r).
Proof.
  intros Hr Hv. unfold bin_op.
  destruct (Ascii.eqb_spec ope "+") as [->|Hp].
  { unfold ret. intros H. inversion H; subst.
    split; [reflexivity|]. split; [apply wrap_in_long | discriminate]. }
  destruct (Ascii.eqb_spec ope "-") as [->|Hm].
  { unfold ret. intros H. inversion H; subst.
    split; [reflexivity|]. split; [apply wrap_in_long | discriminate]. }
  destruct (Ascii.eqb_spec ope "*") as [->|Ht].
  { unfold ret. intros H. inversion H; subst.
    split; [reflexivity|]. split; [apply wrap_in_long | discriminate]. }
  destruct (Ascii.eqb_spec ope "/") as [->|Hd].
  { destruct ((v =? 0) || ((r =? LONG_MIN) && (v =? -1)))%bool eqn:E;
      [discriminate|].
    apply orb_false_iff in E. destruct E as [Hnz Hmin].
    apply Z.eqb_neq in Hnz. apply andb_false_iff in Hmin.
    unfold ret. intros H. inversion H; subst.
    split; [reflexivity|]. split.
    - apply quot_in_long; auto.
      intros [-> ->]. destruct Hmin as [Hmin|Hmin]; discriminate Hmin.
    - intros _. exists (Z.rem r v). split; [reflexivity|].
      split; [apply Z.quot_rem'|].
      split; [now apply Z.rem_bound_abs | now apply Z.rem_sign_mul]. }
  destruct (Ascii.eqb_spec ope "%") as [->|Hr'].
  { destruct ((v =? 0) || ((r =? LONG_MIN) && (v =? -1)))%bool eqn:E;
      [discriminate|].
    apply orb_false_iff in E. destruct E as [Hnz _]. apply Z.eqb_neq in Hnz.
    unfold ret. intros H. inversion H; subst.
    split; [reflexivity|]. split; [now apply rem_in_long | discriminate]. }
  unfold ret. intros H. inversion H; subst.
  split; [reflexivity|]. split; [exact Hr | contradiction].
Qed.

Lemma arithmetic_step_witness :
  bin_op "/" (-7) 2 prelude = Ok (-3) prelude
  /\ exists m, bin_op "%" (-7) 2 prelude = Ok m prelude
               /\ -7 = 2 * -3 + m /\ Z.abs m < Z.abs 2 /\ 0 <= m * -7.
Proof.
  assert (Hr : in_long (-7)) by (unfold in_long, LONG_MIN, LONG_MAX; lia).
  assert (Hv : in_long 2) by (unfold in_long, LONG_MIN, LONG_MAX; lia).
  assert (H : bin_op "/" (-7) 2 prelude = Ok (-3) prelude) by reflexivity.
  split; [exact H|].
  exact (proj2 (proj2 (arithmetic_step "/" (-7) 2 prelude (-3) prelude Hr Hv H))
           eq_refl).
Defined.

(** ** Number literals *)

Lemma uint_val_pos d p :
  uint_val d (Z.pos p) = Z.pos (Pos.of_uint_acc d p).
Proof.
  revert p. induction d as [|d IH|d IH|d IH|d IH|d IH|d IH|d IH|d IH|d IH|d IH];
    intros p; cbn [uint_val Pos.of_uint_acc]; [reflexivity| | | | | | | | | |];
    rewrite <- IH; f_equal; lia.
Qed.

Lemma uint_val_0 d : uint_val d 0 = Z.of_N (Pos.of_uint d).
Proof.
  induction d as [|d IH|d IH|d IH|d IH|d IH|d IH|d IH|d IH|d IH|d IH];
    cbn [uint_val Pos.of_uint]; [reflexivity | exact IH | | | | | | | | |];
    apply uint_val_pos.
Qed.

Lemma digits_uint d acc :
  digits (NilEmpty.string_of_uint d) (Some acc) = Some (uint_val d acc).
Proof.
  revert acc.
  induction d as [|d IH|d IH|d IH|d IH|d IH|d IH|d IH|d IH|d IH|d IH];
    intros acc; [reflexivity| | | | | | | | | |];
    cbn [NilEmpty.string_of_uint digits uint_val];
    match goal with
    | |- context [digit_of ?c] =>
        let x := eval vm_compute in (digit_of c) in
        change (digit_of c) with x
    end; cbv iota; apply IH.
Qed.

(** [stol] on the decimal digits of a number. *)
Lemma stol_uint d st :
  d <> Decimal.Nil ->
  stol (NilEmpty.string_of_uint d) st
  = if ((LONG_MIN <=? uint_val d 0) && (uint_val d 0 <=? LONG_MAX))%bool
    then Ok (uint_val d 0) st
    else Throw (out_of_range "stol") st.
Proof.
  intros Hd.
  assert (Hs : exists c s', NilEmpty.string_of_uint d = String c s'
             /\ isspace c = false /\ Ascii.eqb c "-" = false
             /\ Ascii.eqb c "+" = false
             /\ digits (String c s') None = digits (String c s') (Some 0)).
  { destruct d; try contradiction; simpl NilEmpty.string_of_uint;
      eexists; eexists; (split; [reflexivity|]);
      repeat split; reflexivity. }
  destruct Hs as [c [s' [Hs [Hsp [Hminus [Hplus Hdig]]]]]].
  pose proof (digits_uint d 0) as Hval. rewrite Hs in Hval |- *.
  unfold stol. cbn [skip_spaces]. rewrite Hsp.
  assert (Hsign : match String c s' with
                  | String "-"%char s0 => (true, s0)
                  | String "+"%char s0 => (false, s0)
                  | _ => (false, String c s')
                  end = (false, String c s')).
  { destruct c as [[] [] [] [] [] [] [] []]; try reflexivity;
      simpl in Hminus, Hplus; discriminate. }
  rewrite Hsign, Hdig, Hval.
  destruct ((LONG_MIN <=? uint_val d 0) && (uint_val d 0 <=? LONG_MAX))%bool;
    reflexivity.
Qed.

Lemma stol_to_string_long z st :
  stol (to_string_long z) st
  = if ((LONG_MIN <=? z) && (z <=? LONG_MAX))%bool then Ok z st
    else Throw (out_of_range "stol") st.
Proof.
  unfold to_string_long. destruct z as [|p|p].
  - reflexivity.
  - cbn [Z.to_int NilZero.string_of_int].
    pose proof (DecimalPos.Unsigned.to_uint_nonnil p) as Hnn.
    assert (Hstr : NilZero.string_of_uint (Pos.to_uint p)
                   = NilEmpty.string_of_uint (Pos.to_uint p)).
    { destruct (Pos.to_uint p); [contradiction | reflexivity ..]. }
    rewrite Hstr, (stol_uint _ st Hnn), uint_val_0.
    now rewrite DecimalPos.Unsigned.of_to.
  - cbn [Z.to_int NilZero.string_of_int].
    pose proof (DecimalPos.Unsigned.to_uint_nonnil p) as Hnn.
    assert (Hstr : NilZero.string_of_uint (Pos.to_uint p)
                   = NilEmpty.string_of_uint (Pos.to_uint p)).
    { destruct (Pos.to_uint p); [contradiction | reflexivity ..]. }
    rewrite Hstr. unfold stol. cbn [skip_spaces].
    change (isspace "-") with false. cbv iota.
    pose proof (digits_uint (Pos.to_uint p) 0) as Hval.
    assert (Hdig : digits (NilEmpty.string_of_uint (Pos.to_uint p)) None
                   = digits (NilEmpty.string_of_uint (Pos.to_uint p)) (Some 0)).
    { destruct (Pos.to_uint p); [contradiction | reflexivity ..]. }
    rewrite Hdig, Hval, uint_val_0, DecimalPos.Unsigned.of_to.
    cbn [Z.of_N Z.opp].
    destruct ((LONG_MIN <=? Z.neg p) && (Z.neg p <=? LONG_MAX))%bool;
      reflexivity.
Qed.

(** X13: a [NUMBER] token that holds the decimal text [str] prints for a
    [long] evaluates to that [long], and [str] of the result is the text
    again; the decimal text of a number that no [long] holds raises
    [std::out_of_range], which is not a [runtime_error]. *)
Theorem number_round_trip ev fuel ast env st z :
  tag ast = NUMBER ->
  token ast = to_string_long z ->
  (in_long z ->
   eval_body ev fuel ast env st = Ok (VLong z) st
   /\ str 1 (VLong z) st = Ok (token ast) st)
  /\ (~ in_long z ->
      eval_body ev fuel ast env st = Throw (out_of_range "stol") st).
Proof.
  intros Htag Htok. unfold eval_body. rewrite Htag. unfold eval_number.
  rewrite Htok. unfold bind. rewrite stol_to_string_long.
  unfold in_long. split.
  - intros [Hlo Hhi]. apply Z.leb_le in Hlo, Hhi. rewrite Hlo, Hhi.
    split; reflexivity.
  - intros Hout.
    destruct (LONG_MIN <=? z) eqn:Hlo; [|reflexivity].
    destruct (z <=? LONG_MAX) eqn:Hhi; [|reflexivity].
    apply Z.leb_le in Hlo, Hhi. exfalso. apply Hout. lia.
Qed.

Lemma number_round_trip_witness :
  eval 1 (number "9223372036854775807") root prelude
  = Ok (VLong 9223372036854775807) prelude
  /\ eval 1 (number "9223372036854775808") root prelude
     = Throw (out_of_range "stol") prelude.
Proof.
  split.
  - apply (proj1 (number_round_trip (eval 0) 0%nat
             (number "9223372036854775807") root prelude 9223372036854775807
             eq_refl eq_refl)).
    unfold in_long, LONG_MIN, LONG_MAX. lia.
  - apply (proj2 (number_round_trip (eval 0) 0%nat
             (number "9223372036854775808") root prelude 9223372036854775808
             eq_refl eq_refl)).
    unfold in_long, LONG_MIN, LONG_MAX. lia.
Defined.

(** ** Interpolated strings and arrays *)

Lemma concat_empty_cons (r : string) (rs : list string) :
  String.concat "" (r :: rs) = (r ++ String.concat "" rs)%string.
Proof.
  destruct rs as [|r' rs]; [simpl; now rewrite string_app_nil_r | reflexivity].
Qed.

Lemma interpolated_loop_rendered ev fuel env st ns rs st' :
  rendered ev fuel env st ns rs st' ->
  forall s,
    eval_interpolated_string_loop ev fuel env s ns st
    = Ok (s ++ String.concat "" rs)%string st'.
Proof.
  induction 1 as [st|st n v st1 r rest rs st2 Hv Hr _ IH]; intros s.
  - cbn [eval_interpolated_string_loop String.concat].
    now rewrite string_app_nil_r.
  - cbn [eval_interpolated_string_loop].
    rewrite (bind_ok _ _ _ _ _ Hv), (bind_ok _ _ _ _ _ Hr), IH.
    now rewrite concat_empty_cons, string_app_assoc.
Qed.

(** X14: an [INTERPOLATED_STRING] node evaluates its parts in order and
    yields the [String] that is the concatenation of their renderings by
    [str], the empty string when it has no part. *)
Theorem interpolation_concatenates ev fuel ast env st rs st' :
  tag ast = INTERPOLATED_STRING ->
  rendered ev fuel env st (nodes ast) rs st' ->
  eval_body ev fuel ast env st = Ok (VString (String.concat "" rs)) st'.
Proof.
  intros Htag Hr. unfold eval_body. rewrite Htag.
  unfold eval_interpolated_string.
  now rewrite (bind_ok _ _ _ _ _ (interpolated_loop_rendered _ _ _ _ _ _ _ Hr "")).
Qed.

Lemma interpolation_concatenates_witness :
  eval 2 interpolated root prelude = Ok (VString "a1btrue") prelude.
Proof.
  assert (Hr : rendered (eval 1) 1%nat root prelude (nodes interpolated)
                 ["a"; "1"; "b"; "true"] prelude).
  { apply rendered_cons with (v := VString "a") (st1 := prelude);
      [reflexivity | reflexivity |].
    apply rendered_cons with (v := VLong 1) (st1 := prelude);
      [reflexivity | reflexivity |].
    apply rendered_cons with (v := VString "b") (st1 := prelude);
      [reflexivity | reflexivity |].
    apply rendered_cons with (v := VBool true) (st1 := prelude);
      [reflexivity | reflexivity |].
    apply rendered_nil. }
  exact (interpolation_concatenates (eval 1) 1%nat interpolated root prelude
           ["a"; "1"; "b"; "true"] prelude eq_refl Hr).
Defined.

Lemma eval_array_loop_values ev env st ns vs st' :
  evaluated_to ev env st ns vs st' ->
  forall acc, eval_array_loop ev env acc ns st = Ok (acc ++ vs) st'.
Proof.
  induction 1 as [st|st n v st1 rest vs st2 Hv _ IH]; intros acc; simpl.
  - now rewrite app_nil_r.
  - rewrite (bind_ok _ _ _ _ _ Hv), IH. now rewrite <- app_assoc.
Qed.

Lemma evaluated_to_length ev env st ns vs st' :
  evaluated_to ev env st ns vs st' -> List.length vs = List.length ns.
Proof. induction 1; simpl; congruence. Qed.

(** X15: a node with the tag [ARRAY], which is what the parser delivers
    for an array literal with no element or with two or more, evaluates
    its elements in source order and yields an array with a fresh vector
    that holds their values, one for each element and in that order, and
    a fresh, empty property map; no existing vector or map is touched.
    A literal with one element is hoisted into that element and
    evaluates as the element does, not to an array: [[5]] is [Long(5)]. *)
Theorem array_literal :
  (forall ev fuel ast env st vs st',
      tag ast = ARRAY ->
      evaluated_to ev env st (nodes ast) vs st' ->
      let a := mkArray (List.length (maps st')) (List.length (vecs st')) in
      eval_body ev fuel ast env st = Ok (VArray a) (with_array st' vs)
      /\ nth_error (vecs st') (values a) = None
      /\ nth_error (vecs (with_array st' vs)) (values a) = Some vs
      /\ nth_error (maps (with_array st' vs)) (properties (as_object a))
         = Some []
      /\ List.length vs = List.length (nodes ast)
      /\ (forall l, (l < List.length (vecs st'))%nat ->
             nth_error (vecs (with_array st' vs)) l = nth_error (vecs st') l))
  /\ (forall l c o tok s xs,
      List.length xs <> 1%nat ->
      optimize (mkAst l c ARRAY o tok s xs)
      = mkAst l c ARRAY o tok s (map optimize xs))
  /\ (forall fuel l c o tok s x env st,
      eval fuel (optimize (mkAst l c ARRAY o tok s [x])) env st
      = eval fuel (optimize x) env st)
  /\ eval 2 (optimize array_5) root prelude = Ok (VLong 5) prelude.
Proof.
  split; [|split; [|split]].
  - intros ev fuel ast env st vs st' Htag Hvs a.
    split; [|split; [|split; [|split; [|split]]]].
    + unfold eval_body. rewrite Htag. unfold eval_array.
      now rewrite (bind_ok _ _ _ _ _ (eval_array_loop_values _ _ _ _ _ _ Hvs [])).
    + apply nth_error_None. simpl. lia.
    + simpl. apply nth_error_app_last.
    + simpl. apply nth_error_app_last.
    + exact (evaluated_to_length _ _ _ _ _ _ Hvs).
    + intros l Hl. simpl. now rewrite nth_error_app1.
  - intros l c o tok s [|x [|y rest]] Hlen; [reflexivity | | reflexivity].
    exfalso. apply Hlen. reflexivity.
  - intros. now apply eval_hoisted.
  - vm_compute. reflexivity.
Qed.

Lemma array_literal_witness :
  eval 2 array_10_20_30 root prelude
  = Ok (VArray the_array) (with_array prelude [VLong 10; VLong 20; VLong 30]).
Proof.
  assert (Hvs : evaluated_to (eval 1) root prelude (nodes array_10_20_30)
                  [VLong 10; VLong 20; VLong 30] prelude).
  { apply evaluated_to_cons with (st1 := prelude); [reflexivity|].
    apply evaluated_to_cons with (st1 := prelude); [reflexivity|].
    apply evaluated_to_cons with (st1 := prelude); [reflexivity|].
    apply evaluated_to_nil. }
  exact (proj1 (proj1 array_literal (eval 1) 1%nat array_10_20_30 root prelude
                  [VLong 10; VLong 20; VLong 30] prelude eq_refl Hvs)).
Defined.

Lemma str_array_loop_rest f st vs rs :
  Forall2 (fun v r => f v st = Ok r st) vs rs ->
  forall s,
    str_array_loop f false vs s st = Ok (s ++ prefixed rs)%string st.
Proof.
  induction 1 as [|v r vs rs Hr _ IH]; intros s.
  - cbn [str_array_loop prefixed]. now rewrite string_app_nil_r.
  - cbn [str_array_loop prefixed].
    rewrite (bind_ok _ _ _ _ _ Hr), IH.
    now rewrite !string_app_assoc.
Qed.

(** X16: [str] of an array is [[], the renderings of its elements in
    order separated by [, ], and []]; the state is not changed. *)
Theorem str_array_rendering fuel st a vs rs :
  nth_error (vecs st) (values a) = Some vs ->
  Forall2 (fun v r => str fuel v st = Ok r st) vs rs ->
  str (S fuel) (VArray a) st
  = Ok ("[" ++ String.concat ", " rs ++ "]")%string st.
Proof.
  intros Hvs Hrs.
  change (str (S fuel) (VArray a) st) with (str_array (str fuel) (VArray a) st).
  unfold str_array, to_array. rewrite bind_ret. unfold deref. rewrite Hvs.
  destruct Hrs as [|v r vs rs Hr Hrest].
  - reflexivity.
  - assert (Hloop : str_array_loop (str fuel) true (v :: vs) "[" st
                    = Ok ("[" ++ String.concat ", " (r :: rs))%string st).
    { cbn [str_array_loop]. cbv beta in Hr.
      rewrite (bind_ok _ _ _ _ _ Hr).
      rewrite (str_array_loop_rest _ _ _ _ Hrest).
      now rewrite concat_prefixed, string_app_assoc. }
    rewrite (bind_ok _ _ _ _ _ Hloop). unfold ret.
    now rewrite !string_app_assoc.
Qed.

Lemma str_array_rendering_witness :
  str 2 (VArray the_array) array_state = Ok "[10, 20, 30]" array_state.
Proof.
  assert (Hrs : Forall2 (fun v r => str 1 v array_state = Ok r array_state)
                  [VLong 10; VLong 20; VLong 30] ["10"; "20"; "30"]).
  { constructor; [reflexivity|]. constructor; [reflexivity|].
    constructor; [reflexivity|]. constructor. }
  exact (str_array_rendering 1%nat array_state the_array
           [VLong 10; VLong 20; VLong 30] ["10"; "20"; "30"] eq_refl Hrs).
Defined.

Lemma str_scalar v st :
  is_scalar v = true -> forall k, exists r, str (S k) v st = Ok r st.
Proof.
  destruct v; simpl; intros H k; try discriminate; eexists; reflexivity.
Qed.

Lemma str_array_loop_stuck f st pre v post :
  Forall (fun x => exists r, f x st = Ok r st) pre ->
  f v st = OutOfFuel ->
  forall first s, str_array_loop f first (pre ++ v :: post) s st = OutOfFuel.
Proof.
  intros Hpre Hv. induction Hpre as [|x pre [r Hr] _ IH]; intros first s; simpl.
  - now unfold bind; rewrite Hv.
  - rewrite (bind_ok _ _ _ _ _ Hr). apply IH.
Qed.

(** X17: [str] of an array that holds itself, after elements that are
    neither objects nor arrays, does not come to an end: whatever the
    fuel, the rendering runs out of it. *)
Theorem str_of_cyclic_array st a pre post :
  nth_error (vecs st) (values a) = Some (pre ++ VArray a :: post) ->
  forallb is_scalar pre = true ->
  forall fuel, str fuel (VArray a) st = OutOfFuel.
Proof.
  intros Hvs Hpre fuel. induction fuel as [|k IH]; [reflexivity|].
  change (str (S k) (VArray a) st) with (str_array (str k) (VArray a) st).
  unfold str_array, to_array. rewrite bind_ret.
  unfold deref. rewrite Hvs.
  destruct k as [|k].
  - destruct pre; reflexivity.
  - unfold bind. rewrite str_array_loop_stuck; [reflexivity| |exact IH].
    rewrite forallb_forall in Hpre. apply Forall_forall.
    intros x Hx. apply str_scalar. now apply Hpre.
Qed.

Lemma str_of_cyclic_array_witness :
  str 100 (VArray (mkArray 0%nat 0%nat)) cyclic_state = OutOfFuel.
Proof.
  exact (str_of_cyclic_array cyclic_state (mkArray 0%nat 0%nat) [VLong 1] []
           eq_refl eq_refl 100%nat).
Defined.

(** ** Operands that do not coerce *)

Lemma to_long_type_error v st :
  type_of v <> Bool -> type_of v <> Long ->
  to_long v st = Throw (runtime_error "type error.") st.
Proof. destruct v; simpl; intros H1 H2; try reflexivity; congruence. Qed.

(** X18: every operand of [||] and [&&] that is evaluated must be a
    [Bool] or a [Long], the last one too: when the operands before [x]
    have not decided the result and [x] evaluates to a value of another
    kind, the node raises [type error.] instead of returning that
    value. *)
Theorem logical_operand_must_coerce ev fuel ast env pre x post st st1 v st2 :
  nodes ast = pre ++ x :: post ->
  ev x env st1 = Ok v st2 ->
  type_of v <> Bool -> type_of v <> Long ->
  (tag ast = LOGICAL_OR ->
   (1 < List.length (nodes ast))%nat ->
   operands ev env false st pre st1 ->
   eval_body ev fuel ast env st = Throw (runtime_error "type error.") st2)
  /\ (tag ast = LOGICAL_AND ->
      operands ev env true st pre st1 ->
      eval_body ev fuel ast env st = Throw (runtime_error "type error.") st2).
Proof.
  intros Hn Hx H1 H2.
  pose proof (to_bool_type_error v st2 H1 H2) as Hb.
  split; [intros Htag Hlen Hpre | intros Htag Hpre];
    unfold eval_body; rewrite Htag.
  - unfold eval_logical_or.
    apply Nat.ltb_lt in Hlen. rewrite Hlen. simpl. rewrite bind_ret, Hn.
    eapply logical_or_loop_throws; eassumption.
  - unfold eval_logical_and. rewrite Hn.
    eapply logical_and_loop_throws; eassumption.
Qed.

Lemma logical_operand_must_coerce_witness :
  eval 2 false_or_string root prelude
  = Throw (runtime_error "type error.") prelude.
Proof.
  assert (Hpre : operands (eval 1) root false prelude
                   [tk BOOLEAN LOGICAL_AND 1 1 "false"] prelude).
  { apply operands_cons with (v := VBool false) (st1 := prelude);
      [reflexivity | reflexivity | apply operands_nil]. }
  apply (proj1 (logical_operand_must_coerce (eval 1) 1%nat false_or_string root
           [tk BOOLEAN LOGICAL_AND 1 1 "false"]
           (tk STRING LOGICAL_AND 1 10 "abc") [] prelude prelude
           (VString "abc") prelude eq_refl eq_refl
           ltac:(discriminate) ltac:(discriminate))).
  - reflexivity.
  - simpl. lia.
  - exact Hpre.
Defined.

(** ** Unary operators *)

(** X19: unary [+] returns the value of its operand as it is, of
    whatever kind, without any coercion; unary [-] takes the operand
    through [to_long] and yields a [Long], so that a [Bool] is negated as
    0 or 1; unary [!] takes it through [to_bool] and yields a [Bool]; both
    raise [type error.] on an operand of another kind.  The operator
    token is not evaluated. *)
Theorem unary_operators ev fuel ast env o x st v st1 :
  nodes ast = [o; x] ->
  ev x env st = Ok v st1 ->
  (tag ast = UNARY_PLUS -> eval_body ev fuel ast env st = Ok v st1)
  /\ (tag ast = UNARY_MINUS ->
      (forall l, to_long v st1 = Ok l st1 ->
                 eval_body ev fuel ast env st = Ok (VLong (wrap (- l))) st1)
      /\ (type_of v <> Bool -> type_of v <> Long ->
          eval_body ev fuel ast env st
          = Throw (runtime_error "type error.") st1))
  /\ (tag ast = UNARY_NOT ->
      (forall b, to_bool v st1 = Ok b st1 ->
                 eval_body ev fuel ast env st = Ok (VBool (negb b)) st1)
      /\ (type_of v <> Bool -> type_of v <> Long ->
          eval_body ev fuel ast env st
          = Throw (runtime_error "type error.") st1)).
Proof.
  intros Hn Hx.
  split; [|split]; intros Htag; unfold eval_body; rewrite Htag.
  - unfold eval_unary_plus, node_at. rewrite Hn. simpl.
    now rewrite !bind_ret.
  - unfold eval_unary_minus, node_at. rewrite Hn. simpl. rewrite !bind_ret.
    rewrite (bind_ok _ _ _ _ _ Hx). split.
    + intros l Hl. rewrite (bind_ok _ _ _ _ _ Hl). unfold ret.
      do 2 f_equal. f_equal. lia.
    + intros H1 H2.
      now rewrite (bind_throw _ _ _ _ _ (to_long_type_error v st1 H1 H2)).
  - unfold eval_unary_not, node_at. rewrite Hn. simpl. rewrite !bind_ret.
    rewrite (bind_ok _ _ _ _ _ Hx). split.
    + intros b Hb. now rewrite (bind_ok _ _ _ _ _ Hb).
    + intros H1 H2.
      now rewrite (bind_throw _ _ _ _ _ (to_bool_type_error v st1 H1 H2)).
Qed.

Lemma unary_operators_witness :
  eval 2 minus_true root prelude = Ok (VLong (-1)) prelude.
Proof.
  exact (proj1 (proj1 (proj2 (unary_operators (eval 1) 1%nat minus_true root
           (tk UNARY_MINUS_OPERATOR UNARY_MINUS_OPERATOR 1 1 "-")
           (tk BOOLEAN UNARY_NOT 1 2 "true") prelude (VBool true) prelude
           eq_refl eq_refl)) eq_refl) 1 eq_refl).
Defined.

(** ** What evaluation leaves in place *)

Lemma prefix_of_refl {A} (l : list A) : prefix_of l l.
Proof. exists []. now rewrite app_nil_r. Qed.

Lemma prefix_of_trans {A} (l1 l2 l3 : list A) :
  prefix_of l1 l2 -> prefix_of l2 l3 -> prefix_of l1 l3.
Proof.
  intros [t1 ->] [t2 ->]. exists (t1 ++ t2). now rewrite app_assoc.
Qed.

Lemma prefix_of_nth_error {A} (l l' : list A) i x :
  prefix_of l l' -> nth_error l i = Some x -> nth_error l' i = Some x.
Proof.
  intros [t ->] H. rewrite nth_error_app1; [exact H|].
  apply nth_error_Some. congruence.
Qed.

Lemma store_extends_refl st : store_extends st st.
Proof.
  split; [apply prefix_of_refl|]. split; [|apply prefix_of_refl].
  intros l vs H. exists vs. split; [exact H | apply prefix_of_refl].
Qed.

Lemma store_extends_trans st1 st2 st3 :
  store_extends st1 st2 -> store_extends st2 st3 -> store_extends st1 st3.
Proof.
  intros [Hm1 [Hv1 Hc1]] [Hm2 [Hv2 Hc2]].
  split; [eapply prefix_of_trans; eassumption|].
  split; [|eapply prefix_of_trans; eassumption].
  intros l vs H. destruct (Hv1 l vs H) as [vs1 [H1 P1]].
  destruct (Hv2 l vs1 H1) as [vs2 [H2 P2]].
  exists vs2. split; [exact H2 | eapply prefix_of_trans; eassumption].
Qed.

(** The states that differ in the environments only. *)
Lemma store_extends_envs st es :
  store_extends st (mkState es (maps st) (vecs st) (cout st)).
Proof.
  split; [apply prefix_of_refl|]. split; [|apply prefix_of_refl].
  intros l vs H. exists vs. split; [exact H | apply prefix_of_refl].
Qed.

Create HintDb kept.

Lemma kept_ret {A} (a : A) : kept (ret a).
Proof. intros st. apply store_extends_refl. Qed.

Lemma kept_throw {A} e : kept (@throw A e).
Proof. intros st. apply store_extends_refl. Qed.

Lemma kept_abort {A} : kept (@abort A).
Proof. intros st. exact I. Qed.

Lemma kept_out_of_fuel {A} : kept (@out_of_fuel A).
Proof. intros st. exact I. Qed.

Lemma kept_bind {A B} (m : M A) (f : A -> M B) :
  kept m -> (forall a, kept (f a)) -> kept (bind m f).
Proof.
  intros Hm Hf st. unfold bind.
  specialize (Hm st). destruct (m st) as [a st'| | |]; auto.
  specialize (Hf a st'). destruct (f a st'); auto;
    eapply store_extends_trans; eassumption.
Qed.

Lemma kept_deref {A B} sel l (k : A -> M B) :
  (forall a, kept (k a)) -> kept (deref sel l k).
Proof.
  intros Hk st. unfold deref.
  destruct (nth_error (sel st) l); [apply Hk | exact I].
Qed.

Lemma kept_set_frame e fr : kept (set_frame e fr).
Proof. intros st. apply store_extends_envs. Qed.

Lemma kept_new_environment : kept new_environment.
Proof. intros st. apply store_extends_envs. Qed.

Lemma kept_new_map m : kept (new_map m).
Proof.
  intros st. split; [now exists [m]|]. split; [|apply prefix_of_refl].
  intros l vs H. exists vs. split; [exact H | apply prefix_of_refl].
Qed.

Lemma kept_new_vec vs : kept (new_vec vs).
Proof.
  intros st. split; [apply prefix_of_refl|]. split; [|apply prefix_of_refl].
  intros l ws H. exists ws. split; [|apply prefix_of_refl].
  simpl. rewrite nth_error_app1; [exact H|].
  apply nth_error_Some. congruence.
Qed.

Lemma kept_print_line s : kept (print_line s).
Proof.
  intros st. split; [apply prefix_of_refl|]. split; [|now exists [s]].
  intros l vs H. exists vs. split; [exact H | apply prefix_of_refl].
Qed.

Lemma kept_push_back l v : kept (push_back l v).
Proof.
  intros st. unfold push_back, deref.
  destruct (nth_error (vecs st) l) as [vs|] eqn:E; [|exact I].
  split; [apply prefix_of_refl|]. split; [|apply prefix_of_refl].
  intros l' ws H. simpl.
  destruct (Nat.eq_dec l l') as [<-|Hne].
  - exists (vs ++ [v]). split.
    + apply nth_error_list_set_same. apply nth_error_Some. congruence.
    + assert (ws = vs) as -> by congruence. now exists [v].
  - exists ws. split; [|apply prefix_of_refl].
    now rewrite nth_error_list_set_other.
Qed.

#[local] Hint Resolve kept_ret kept_throw kept_abort kept_out_of_fuel
  kept_set_frame kept_new_environment kept_new_map kept_new_vec
  kept_print_line kept_push_back : kept.

(** Breaks a computation down along its binds and case distinctions. *)
Ltac kept_step :=
  match goal with
  | |- kept (bind _ _) => apply kept_bind
  | |- kept (deref _ _ _) => apply kept_deref
  | |- kept (match ?x with _ => _ end) => destruct x
  | |- forall _, _ => intro
  | |- kept _ => solve [auto with kept]
  end.

Ltac kept_tac := repeat kept_step.

Lemma kept_to_bool v : kept (to_bool v).
Proof. unfold to_bool, type_error. kept_tac. Qed.

Lemma kept_to_long v : kept (to_long v).
Proof. unfold to_long, type_error. kept_tac. Qed.

Lemma kept_to_string v : kept (to_string v).
Proof. unfold to_string, type_error. kept_tac. Qed.

Lemma kept_to_function v : kept (to_function v).
Proof. unfold to_function, type_error. kept_tac. Qed.

Lemma kept_to_object v : kept (to_object v).
Proof. unfold to_object, type_error. kept_tac. Qed.

Lemma kept_to_array v : kept (to_array v).
Proof. unfold to_array, type_error. kept_tac. Qed.

#[local] Hint Resolve kept_to_bool kept_to_long kept_to_string
  kept_to_function kept_to_object kept_to_array : kept.

Lemma kept_str_object_loop (f : Value -> M string) :
  (forall v, kept (f v)) ->
  forall props first s, kept (str_object_loop f first props s).
Proof.
  intros Hf props. induction props as [|[k v] props IH]; intros first s; simpl.
  - auto with kept.
  - apply kept_bind; [apply Hf | intros r; apply IH].
Qed.

Lemma kept_str_array_loop (f : Value -> M string) :
  (forall v, kept (f v)) ->
  forall vs first s, kept (str_array_loop f first vs s).
Proof.
  intros Hf vs. induction vs as [|v vs IH]; intros first s; simpl.
  - auto with kept.
  - apply kept_bind; [apply Hf | intros r; apply IH].
Qed.

Lemma kept_str fuel v : kept (str fuel v).
Proof.
  revert v. induction fuel as [|k IH]; intros v; simpl.
  - auto with kept.
  - pose proof (kept_str_object_loop (str k) IH) as Ho.
    pose proof (kept_str_array_loop (str k) IH) as Ha.
    unfold str_body, str_object, str_array. kept_tac.
Qed.

Lemma kept_compare_values ope lhs rhs : kept (compare_values ope lhs rhs).
Proof.
  unfold compare_values, value_eq, value_ne, value_le, value_lt, value_ge,
    value_gt, value_eq, internal_error.
  kept_tac.
Qed.

Lemma kept_append_outer fuel e o : kept (append_outer fuel e o).
Proof.
  revert e. induction fuel as [|k IH]; intros e; simpl; kept_tac.
Qed.

Lemma kept_has fuel e s : kept (has fuel e s).
Proof.
  revert e. induction fuel as [|k IH]; intros e; simpl; kept_tac.
Qed.

Lemma kept_get fuel e s : kept (get fuel e s).
Proof.
  revert e. induction fuel as [|k IH]; intros e; simpl; kept_tac.
Qed.

Lemma kept_assign fuel e s v : kept (assign fuel e s v).
Proof.
  revert e. induction fuel as [|k IH]; intros e; simpl.
  - auto with kept.
  - pose proof (kept_has k) as Hh. unfold internal_error. kept_tac.
Qed.

Lemma kept_initialize e s v m : kept (initialize e s v m).
Proof. unfold initialize. kept_tac. Qed.

Lemma kept_get_property v nm : kept (get_property v nm).
Proof.
  unfold get_property, object_get_property, type_error. kept_tac.
Qed.

Lemma kept_stol s : kept (stol s).
Proof. unfold stol. kept_tac. Qed.

Lemma kept_bin_op ope r v : kept (bin_op ope r v).
Proof. unfold bin_op. kept_tac. Qed.

Lemma kept_c_assert c : kept (c_assert c).
Proof. unfold c_assert. kept_tac. Qed.

Lemma kept_node_at l i : kept (node_at l i).
Proof. unfold node_at. kept_tac. Qed.

#[local] Hint Resolve kept_str kept_compare_values kept_append_outer kept_has
  kept_get kept_assign kept_initialize kept_get_property kept_stol
  kept_bin_op kept_c_assert kept_node_at : kept.

Section KeptEval.
Variable ev : Ast -> loc -> M Value.
Hypothesis ev_kept : forall ast env, kept (ev ast env).
Variable fuel : nat.

#[local] Hint Resolve ev_kept : kept.

Lemma kept_eval_statements ast env : kept (eval_statements ev ast env).
Proof.
  unfold eval_statements.
  destruct (is_token ast); [auto with kept|].
  destruct (nodes ast) as [|n rest]; [auto with kept|].
  revert n. induction rest as [|n' rest IH]; intros n; simpl; kept_tac.
Qed.

Lemma kept_eval_while ast env : kept (eval_while ev fuel ast env).
Proof.
  unfold eval_while.
  induction fuel as [|k IH]; simpl; kept_tac.
Qed.

Lemma kept_eval_if ast env : kept (eval_if ev ast env).
Proof.
  unfold eval_if. generalize (nodes ast) as ns.
  fix IH 1. intros [|c [|t rest]]; simpl.
  - auto with kept.
  - auto with kept.
  - apply kept_bind; [auto with kept|]. intros cond.
    apply kept_bind; [auto with kept|]. intros [|]; [auto with kept|].
    apply IH.
Qed.

Lemma kept_eval_function ast env : kept (eval_function ast env).
Proof.
  assert (Hp : forall ns, kept (eval_function_params ns)).
  { induction ns as [|n ns IH]; simpl; kept_tac. }
  unfold eval_function. kept_tac.
Qed.

Lemma kept_invoke c callEnv : kept (invoke ev fuel c callEnv).
Proof.
  revert c.
  fix IH 1. intros [env body|this [ps c']| | | | |]; simpl.
  - kept_tac.
  - apply kept_bind; [auto with kept|]. intros _. apply IH.
  - kept_tac.
  - kept_tac.
  - kept_tac.
  - kept_tac.
  - kept_tac.
Qed.

Lemma kept_bind_params callEnv env ps args :
  kept (bind_params ev callEnv env ps args).
Proof.
  revert args. induction ps as [|p ps IH]; intros args; simpl; kept_tac.
Qed.

#[local] Hint Resolve kept_invoke kept_bind_params : kept.

Lemma kept_eval_suffix ast env v n : kept (eval_suffix ev fuel ast env v n).
Proof.
  unfold eval_suffix, eval_arguments, eval_index, eval_dot, internal_error.
  kept_tac.
Qed.

Lemma kept_eval_call ast env : kept (eval_call ev fuel ast env).
Proof.
  assert (Hl : forall ns v, kept (eval_call_loop ev fuel ast env v ns)).
  { pose proof kept_eval_suffix as Hs.
    induction ns as [|n ns IH]; intros v; simpl; kept_tac. }
  unfold eval_call. kept_tac.
Qed.

Lemma kept_eval_logical_or ast env : kept (eval_logical_or ev ast env).
Proof.
  assert (Hl : forall ns v, kept (eval_logical_or_loop ev env v ns)).
  { induction ns as [|n ns IH]; intros v; simpl; kept_tac. }
  unfold eval_logical_or. kept_tac.
Qed.

Lemma kept_eval_logical_and ast env : kept (eval_logical_and ev ast env).
Proof.
  assert (Hl : forall ns v, kept (eval_logical_and_loop ev env v ns)).
  { induction ns as [|n ns IH]; intros v; simpl; kept_tac. }
  unfold eval_logical_and. kept_tac.
Qed.

Lemma kept_eval_bin_expression ast env : kept (eval_bin_expression ev ast env).
Proof.
  assert (Hl : forall ns r, kept (eval_bin_expression_loop ev env r ns)).
  { fix IH 1. intros [|opn [|operand rest]] r; simpl.
    - auto with kept.
    - auto with kept.
    - repeat (apply kept_bind; [auto with kept|]; intro). apply IH. }
  unfold eval_bin_expression. kept_tac.
Qed.

Lemma kept_eval_object ast env : kept (eval_object ev ast env).
Proof.
  assert (Hl : forall ns props, kept (eval_object_loop ev env props ns)).
  { induction ns as [|n ns IH]; intros props; simpl; kept_tac. }
  unfold eval_object. kept_tac.
Qed.

Lemma kept_eval_array ast env : kept (eval_array ev ast env).
Proof.
  assert (Hl : forall ns vs, kept (eval_array_loop ev env vs ns)).
  { induction ns as [|n ns IH]; intros vs; simpl; kept_tac. }
  unfold eval_array. kept_tac.
Qed.

Lemma kept_eval_interpolated_string ast env :
  kept (eval_interpolated_string ev fuel ast env).
Proof.
  assert (Hl : forall ns s, kept (eval_interpolated_string_loop ev fuel env s ns)).
  { induction ns as [|n ns IH]; intros s; simpl; kept_tac. }
  unfold eval_interpolated_string. kept_tac.
Qed.

Lemma kept_eval_body ast env : kept (eval_body ev fuel ast env).
Proof.
  pose proof kept_eval_statements. pose proof kept_eval_while.
  pose proof kept_eval_if. pose proof kept_eval_function.
  pose proof kept_eval_call. pose proof kept_eval_logical_or.
  pose proof kept_eval_logical_and. pose proof kept_eval_bin_expression.
  pose proof kept_eval_object. pose proof kept_eval_array.
  pose proof kept_eval_interpolated_string.
  unfold eval_body, eval_block, eval_condition, eval_unary_plus,
    eval_unary_minus, eval_unary_not, eval_assignment, eval_identifier,
    eval_undefined, eval_bool, eval_number.
  kept_tac.
Qed.
End KeptEval.

Lemma kept_eval fuel ast env : kept (eval fuel ast env).
Proof.
  revert ast env. induction fuel as [|k IH]; intros ast env; simpl.
  - apply kept_out_of_fuel.
  - apply kept_eval_body. exact IH.
Qed.


(** X20: whatever a node evaluates to, and also when it raises: every
    property map that existed before is unchanged, so the properties of
    an object never change once it is made; every vector that existed
    before still starts with the elements it had, so arrays only grow at
    the end; the output written before is the beginning of the output
    afterwards; and every environment that existed before still exists. *)
Theorem evaluation_extends_store fuel ast env st :
  match eval fuel ast env st with
  | Ok _ st' | Throw _ st' =>
      (forall l m, nth_error (maps st) l = Some m ->
                   nth_error (maps st') l = Some m)
      /\ (forall l vs, nth_error (vecs st) l = Some vs ->
             exists more, nth_error (vecs st') l = Some (vs ++ more))
      /\ (exists lines, cout st' = cout st ++ lines)
      /\ (forall e fr, nth_error (envs st) e = Some fr ->
             exists fr', nth_error (envs st') e = Some fr')
  | _ => True
  end.
Proof.
  pose proof (kept_eval fuel ast env st) as H.
  pose proof (mono_eval fuel ast env st) as G.
  assert (Henv : forall st',
    grows st st' ->
    forall e fr, nth_error (envs st) e = Some fr ->
                 exists fr', nth_error (envs st') e = Some fr').
  { intros st' [Hlen _] e fr He.
    destruct (nth_error (envs st') e) as [fr'|] eqn:E; [now exists fr'|].
    apply nth_error_None in E.
    assert (e < List.length (envs st))%nat by (apply nth_error_Some; congruence).
    lia. }
  destruct (eval fuel ast env st) as [v st'|e st'| |]; auto;
    destruct H as [Hm [Hv Hc]];
    (split; [|split; [|split; [exact Hc | exact (Henv st' G)]]]);
    try (intros l m Hl; eapply prefix_of_nth_error; eassumption);
    intros l vs Hl; destruct (Hv l vs Hl) as [vs' [Hl' [more ->]]];
    now exists more.
Qed.

(** ** What [run] reports *)

Lemma compare_values_internal_error ope lhs rhs st :
  type_of lhs = Object \/ type_of lhs = Array \/ type_of lhs = Function ->
  compare_values ope lhs rhs st
  = Throw (logic_error "invalid internal condition.") st.
Proof.
  intros Hk. unfold compare_values.
  destruct lhs; simpl in Hk;
    try (destruct Hk as [Hk|[Hk|Hk]]; discriminate Hk);
    repeat match goal with
           | |- context [String.eqb ope ?s] => destruct (String.eqb ope s)
           end; reflexivity.
Qed.

Lemma missing_property_escapes ev fuel ast env x dotn o props st st1 :
  nodes ast = [x; dotn] ->
  original_tag dotn = DOT ->
  ev x env st = Ok (VObject o) st1 ->
  nth_error (maps st1) (properties o) = Some props ->
  map_find (token dotn) props = None ->
  token dotn <> "size" ->
  eval_call ev fuel ast env st = Throw (out_of_range "map::at") st1.
Proof.
  intros Hn Hdot Hx Hmap Hown Hsize.
  unfold eval_call, node_at. rewrite Hn. cbn [nth_error tl].
  rewrite bind_ret, (bind_ok _ _ _ _ _ Hx).
  cbn [eval_call_loop].
  assert (Hs : eval_suffix ev fuel ast env (VObject o) dotn st1
               = Throw (out_of_range "map::at") st1).
  { unfold eval_suffix. rewrite Hdot. simpl. unfold eval_dot.
    assert (Hgp : get_property (VObject o) (token dotn) st1
                  = Throw (out_of_range "map::at") st1).
    { rewrite (get_property_of_object st1 o props) by exact Hmap.
      rewrite Hown. simpl. apply String.eqb_neq in Hsize. now rewrite Hsize. }
    now rewrite (bind_throw _ _ _ _ _ Hgp). }
  now rewrite (bind_throw _ _ _ _ _ Hs).
Qed.

(** X21: for a text that parses, [run] returns [true] with the value
    when the evaluation returns, leaving [msg] alone, and returns
    [false] with the text of the error in [msg] when the evaluation
    raises a [runtime_error], leaving [val] alone.  Other exceptions are
    not caught: reading a property that neither the object nor its
    built-ins define, and comparing with an object, an array or a
    function on the left, leave [run] as exceptions. *)
Theorem run_reports_runtime_errors_only parse_n print fuel path env expr
    val msg print_ast ast st :
  parse_n expr = inl ast ->
  let st0 := after_print print ast print_ast st in
  let outcome := run parse_n print fuel path env expr val msg print_ast st in
  (forall v st', eval fuel ast env st0 = Ok v st' ->
                 outcome = Ok (mkRunResult true v msg) st')
  /\ (forall what st', eval fuel ast env st0 = Throw (runtime_error what) st' ->
                       outcome = Ok (mkRunResult false val what) st')
  /\ (forall k x dotn o props st1,
         fuel = S k -> tag ast = CALL ->
         nodes ast = [x; dotn] -> original_tag dotn = DOT ->
         eval k x env st0 = Ok (VObject o) st1 ->
         nth_error (maps st1) (properties o) = Some props ->
         map_find (token dotn) props = None ->
         token dotn <> "size" ->
         outcome = Throw (out_of_range "map::at") st1)
  /\ (forall k a o b lhs st1 ope st2 rhs st3,
         fuel = S k -> tag ast = CONDITION ->
         nodes ast = [a; o; b] ->
         eval k a env st0 = Ok lhs st1 ->
         eval k o env st1 = Ok (VString ope) st2 ->
         eval k b env st2 = Ok rhs st3 ->
         type_of lhs = Object \/ type_of lhs = Array \/ type_of lhs = Function ->
         outcome = Throw (logic_error "invalid internal condition.") st3).
Proof.
  intros Hparse st0 outcome.
  assert (Hrun : outcome
    = match eval fuel ast env st0 with
      | Ok v st2 => Ok (mkRunResult true v msg) st2
      | Throw (runtime_error what) st2 => Ok (mkRunResult false val what) st2
      | Throw e st2 => Throw e st2
      | Abort => Abort
      | OutOfFuel => OutOfFuel
      end).
  { unfold outcome, run. now rewrite Hparse. }
  rewrite Hrun. split; [|split; [|split]].
  - intros v st' ->. reflexivity.
  - intros what st' ->. reflexivity.
  - intros k x dotn o props st1 -> Htag Hn Hdot Hx Hmap Hown Hsize.
    cbn [eval]. unfold eval_body. rewrite Htag.
    now rewrite (missing_property_escapes _ _ _ _ _ _ _ _ _ _
                   Hn Hdot Hx Hmap Hown Hsize).
  - intros k a o b lhs st1 ope st2 rhs st3 -> Htag Hn Ha Ho Hb Hk.
    cbn [eval]. unfold eval_body. rewrite Htag.
    rewrite (eval_condition_compare _ _ _ _ _ _ _ _ _ _ _ _ _ Hn Ha Ho Hb).
    now rewrite (compare_values_internal_error ope lhs rhs st3 Hk).
Qed.

Lemma run_reports_runtime_errors_only_witness :
  run parse_one (fun _ => []) 3 "main" root "{x: 1, x: 2}.y" VUndefined ""
    false prelude
  = Throw (out_of_range "map::at") (with_map prelude [("x", VLong 1)]).
Proof.
  apply (proj1 (proj2 (proj2 (run_reports_runtime_errors_only parse_one
           (fun _ => []) 3 "main" root "{x: 1, x: 2}.y" VUndefined "" false
           object_x_x_dot_y prelude eq_refl)))
           2%nat object_x_x (tk IDENTIFIER DOT 1 14 "y") (mkObject 0%nat)
           [("x", VLong 1)] (with_map prelude [("x", VLong 1)]));
    try reflexivity.
  discriminate.
Defined.

(** ** The built-in [puts] *)

Section StrStores.
Variables st st' : State.
Hypothesis same_maps : maps st' = maps st.
Hypothesis same_vecs : vecs st' = vecs st.

Lemma str_object_loop_stores (f : Value -> M string) :
  (forall v r s1, f v st = Ok r s1 -> s1 = st /\ f v st' = Ok r st') ->
  forall props first s r s1,
    str_object_loop f first props s st = Ok r s1 ->
    s1 = st /\ str_object_loop f first props s st' = Ok r st'.
Proof.
  intros Hf props.
  induction props as [|[k v] props IH]; intros first s r s1; simpl.
  - unfold ret. intros H. inversion H; subst. auto.
  - unfold bind at 1.
    destruct (f v st) as [x sx| | |] eqn:E; try discriminate.
    destruct (Hf _ _ _ E) as [-> E']. intros H.
    destruct (IH _ _ _ _ H) as [-> H'].
    split; [reflexivity|]. now rewrite (bind_ok _ _ _ _ _ E').
Qed.

Lemma str_array_loop_stores (f : Value -> M string) :
  (forall v r s1, f v st = Ok r s1 -> s1 = st /\ f v st' = Ok r st') ->
  forall vs first s r s1,
    str_array_loop f first vs s st = Ok r s1 ->
    s1 = st /\ str_array_loop f first vs s st' = Ok r st'.
Proof.
  intros Hf vs.
  induction vs as [|v vs IH]; intros first s r s1; simpl.
  - unfold ret. intros H. inversion H; subst. auto.
  - unfold bind at 1.
    destruct (f v st) as [x sx| | |] eqn:E; try discriminate.
    destruct (Hf _ _ _ E) as [-> E']. intros H.
    destruct (IH _ _ _ _ H) as [-> H'].
    split; [reflexivity|]. now rewrite (bind_ok _ _ _ _ _ E').
Qed.

(** [str] reads the property maps and the vectors only, and writes
    nothing. *)
Lemma str_stores fuel :
  forall v r s1,
    str fuel v st = Ok r s1 -> s1 = st /\ str fuel v st' = Ok r st'.
Proof.
  induction fuel as [|k IH]; intros v r s1; [discriminate|].
  change (str (S k) v) with (str_body (str k) v).
  destruct v; unfold str_body;
    try (cbn; unfold ret; intros H; inversion H; subst; now auto).
  - unfold str_object, to_object. rewrite !bind_ret.
    unfold deref. rewrite same_maps.
    destruct (nth_error (maps st) (properties o)) as [props|]; [|discriminate].
    unfold bind at 1.
    destruct (str_object_loop (str k) true props "{" st) as [x sx| | |] eqn:E;
      try discriminate.
    destruct (str_object_loop_stores (str k) IH _ _ _ _ _ E) as [-> E'].
    unfold ret. intros H. inversion H; subst.
    split; [reflexivity|]. now rewrite (bind_ok _ _ _ _ _ E').
  - unfold str_array, to_array. rewrite !bind_ret.
    unfold deref. rewrite same_vecs.
    destruct (nth_error (vecs st) (values a)) as [vs|]; [|discriminate].
    unfold bind at 1.
    destruct (str_array_loop (str k) true vs "[" st) as [x sx| | |] eqn:E;
      try discriminate.
    destruct (str_array_loop_stores (str k) IH _ _ _ _ _ E) as [-> E'].
    unfold ret. intros H. inversion H; subst.
    split; [reflexivity|]. now rewrite (bind_ok _ _ _ _ _ E').
Qed.
End StrStores.

(** X22: [puts] is bound in the prelude, and a call of it whose argument
    evaluates to [v] writes one line to the output, the rendering of [v]
    by [str], changes no property map and no vector, and yields
    [Undefined]. *)
Theorem puts_prints k ast env n a rest st v st1 r :
  nodes n = a :: rest ->
  eval k a env (call_entry st puts_fn) = Ok v st1 ->
  str k v st1 = Ok r st1 ->
  get 1 root "puts" prelude = Ok puts_fn prelude
  /\ exists st2,
      eval_arguments (eval k) k ast env puts_fn n st = Ok VUndefined st2
      /\ cout st2 = cout st1 ++ [r]
      /\ maps st2 = maps st1 /\ vecs st2 = vecs st1.
Proof.
  intros Hn Ha Hr. split; [reflexivity|].
  destruct k as [|k]; [discriminate Ha|].
  set (callEnv := List.length (envs st)).
  assert (Hfr : exists fr, nth_error (envs st1) callEnv = Some fr).
  { pose proof (mono_eval (S k) a env (call_entry st puts_fn)) as Hg.
    rewrite Ha in Hg. destruct Hg as [Hg _]. unfold call_entry in Hg.
    simpl in Hg. rewrite length_app in Hg. simpl in Hg.
    destruct (nth_error (envs st1) callEnv) as [fr|] eqn:E; [now exists fr|].
    apply nth_error_None in E. unfold callEnv in E. lia. }
  destruct Hfr as [fr Hfr].
  destruct (assert_frame k ast st1 callEnv fr v Hfr)
    as [HA [HB [HC [Harg _]]]].
  set (l := VLong (long_of_size_t (line ast))) in *.
  set (c := VLong (long_of_size_t (column ast))) in *.
  match type of HC with _ = Ok tt ?s => set (st2 := s) in * end.
  assert (Hstores : maps st2 = maps st1 /\ vecs st2 = vecs st1
                    /\ cout st2 = cout st1).
  { unfold st2.
    repeat (match goal with
            | |- context [maps (with_binding ?s ?e ?n ?v ?m)] =>
                rewrite (proj1 (with_binding_stores s e n v m))
            | |- context [vecs (with_binding ?s ?e ?n ?v ?m)] =>
                rewrite (proj1 (proj2 (with_binding_stores s e n v m)))
            | |- context [cout (with_binding ?s ?e ?n ?v ?m)] =>
                rewrite (proj2 (proj2 (with_binding_stores s e n v m)))
            end).
    auto. }
  destruct Hstores as [Hmaps [Hvecs Hcout]].
  destruct (str_stores st1 st2 Hmaps Hvecs (S k) v r st1 Hr) as [_ Hr2].
  exists (mkState (envs st2) (maps st2) (vecs st2) (cout st2 ++ [r])).
  split; [|split; [simpl; now rewrite Hcout | simpl; auto]].
  unfold puts_fn at 1.
  rewrite eval_arguments_enough by (rewrite Hn; simpl; lia).
  fold puts_fn. fold callEnv. fold l. fold c. rewrite Hn.
  cbn [params bind_params name mut fn_eval].
  assert (Hbp : (v0 <- eval (S k) a env ;;
                 initialize callEnv "arg" v0 true ;; ret tt)
                  (call_entry st puts_fn)
                = Ok tt (with_binding st1 callEnv "arg" v true)).
  { rewrite (bind_ok _ _ _ _ _ Ha). now rewrite (bind_ok _ _ _ _ _ HA). }
  rewrite (bind_ok _ _ _ _ _ Hbp).
  rewrite (bind_ok _ _ _ _ _ HB), (bind_ok _ _ _ _ _ HC).
  cbn [invoke].
  rewrite (bind_ok _ _ _ _ _ Harg), (bind_ok _ _ _ _ _ Hr2).
  reflexivity.
Qed.

Lemma puts_prints_witness :
  exists st2,
    eval_arguments (eval 3) 3%nat puts_array root puts_fn
      (nd ARGUMENTS ARGUMENTS 1 5 [array_10_20_30]) prelude
    = Ok VUndefined st2
    /\ cout st2 = [] ++ ["[10, 20, 30]"].
Proof.
  destruct (proj2 (puts_prints 3 puts_array root
              (nd ARGUMENTS ARGUMENTS 1 5 [array_10_20_30]) array_10_20_30 []
              prelude (VArray the_array)
              (with_array (call_entry prelude puts_fn)
                 [VLong 10; VLong 20; VLong 30])
              "[10, 20, 30]" eq_refl eq_refl eq_refl))
    as [st2 [Hcall [Hout _]]].
  exists st2. split; [exact Hcall | exact Hout].
Defined.
